(** * Geometry: a shallow embedding of [Geometry.cpp]

    The development follows the source file function by function.

    - C++ [int] is a 32-bit two's-complement integer, modelled as [Z] with the
      wrap-around of every arithmetic result written out ([Int.wrap]); an
      integer division that traps (by zero, or [INT_MIN / -1]) has no result.
    - C++ [float] is accessed through the interface [FloatOps]: the geometry
      functions are written once against that interface and are then read
      either over IEEE-754 binary32 (instance [binary32], built on the
      Standard Library's [SpecFloat], executable) or over the real numbers
      (instance [Rideal], exact arithmetic, in which the geometric meaning of
      the formulas is stated).
    - Output reference parameters are passed in and returned (explicit state
      passing): a function [bool f(in, T& out)] becomes
      [f in out : bool * T].
    - Every floating-point division executed by an intersection routine is
      recorded, with its divisor, in a small logging monad ([Div]).  The
      same holds for the divisions that the other functions of the file
      write themselves; the division inside Eigen's [normalized()] is not
      recorded.
    - An array or vector is a list; a read past its end has no result. *)

From Stdlib Require Import ZArith List Bool Lia Reals Lra Psatz.
From Stdlib Require Import Floats.SpecFloat.
Import ListNotations.

Local Open Scope Z_scope.

(* ================================================================== *)
(** * Machine integers *)

Module Int.

Definition min_int : Z := - 2 ^ 31.
Definition max_int : Z := 2 ^ 31 - 1.

Definition in_range (z : Z) : Prop := min_int <= z <= max_int.

(** Reduction of a mathematical result to the 32-bit signed range. *)
Definition wrap (z : Z) : Z := (z + 2 ^ 31) mod 2 ^ 32 - 2 ^ 31.

Definition add (a b : Z) : Z := wrap (a + b).
Definition sub (a b : Z) : Z := wrap (a - b).
Definition mul (a b : Z) : Z := wrap (a * b).

(** [/] on [int] truncates towards zero.  A zero divisor has no result, and
    neither has [INT_MIN / -1], whose quotient is not an [int]: the machine
    traps on both. *)
Definition div (a b : Z) : option Z :=
  if b =? 0 then None
  else if (a =? min_int) && (b =? -1) then None
  else Some (wrap (Z.quot a b)).

(** [std::abs] on [int]. *)
Definition abs (a : Z) : Z := wrap (Z.abs a).

(** Modelled from the spec: [sgn] is defined in [MathBase/BHMath.h], whose
    text is not available; the spec calls it the "separate sign factor" that
    preserves the direction of the walk.  It is only ever applied to a
    non-zero difference. *)
Definition sgn (a : Z) : Z := Z.sgn a.

End Int.

(** [Vector2i], with Eigen's accessors [x()] and [y()]. *)
Module Vector2i.
Record t : Type := mk { x : Z; y : Z }.
End Vector2i.

(* ================================================================== *)
(** * Rasterisation: [Geometry::PixeledLine] *)

Module PixeledLine.

(** What a run of [calculatePixels] can end in: the filled vector, the trap
    of an integer division (by zero; [Int.div] has no result either for
    [INT_MIN / -1]), the [std::length_error] of [reserve] on a negative
    request, or no result within the given number of loop iterations. *)
Inductive outcome : Type :=
| Pixels (pixels : list Vector2i.t)
| DivisionByZero
| LengthError
| OutOfFuel.

(** [reserve(numberOfPixels / stepSize)]: no effect on the contents. *)
Definition reserve (numberOfPixels stepSize : Z) (k : outcome) : outcome :=
  match Int.div numberOfPixels stepSize with
  | None => DivisionByZero
  | Some n => if n <? 0 then LengthError else k
  end.

(** [for(int i = 0; i < numberOfPixels; i += stepSize) emplace_back(body(i));]
    Both loops of the source have this shape; [i] is the current value of the
    loop variable and [pixels] the vector filled so far. *)
Fixpoint loop (fuel : nat) (body : Z -> option Vector2i.t)
         (numberOfPixels stepSize : Z) (i : Z) (pixels : list Vector2i.t)
  : outcome :=
  match fuel with
  | O => OutOfFuel
  | S fuel' =>
      if i <? numberOfPixels
      then match body i with
           | None => DivisionByZero
           | Some pixel =>
               loop fuel' body numberOfPixels stepSize
                    (Int.add i stepSize) (pixels ++ [pixel])
           end
      else Pixels pixels
  end.

(** Body of the loop over [x] (x is the dominant axis). *)
Definition pixel_along_x (x1 y1 x2 y2 sign : Z) (x : Z) : option Vector2i.t :=
  match Int.div (Int.mul x (Int.sub y2 y1)) (Int.sub x2 x1) with
  | None => None
  | Some y =>
      Some (Vector2i.mk (Int.add x1 (Int.mul x sign))
                        (Int.add y1 (Int.mul y sign)))
  end.

(** Body of the loop over [y] (y is the dominant axis). *)
Definition pixel_along_y (x1 y1 x2 y2 sign : Z) (y : Z) : option Vector2i.t :=
  match Int.div (Int.mul y (Int.sub x2 x1)) (Int.sub y2 y1) with
  | None => None
  | Some x =>
      Some (Vector2i.mk (Int.add x1 (Int.mul x sign))
                        (Int.add y1 (Int.mul y sign)))
  end.

(** [PixeledLine::calculatePixels], started on the empty vector as its
    [ASSERT(empty())] demands. *)
Definition calculatePixels (fuel : nat) (x1 y1 x2 y2 stepSize : Z) : outcome :=
  if (x1 =? x2) && (y1 =? y2) then Pixels [Vector2i.mk x1 y1]
  else if Int.abs (Int.sub x2 x1) >? Int.abs (Int.sub y2 y1) then
    let sign := Int.sgn (Int.sub x2 x1) in
    let numberOfPixels := Int.add (Int.abs (Int.sub x2 x1)) 1 in
    reserve numberOfPixels stepSize
      (loop fuel (pixel_along_x x1 y1 x2 y2 sign) numberOfPixels stepSize 0 [])
  else
    let sign := Int.sgn (Int.sub y2 y1) in
    let numberOfPixels := Int.add (Int.abs (Int.sub y2 y1)) 1 in
    reserve numberOfPixels stepSize
      (loop fuel (pixel_along_y x1 y1 x2 y2 sign) numberOfPixels stepSize 0 []).

(** The loop body that [calculatePixels] selects for distinct endpoints. *)
Definition pixel_at (x1 y1 x2 y2 : Z) : Z -> option Vector2i.t :=
  if Int.abs (Int.sub x2 x1) >? Int.abs (Int.sub y2 y1)
  then pixel_along_x x1 y1 x2 y2 (Int.sgn (Int.sub x2 x1))
  else pixel_along_y x1 y1 x2 y2 (Int.sgn (Int.sub y2 y1)).

(** The first [count] values of a loop variable that starts at [0] and
    advances by [stepSize]. *)
Definition loop_values (count : nat) (stepSize : Z) : list Z :=
  map (fun k => Z.of_nat k * stepSize) (seq 0 count).

(** [ceil (n / d)] for positive [d]. *)
Definition ceil_div (n d : Z) : Z := (n + d - 1) / d.

(** Length of the dominant axis. *)
Definition dominant (x1 y1 x2 y2 : Z) : Z :=
  Z.max (Z.abs (x2 - x1)) (Z.abs (y2 - y1)).

End PixeledLine.

(* ================================================================== *)
(** * Rectangles with integer corners *)

(** [Geometry::isPointInsideRectangle] on [Vector2i]. *)
Definition isPointInsideRectangle_i
           (bottomLeftCorner topRightCorner point : Vector2i.t) : bool :=
  (Vector2i.x bottomLeftCorner <=? Vector2i.x point) &&
  (Vector2i.x point <=? Vector2i.x topRightCorner) &&
  (Vector2i.y bottomLeftCorner <=? Vector2i.y point) &&
  (Vector2i.y point <=? Vector2i.y topRightCorner).

(** [Geometry::clipPointInsideRectangle] on [Vector2i]: the flag and the
    point as the four [if] statements leave them. *)
Definition clipPointInsideRectangle_i
           (bottomLeftCorner topRightCorner point : Vector2i.t)
  : bool * Vector2i.t :=
  let clipped := false in
  let '(clipped, point) :=
    if Vector2i.x point <? Vector2i.x bottomLeftCorner
    then (true, Vector2i.mk (Vector2i.x bottomLeftCorner) (Vector2i.y point))
    else (clipped, point) in
  let '(clipped, point) :=
    if Vector2i.x point >? Vector2i.x topRightCorner
    then (true, Vector2i.mk (Vector2i.x topRightCorner) (Vector2i.y point))
    else (clipped, point) in
  let '(clipped, point) :=
    if Vector2i.y point <? Vector2i.y bottomLeftCorner
    then (true, Vector2i.mk (Vector2i.x point) (Vector2i.y bottomLeftCorner))
    else (clipped, point) in
  let '(clipped, point) :=
    if Vector2i.y point >? Vector2i.y topRightCorner
    then (true, Vector2i.mk (Vector2i.x point) (Vector2i.y topRightCorner))
    else (clipped, point) in
  (clipped, point).

(* ================================================================== *)
(** * The arithmetic of [float] *)

(** Operations the source applies to [float] values.  [of_int] is the
    conversion of an integer constant ([0], [1], [2.0f], ...). *)
Class FloatOps (F : Type) : Type := {
  fadd : F -> F -> F;
  fsub : F -> F -> F;
  fmul : F -> F -> F;
  fdiv : F -> F -> F;
  fopp : F -> F;
  fabs : F -> F;
  fsqrt : F -> F;
  feqb : F -> F -> bool;
  fltb : F -> F -> bool;
  fleb : F -> F -> bool;
  of_int : Z -> F
}.

Declare Scope fl_scope.
Delimit Scope fl_scope with fl.

Notation "a + b" := (fadd a b) : fl_scope.
Notation "a - b" := (fsub a b) : fl_scope.
Notation "a * b" := (fmul a b) : fl_scope.
Notation "- a" := (fopp a) : fl_scope.
Notation "a == b" := (feqb a b) (at level 70, no associativity) : fl_scope.
Notation "a < b" := (fltb a b) : fl_scope.
Notation "a > b" := (fltb b a) : fl_scope.
Notation "a <= b" := (fleb a b) : fl_scope.
Notation "a >= b" := (fleb b a) : fl_scope.

(* ================================================================== *)
(** * The geometry functions *)

Section Geometry.

Context {F : Type} {ops : FloatOps F}.

(** [Vector2f] with Eigen's accessors [x()] and [y()]. *)
Record Vector2f : Type := mkVector2f { x : F; y : F }.

(** [Geometry::Line]. *)
Record Line : Type := mkLine { base : Vector2f; direction : Vector2f }.

(** [Geometry::Circle]. *)
Record Circle : Type := mkCircle { center : Vector2f; radius : F }.

Local Open Scope fl_scope.

(** Eigen's vector operations, as far as the source uses them. *)
Definition vadd (a b : Vector2f) : Vector2f :=
  mkVector2f (x a + x b) (y a + y b).
Definition vsub (a b : Vector2f) : Vector2f :=
  mkVector2f (x a - x b) (y a - y b).
Definition vscale (a : Vector2f) (s : F) : Vector2f :=
  mkVector2f (x a * s) (y a * s).
Definition dot (a b : Vector2f) : F := x a * x b + y a * y b.
Definition squaredNorm (a : Vector2f) : F := x a * x a + y a * y a.
Definition veqb (a b : Vector2f) : bool := (x a == x b) && (y a == y b).

(** Modelled from the spec: [sqr] is defined in [MathBase/BHMath.h], whose
    text is not available; the spec uses it for the "squared radius". *)
Definition sqr (a : F) : F := a * a.

(** ** Computations that log their divisions *)

(** A computation returns its value together with the divisors of the
    floating-point divisions it executed, oldest first. *)
Definition Div (A : Type) : Type := (A * list F)%type.

Definition ret {A : Type} (a : A) : Div A := (a, []).

Definition bind {A B : Type} (m : Div A) (k : A -> Div B) : Div B :=
  let (a, ds) := m in
  let (b, ds') := k a in
  (b, ds ++ ds').

(** [a / b] on [float]. *)
Definition divide (a b : F) : Div F := (fdiv a b, [b]).

Definition value {A : Type} (m : Div A) : A := fst m.
Definition divisors {A : Type} (m : Div A) : list F := snd m.

Local Notation "v <- m ;; k" := (bind m (fun v => k))
  (at level 61, m at next level, right associativity).

(** ** [Geometry::getIntersectionOfLines] *)
Definition getIntersectionOfLines (line1 line2 : Line) (intersection : Vector2f)
  : Div (bool * Vector2f) :=
  if y (direction line1) * x (direction line2)
     == x (direction line1) * y (direction line2)
  then ret (false, intersection)
  else
    qx <- divide
            (x (direction line1) *
             (y (base line1) * x (direction line2) -
              y (base line2) * x (direction line2) +
              (- x (base line1) + x (base line2)) * y (direction line2)))
            ((- y (direction line1)) * x (direction line2) +
             x (direction line1) * y (direction line2)) ;;
    qy <- divide
            (y (direction line1) *
             ((- y (base line1)) * x (direction line2) +
              y (base line2) * x (direction line2) +
              (x (base line1) - x (base line2)) * y (direction line2)))
            (y (direction line1) * x (direction line2) -
             x (direction line1) * y (direction line2)) ;;
    ret (true, mkVector2f (x (base line1) + qx) (y (base line1) + qy)).

(** ** [Geometry::getIntersectionOfCircles] *)
Definition getIntersectionOfCircles (c0 c1 : Circle) (p1 p2 : Vector2f)
  : Div (Z * Vector2f * Vector2f) :=
  let dx := x (center c1) - x (center c0) in
  let dy := y (center c1) - y (center c0) in
  let d := fsqrt ((dy * dy) + (dx * dx)) in
  if d > (radius c0 + radius c1) then ret (0%Z, p1, p2)
  else if d < fabs (radius c0 - radius c1) then ret (0%Z, p1, p2)
  else
    a <- divide ((radius c0 * radius c0) - (radius c1 * radius c1) + (d * d))
                (of_int 2 * d) ;;
    ox <- divide (dx * a) d ;;
    let x2 := x (center c0) + ox in
    oy <- divide (dy * a) d ;;
    let y2 := y (center c0) + oy in
    let h := fsqrt ((radius c0 * radius c0) - (a * a)) in
    hx <- divide h d ;;
    let rx := (- dy) * hx in
    hy <- divide h d ;;
    let ry := dx * hy in
    let p1' := mkVector2f (x2 + rx) (y2 + ry) in
    let p2' := mkVector2f (x2 - rx) (y2 - ry) in
    ret (if veqb p1' p2' then 1%Z else 2%Z, p1', p2').

(** ** [Geometry::getIntersectionOfLineAndCircle] *)
Definition getIntersectionOfLineAndCircle (line : Line) (circle : Circle)
           (firstIntersection secondIntersection : Vector2f)
  : Div (Z * Vector2f * Vector2f) :=
  let divisor := squaredNorm (direction line) in
  p <- divide (of_int 2 * (dot (base line) (direction line) -
                           dot (center circle) (direction line)))
              divisor ;;
  q <- divide (squaredNorm (vsub (base line) (center circle)) -
               sqr (radius circle))
              divisor ;;
  p_2 <- divide p (of_int 2) ;;
  let radicand := sqr p_2 - q in
  if radicand < of_int 0 then ret (0%Z, firstIntersection, secondIntersection)
  else
    let radix := fsqrt radicand in
    ret (if radicand == of_int 0 then 1%Z else 2%Z,
         vadd (base line) (vscale (direction line) (- p_2 + radix)),
         vadd (base line) (vscale (direction line) (- p_2 - radix))).

(** ** [Geometry::getIntersectionOfRaysFactor] *)
Definition getIntersectionOfRaysFactor (ray1 ray2 : Line) (factor : F)
  : Div (bool * F) :=
  let divisor := x (direction ray2) * y (direction ray1) -
                 x (direction ray1) * y (direction ray2) in
  if divisor == of_int 0 then ret (false, factor)
  else
    k <- divide (y (direction ray2) * x (base ray1) -
                 y (direction ray2) * x (base ray2) -
                 x (direction ray2) * y (base ray1) +
                 x (direction ray2) * y (base ray2))
                divisor ;;
    l <- divide (y (direction ray1) * x (base ray1) -
                 y (direction ray1) * x (base ray2) -
                 x (direction ray1) * y (base ray1) +
                 x (direction ray1) * y (base ray2))
                divisor ;;
    if (k >= of_int 0) && (l >= of_int 0) && (k <= of_int 1) && (l <= of_int 1)
    then ret (true, k)
    else ret (false, factor).

(** ** [Geometry::ccw] *)
Definition ccw (p0 p1 p2 : Vector2f) : Z :=
  let dx1 := x p1 - x p0 in
  let dy1 := y p1 - y p0 in
  let dx2 := x p2 - x p0 in
  let dy2 := y p2 - y p0 in
  if dx1 * dy2 > dy1 * dx2 then 1%Z
  else if dx1 * dy2 < dy1 * dx2 then (-1)%Z
  else if (dx1 * dx2 < of_int 0) || (dy1 * dy2 < of_int 0) then (-1)%Z
  else if (dx1 * dx1 + dy1 * dy1) >= (dx2 * dx2 + dy2 * dy2) then 0%Z
  else 1%Z.

(** ** [Geometry::isPointInsideConvexPolygon] *)

(** [polygon[i]] for the array behind the pointer; [None] is a read past its
    end. *)
Definition at_index (polygon : list Vector2f) (i : Z) : option Vector2f :=
  if (i <? 0)%Z then None else nth_error polygon (Z.to_nat i).

(** [ccw(polygon[i], polygon[(i + 1) % numberOfPoints], point)]. *)
Definition edge_ccw (polygon : list Vector2f) (numberOfPoints : Z)
           (point : Vector2f) (i : Z) : option Z :=
  match at_index polygon i, at_index polygon (Z.rem (i + 1) numberOfPoints) with
  | Some a, Some b => Some (ccw a b point)
  | _, _ => None
  end.

(** The [for] loop, over the values its variable [i] still has to take. *)
Fixpoint convex_loop (polygon : list Vector2f) (numberOfPoints : Z)
         (point : Vector2f) (orientation : Z) (todo : list Z) : option bool :=
  match todo with
  | [] => Some true
  | i :: rest =>
      match edge_ccw polygon numberOfPoints point i with
      | None => None
      | Some currentOrientation =>
          if (currentOrientation =? 0)%Z then Some true
          else if negb (currentOrientation =? orientation)%Z then Some false
          else convex_loop polygon numberOfPoints point orientation rest
      end
  end.

(** The values [1, 2, ..., n - 1] of the loop variable. *)
Definition indices_from_1 (n : Z) : list Z :=
  map Z.of_nat (seq 1 (Z.to_nat n - 1)).

Definition isPointInsideConvexPolygon (polygon : list Vector2f)
           (numberOfPoints : Z) (point : Vector2f) : option bool :=
  match at_index polygon 0, at_index polygon 1 with
  | Some v0, Some v1 =>
      let orientation := ccw v0 v1 point in
      if (orientation =? 0)%Z then Some true
      else convex_loop polygon numberOfPoints point orientation
                       (indices_from_1 numberOfPoints)
  | _, _ => None
  end.

(** ** [Geometry::circleIntersectsAxisAlignedRectangle] *)
Definition circleIntersectsAxisAlignedRectangle (cp : Vector2f) (r : F)
           (p1 p2 : Vector2f) : bool :=
  let xMin := if x p1 < x p2 then x p1 else x p2 in
  let xMax := if x p1 < x p2 then x p2 else x p1 in
  let yMin := if y p1 < y p2 then y p1 else y p2 in
  let yMax := if y p1 < y p2 then y p2 else y p1 in
  if (x cp < xMin - r) || (x cp > xMax + r) ||
     (y cp < yMin - r) || (y cp > yMax + r)
  then false
  else
    let rSquare := sqr r in
    if ((x cp < xMin) && (y cp < yMin) &&
        (squaredNorm (vsub cp (mkVector2f xMin yMin)) > rSquare)) ||
       ((x cp < xMin) && (y cp > yMax) &&
        (squaredNorm (vsub cp (mkVector2f xMin yMax)) > rSquare)) ||
       ((x cp > xMax) && (y cp < yMin) &&
        (squaredNorm (vsub cp (mkVector2f xMax yMin)) > rSquare)) ||
       ((x cp > xMax) && (y cp > yMax) &&
        (squaredNorm (vsub cp (mkVector2f xMax yMax)) > rSquare))
    then false
    else true.

(** ** Further operations of Eigen and of the C++ library *)

(** A [float] literal with a fractional part, written as the quotient of two
    integers that rounds to it: [0.5f] is [of_ratio 1 2] and [0.1f] is
    [of_ratio 1 10]. *)
Definition of_ratio (n d : Z) : F := fdiv (of_int n) (of_int d).

(** [std::min] and [std::max]: the first argument, unless the comparison
    selects the second. *)
Definition std_min (a b : F) : F := if b < a then b else a.
Definition std_max (a b : F) : F := if a < b then b else a.

(** Eigen's [norm()]. *)
Definition norm (a : Vector2f) : F := fsqrt (squaredNorm a).

(** Modelled from the spec: Eigen's [normalized()] (and its in-place form
    [normalize()]) is not part of the files at hand; the spec says that the
    direction is mutated "to unit length".  Eigen divides the vector by its
    norm and returns a vector whose squared norm is not positive as it is. *)
Definition normalized (a : Vector2f) : Vector2f :=
  let z := squaredNorm a in
  if z > of_int 0
  then mkVector2f (fdiv (x a) (fsqrt z)) (fdiv (y a) (fsqrt z))
  else a.

(** Eigen's [cast<float>()] on [Vector2i]. *)
Definition cast_float (p : Vector2i.t) : Vector2f :=
  mkVector2f (of_int (Vector2i.x p)) (of_int (Vector2i.y p)).

(** ** [Geometry::Line::normalizeDirection] *)
Definition normalizeDirection (line : Line) : Line :=
  mkLine (base line) (normalized (direction line)).

(** ** [Geometry::getCircle] *)

(** [static_cast<float>] of an [int] is [of_int]. *)
Definition getCircle (point1 point2 point3 : Vector2i.t) : Div Circle :=
  let x1 := of_int (Vector2i.x point1) in
  let y1 := of_int (Vector2i.y point1) in
  let x2 := of_int (Vector2i.x point2) in
  let y2 := of_int (Vector2i.y point2) in
  let x3 := of_int (Vector2i.x point3) in
  let y3 := of_int (Vector2i.y point3) in
  let temp := x2 * y1 - x3 * y1 - x1 * y2 + x3 * y2 + x1 * y3 - x2 * y3 in
  r <- (if temp == of_int 0 then ret (of_int 0)
        else
          q <- divide ((sqr (x1 - x2) + sqr (y1 - y2)) *
                       (sqr (x1 - x3) + sqr (y1 - y3)) *
                       (sqr (x2 - x3) + sqr (y2 - y3)))
                      (sqr temp) ;;
          ret (of_ratio 1 2 * fsqrt q)) ;;
  cx <- (if temp == of_int 0 then ret (of_int 0)
         else divide (sqr x3 * (y1 - y2) +
                      (sqr x1 + (y1 - y2) * (y1 - y3)) * (y2 - y3) +
                      sqr x2 * (- y1 + y3))
                     (- of_int 2 * temp)) ;;
  cy <- (if temp == of_int 0 then ret (of_int 0)
         else divide (sqr x1 * (x2 - x3) +
                      sqr x2 * x3 +
                      x3 * (- sqr y1 + sqr y2) -
                      x2 * (sqr x3 - sqr y1 + sqr y3) +
                      x1 * (- sqr x2 + sqr x3 - sqr y2 + sqr y3))
                     (of_int 2 * temp)) ;;
  ret (mkCircle (mkVector2f cx cy) r).

(** ** [Geometry::distance] *)
Definition distance (point1 point2 : Vector2f) : F :=
  norm (vsub point2 point1).

(** ** [Geometry::getDistanceToLineSigned] *)
Definition getDistanceToLineSigned (line : Line) (point : Vector2f) : F :=
  if (x (direction line) == of_int 0) && (y (direction line) == of_int 0)
  then distance point (base line)
  else
    let normal :=
      normalized (mkVector2f (y (direction line)) (- x (direction line))) in
    let c := dot normal (base line) in
    dot normal point - c.

(** ** [Geometry::getDistanceToLine] *)
Definition getDistanceToLine (line : Line) (point : Vector2f) : F :=
  fabs (getDistanceToLineSigned line point).

(** ** [Geometry::getDistanceToEdge] *)
Definition getDistanceToEdge (line : Line) (point : Vector2f) : Div F :=
  if (x (direction line) == of_int 0) && (y (direction line) == of_int 0)
  then ret (distance point (base line))
  else
    d <- divide (dot (vsub point (base line)) (direction line))
                (dot (direction line) (direction line)) ;;
    if d < of_int 0 then ret (distance point (base line))
    else if d > of_int 1
         then ret (distance point (vadd (base line) (direction line)))
         else ret (getDistanceToLine line point).

(** ** [Geometry::isPointInsideRectangle] on [Vector2f] *)
Definition isPointInsideRectangle
           (bottomLeftCorner topRightCorner point : Vector2f) : bool :=
  (x bottomLeftCorner <= x point) && (x point <= x topRightCorner) &&
  (y bottomLeftCorner <= y point) && (y point <= y topRightCorner).

(** ** [Geometry::isPointInsideRectangle2] *)
Definition isPointInsideRectangle2 (corner1 corner2 point : Vector2f) : bool :=
  let bottomLeft := mkVector2f (std_min (x corner1) (x corner2))
                               (std_min (y corner1) (y corner2)) in
  let topRight := mkVector2f (std_max (x corner1) (x corner2))
                             (std_max (y corner1) (y corner2)) in
  isPointInsideRectangle bottomLeft topRight point.

(** [Geometry::Rect]: two corners [a] and [b]. *)
Record Rect : Type := mkRect { a : Vector2f; b : Vector2f }.

(** ** [Geometry::isPointInsideRectangle] on [Rect] *)
Definition isPointInsideRectangle_Rect (rect : Rect) (point : Vector2f)
  : bool :=
  let bottomLeft := mkVector2f (std_min (x (a rect)) (x (b rect)))
                               (std_min (y (a rect)) (y (b rect))) in
  let topRight := mkVector2f (std_max (x (a rect)) (x (b rect)))
                             (std_max (y (a rect)) (y (b rect))) in
  isPointInsideRectangle bottomLeft topRight point.

(** ** [Geometry::isPointInsidePolygon] *)

(** The body of the loop for the edge between [V[i]] and [V[j]]. *)
Definition crossing_test (point Vi Vj : Vector2f) (oddNodes : bool)
  : Div bool :=
  if ((y Vi < y point) && (y Vj >= y point)) ||
     ((y Vj < y point) && (y Vi >= y point))
  then
    q <- divide (y point - y Vi) (y Vj - y Vi) ;;
    if x Vi + q * (x Vj - x Vi) < x point
    then ret (negb oddNodes)
    else ret oddNodes
  else ret oddNodes.

(** The [for] loop, over the values its variable [i] still has to take; [j]
    and [oddNodes] are the current values of these variables.  [None] is a
    read past the end of [V]. *)
Fixpoint crossing_loop (V : list Vector2f) (point : Vector2f) (todo : list Z)
         (j : Z) (oddNodes : bool) : Div (option bool) :=
  match todo with
  | [] => ret (Some oddNodes)
  | i :: rest =>
      match at_index V i, at_index V j with
      | Some Vi, Some Vj =>
          oddNodes' <- crossing_test point Vi Vj oddNodes ;;
          crossing_loop V point rest i oddNodes'
      | _, _ => ret None
      end
  end.

(** The values [0, 1, ..., n - 1] of a loop variable. *)
Definition indices_from_0 (n : Z) : list Z :=
  map Z.of_nat (seq 0 (Z.to_nat n)).

(** [static_cast<int>(V.size())]. *)
Definition size_as_int (V : list Vector2f) : Z :=
  Int.wrap (Z.of_nat (length V)).

Definition isPointInsidePolygon (point : Vector2f) (V : list Vector2f)
  : Div (option bool) :=
  crossing_loop V point (indices_from_0 (size_as_int V))
                (Int.sub (size_as_int V) 1) false.

(** ** [Geometry::isPointInsidePolygon] on [Vector3f] *)

(** [Vector3f] with Eigen's accessors [x()], [y()] and [z()]. *)
Record Vector3f : Type := mkVector3f { x3 : F; y3 : F; z3 : F }.

Definition at_index3 (V : list Vector3f) (i : Z) : option Vector3f :=
  if (i <? 0)%Z then None else nth_error V (Z.to_nat i).

Definition crossing_test3 (point Vi Vj : Vector3f) (oddNodes : bool)
  : Div bool :=
  if ((y3 Vi < y3 point) && (y3 Vj >= y3 point)) ||
     ((y3 Vj < y3 point) && (y3 Vi >= y3 point))
  then
    q <- divide (y3 point - y3 Vi) (y3 Vj - y3 Vi) ;;
    if x3 Vi + q * (x3 Vj - x3 Vi) < x3 point
    then ret (negb oddNodes)
    else ret oddNodes
  else ret oddNodes.

Fixpoint crossing_loop3 (V : list Vector3f) (point : Vector3f) (todo : list Z)
         (j : Z) (oddNodes : bool) : Div (option bool) :=
  match todo with
  | [] => ret (Some oddNodes)
  | i :: rest =>
      match at_index3 V i, at_index3 V j with
      | Some Vi, Some Vj =>
          oddNodes' <- crossing_test3 point Vi Vj oddNodes ;;
          crossing_loop3 V point rest i oddNodes'
      | _, _ => ret None
      end
  end.

Definition isPointInsidePolygon3 (point : Vector3f) (V : list Vector3f)
  : Div (option bool) :=
  let size := Int.wrap (Z.of_nat (length V)) in
  crossing_loop3 V point (indices_from_0 size) (Int.sub size 1) false.

(** ** [Geometry::checkIntersectionOfLines] *)
Definition checkIntersectionOfLines (l1p1 l1p2 l2p1 l2p2 : Vector2f) : bool :=
  (Int.mul (ccw l1p1 l1p2 l2p1) (ccw l1p1 l1p2 l2p2) <=? 0)%Z &&
  (Int.mul (ccw l2p1 l2p2 l1p1) (ccw l2p1 l2p2 l1p2) <=? 0)%Z.

(** ** [Geometry::clipPointInsideRectangle] on a [Vector2f] point *)
Definition clipPointInsideRectangle
           (bottomLeftCorner topRightCorner : Vector2i.t) (point : Vector2f)
  : bool * Vector2f :=
  let clipped := false in
  let '(clipped, point) :=
    if x point < of_int (Vector2i.x bottomLeftCorner)
    then (true, mkVector2f (of_int (Vector2i.x bottomLeftCorner)) (y point))
    else (clipped, point) in
  let '(clipped, point) :=
    if x point > of_int (Vector2i.x topRightCorner)
    then (true, mkVector2f (of_int (Vector2i.x topRightCorner)) (y point))
    else (clipped, point) in
  let '(clipped, point) :=
    if y point < of_int (Vector2i.y bottomLeftCorner)
    then (true, mkVector2f (x point) (of_int (Vector2i.y bottomLeftCorner)))
    else (clipped, point) in
  let '(clipped, point) :=
    if y point > of_int (Vector2i.y topRightCorner)
    then (true, mkVector2f (x point) (of_int (Vector2i.y topRightCorner)))
    else (clipped, point) in
  (clipped, point).

(** ** [Geometry::isPointLeftOfLine] *)
Definition isPointLeftOfLine (start end_ point : Vector2f) : bool :=
  ((x end_ - x start) * (y point - y start) -
   (y end_ - y start) * (x point - x start)) > of_int 0.

(** ** [Geometry::getOrthogonalProjectionOfPointOnLine] *)
Definition getOrthogonalProjectionOfPointOnLine (base dir point : Vector2f)
  : Vector2f :=
  let l := (x point - x base) * x dir + (y point - y base) * y dir in
  vadd base (vscale dir l).

(** The overload on [Line]. *)
Definition getOrthogonalProjectionOfPointOnLine_Line (line : Line)
           (point : Vector2f) : Vector2f :=
  getOrthogonalProjectionOfPointOnLine
    (base line) (normalized (direction line)) point.

(** ** [Geometry::getOrthogonalProjectionOfPointOnEdge] *)
Definition getOrthogonalProjectionOfPointOnEdge (base dir point : Vector2f)
  : Div Vector2f :=
  let projection :=
    getOrthogonalProjectionOfPointOnLine base (normalized dir) point in
  d <- divide (dot (vsub projection base) dir) (dot dir dir) ;;
  if d < of_int 0 then ret base
  else if d > of_int 1 then ret (vadd base dir)
  else ret projection.

(** The overload on [Line]. *)
Definition getOrthogonalProjectionOfPointOnEdge_Line (line : Line)
           (point : Vector2f) : Div Vector2f :=
  getOrthogonalProjectionOfPointOnEdge (base line) (direction line) point.

(** ** [Geometry::clipPointToPolygonBorder] *)

(** The [for] loop, over the values its variable [j] still has to take; [min]
    and [n] are the current values of these variables.  The distance to the
    edge is computed a second time when it becomes the new minimum.  [None]
    is a read past the end of [polygon]. *)
Fixpoint border_loop (polygon : list Vector2f) (point : Vector2f)
         (todo : list Z) (min : F) (n : Z) : Div (option (F * Z)) :=
  match todo with
  | [] => ret (Some (min, n))
  | j :: rest =>
      match at_index polygon j, at_index polygon (j + 1) with
      | Some pj, Some pj1 =>
          dist <- getDistanceToEdge (mkLine pj (vsub pj1 pj)) point ;;
          if dist < min
          then
            min' <- getDistanceToEdge (mkLine pj (vsub pj1 pj)) point ;;
            border_loop polygon point rest min' j
          else border_loop polygon point rest min n
      | _, _ => ret None
      end
  end.

(** [polygon.size()] is unsigned; on the empty vector the read of
    [polygon[0]] fails before the value of [polygon.size() - 1] matters. *)
Definition clipPointToPolygonBorder (polygon : list Vector2f)
           (point : Vector2f) : Div (option (bool * Vector2f)) :=
  let size := Z.of_nat (length polygon) in
  match at_index polygon 0, at_index polygon (size - 1) with
  | Some first, Some last =>
      min <- getDistanceToEdge (mkLine first (vsub last first)) point ;;
      found <- border_loop polygon point (indices_from_0 (size - 1))
                           min (size - 1) ;;
      match found with
      | None => ret None
      | Some (min, n) =>
          if min == of_int 0 then ret (Some (false, point))
          else
            match at_index polygon n,
                  at_index polygon
                           (if negb (n =? size - 1)%Z then n + 1 else 0)
            with
            | Some pn, Some pnext =>
                projection <-
                  getOrthogonalProjectionOfPointOnEdge pn (vsub pnext pn)
                                                       point ;;
                ret (Some (true, projection))
            | _, _ => ret None
            end
      end
  | _, _ => ret None
  end.

(** ** [Geometry::clipPointInsidePolygon] *)
Definition clipPointInsidePolygon (polygon : list Vector2f) (point : Vector2f)
  : Div (option (bool * Vector2f)) :=
  inside <- isPointInsidePolygon point polygon ;;
  match inside with
  | None => ret None
  | Some true => ret (Some (false, point))
  | Some false =>
      clipped <- clipPointToPolygonBorder polygon point ;;
      match clipped with
      | None => ret None
      | Some (_, point') => ret (Some (true, point'))
      end
  end.

(** ** [Geometry::clipPointInsideConvexPolygon] *)
Definition clipPointInsideConvexPolygon (polygon : list Vector2f)
           (point : Vector2f) : Div (option (bool * Vector2f)) :=
  match isPointInsideConvexPolygon polygon (size_as_int polygon) point with
  | None => ret None
  | Some true => ret (Some (false, point))
  | Some false =>
      clipped <- clipPointToPolygonBorder polygon point ;;
      match clipped with
      | None => ret None
      | Some (_, point') => ret (Some (true, point'))
      end
  end.

(** ** [Geometry::getIntersectionPointsOfLineAndRectangle] on [Vector2f] *)

(** The local array [Vector2f point[2]] and its two operations. *)
Definition array_get (point : Vector2f * Vector2f) (i : Z) : Vector2f :=
  if (i =? 0)%Z then fst point else snd point.

Definition array_set (point : Vector2f * Vector2f) (i : Z) (v : Vector2f)
  : Vector2f * Vector2f :=
  if (i =? 0)%Z then (v, snd point) else (fst point, v).

(** A candidate on a vertical side: [xSide] is the side, [yv] the height at
    which the line meets it. *)
Definition candidate_on_vertical_side (bottomLeft topRight : Vector2f)
           (xSide yv : F) (found : Z * (Vector2f * Vector2f))
  : Z * (Vector2f * Vector2f) :=
  let '(foundPoints, point) := found in
  if (yv >= y bottomLeft) && (yv <= y topRight)
  then (foundPoints + 1, array_set point foundPoints (mkVector2f xSide yv))%Z
  else found.

(** A candidate on a horizontal side; it is written into the array, and
    counted unless it repeats the point found before. *)
Definition candidate_on_horizontal_side (bottomLeft topRight : Vector2f)
           (xv ySide : F) (found : Z * (Vector2f * Vector2f))
  : Z * (Vector2f * Vector2f) :=
  let '(foundPoints, point) := found in
  if (xv >= x bottomLeft) && (xv <= x topRight) && (foundPoints <? 2)%Z
  then
    let point := array_set point foundPoints (mkVector2f xv ySide) in
    if (foundPoints =? 0)%Z ||
       (norm (vsub (array_get point 0) (array_get point 1)) > of_ratio 1 10)
    then ((foundPoints + 1)%Z, point)
    else (foundPoints, point)
  else found.

(** The block guarded by [line.direction.x() != 0]: the candidates on the
    left and on the right side. *)
Definition vertical_sides (bottomLeft topRight : Vector2f) (line : Line)
           (found : Z * (Vector2f * Vector2f))
  : Div (Z * (Vector2f * Vector2f)) :=
  if negb (x (direction line) == of_int 0)
  then
    q1 <- divide ((x bottomLeft - x (base line)) * y (direction line))
                 (x (direction line)) ;;
    let y1 := y (base line) + q1 in
    let found :=
      candidate_on_vertical_side bottomLeft topRight (x bottomLeft) y1
                                 found in
    q2 <- divide ((x topRight - x (base line)) * y (direction line))
                 (x (direction line)) ;;
    let y2 := y (base line) + q2 in
    ret (candidate_on_vertical_side bottomLeft topRight (x topRight) y2
                                    found)
  else ret found.

(** The block guarded by [line.direction.y() != 0]: the candidates on the
    bottom and on the top side. *)
Definition horizontal_sides (bottomLeft topRight : Vector2f) (line : Line)
           (found : Z * (Vector2f * Vector2f))
  : Div (Z * (Vector2f * Vector2f)) :=
  if negb (y (direction line) == of_int 0)
  then
    q1 <- divide ((y bottomLeft - y (base line)) * x (direction line))
                 (y (direction line)) ;;
    let x1 := x (base line) + q1 in
    let found :=
      candidate_on_horizontal_side bottomLeft topRight x1 (y bottomLeft)
                                   found in
    q2 <- divide ((y topRight - y (base line)) * x (direction line))
                 (y (direction line)) ;;
    let x2 := x (base line) + q2 in
    ret (candidate_on_horizontal_side bottomLeft topRight x2 (y topRight)
                                      found)
  else ret found.

(** The [switch] on the number of points found. *)
Definition found_result (line : Line) (point1 point2 : Vector2f)
           (found : Z * (Vector2f * Vector2f)) : bool * Vector2f * Vector2f :=
  let '(foundPoints, point) := found in
  if (foundPoints =? 1)%Z
  then (true, array_get point 0, array_get point 0)
  else if (foundPoints =? 2)%Z
  then
    if dot (vsub (array_get point 1) (array_get point 0)) (direction line)
       > of_int 0
    then (true, array_get point 0, array_get point 1)
    else (true, array_get point 1, array_get point 0)
  else (false, point1, point2).

(** The array [point] is not initialised by the source; [uninitialised] is
    what it holds at the start. *)
Definition getIntersectionPointsOfLineAndRectangle
           (bottomLeft topRight : Vector2f) (line : Line)
           (point1 point2 : Vector2f)
           (uninitialised : Vector2f * Vector2f)
  : Div (bool * Vector2f * Vector2f) :=
  found <- vertical_sides bottomLeft topRight line (0%Z, uninitialised) ;;
  found <- horizontal_sides bottomLeft topRight line found ;;
  ret (found_result line point1 point2 found).

(** ** [Geometry::getIntersectionOfLineAndConvexPolygon] *)

(** [line.base + line.direction]. *)
Definition far_end (line : Line) : Vector2f :=
  vadd (base line) (direction line).

(** The [for] loop, over the values its variable [i] still has to take.  The
    pointer [intersectedLine] is [None] when it is null, and [intersection2D]
    is what the local variable of that name holds before it is written.
    [None] as a result is a read past the end of [polygon]. *)
Fixpoint polygon_edges_loop (polygon : list Vector2f) (direction : Line)
         (intersection : Vector2f) (isCCW : bool)
         (intersectedLine : option Line) (intersection2D : Vector2f)
         (todo : list Z)
  : Div (option (bool * Vector2f * option Line)) :=
  match todo with
  | [] => ret (Some (false, intersection, intersectedLine))
  | i :: rest =>
      match at_index polygon i,
            at_index polygon (Z.rem (i + 1) (Z.of_nat (length polygon)))
      with
      | Some p1, Some p2 =>
          let dir := vsub p2 p1 in
          let polygonLine := mkLine p1 (normalized dir) in
          let isLeftP1 :=
            isPointLeftOfLine (base direction) (far_end direction) p1 in
          let isLeftP2 :=
            isPointLeftOfLine (base direction) (far_end direction) p2 in
          let hasIntersection :=
            negb (eqb isLeftP1 isLeftP2) &&
            (if isCCW then negb isLeftP1 else isLeftP1) in
          if hasIntersection
          then
            met <- getIntersectionOfLines direction polygonLine
                                          intersection2D ;;
            if fst met
            then ret (Some (true, snd met,
                            match intersectedLine with
                            | Some _ => Some polygonLine
                            | None => None
                            end))
            else polygon_edges_loop polygon direction intersection isCCW
                                    intersectedLine intersection2D rest
          else polygon_edges_loop polygon direction intersection isCCW
                                  intersectedLine intersection2D rest
      | _, _ => ret None
      end
  end.

(** The function opens with [ASSERT(polygon.size() >= 3)].  Modelled from the
    spec: the text of the macro is not available; the spec states the
    condition as a precondition of the call.  A call whose assertion fails
    ends there, without a result ([None]). *)
Definition getIntersectionOfLineAndConvexPolygon (polygon : list Vector2f)
           (direction : Line) (intersection : Vector2f) (isCCW : bool)
           (intersectedLine : option Line) (intersection2D : Vector2f)
  : Div (option (bool * Vector2f * option Line)) :=
  if (3 <=? Z.of_nat (length polygon))%Z
  then polygon_edges_loop polygon direction intersection isCCW intersectedLine
                          intersection2D
                          (indices_from_0 (Z.of_nat (length polygon)))
  else ret None.

End Geometry.

Arguments Vector2f F : clear implicits.
Arguments Vector3f F : clear implicits.
Arguments Rect F : clear implicits.
Arguments Line F : clear implicits.
Arguments Circle F : clear implicits.

(* ================================================================== *)
(** * Two readings of [float] *)

(** ** IEEE-754 binary32: 24 bits of precision, exponents up to 128 *)

Definition prec32 : Z := 24.
Definition emax32 : Z := 128.

#[export] Instance binary32 : FloatOps spec_float := {|
  fadd := SFadd prec32 emax32;
  fsub := SFsub prec32 emax32;
  fmul := SFmul prec32 emax32;
  fdiv := SFdiv prec32 emax32;
  fopp := SFopp;
  fabs := SFabs;
  fsqrt := SFsqrt prec32 emax32;
  feqb := SFeqb;
  fltb := SFltb;
  fleb := SFleb;
  of_int := fun z => binary_normalize prec32 emax32 z 0 false
|}.

(** Binary32 literals for the worked examples. *)
Definition f32 (z : Z) : spec_float := of_int z.
Definition half32 : spec_float := fdiv (f32 1) (f32 2).
Definition v32 (a b : Z) : Vector2f spec_float := mkVector2f (f32 a) (f32 b).

(** The binary32 number [2^e]. *)
Definition pow2_32 (e : Z) : spec_float := SFldexp prec32 emax32 (f32 1) e.

(** The unit square of the worked examples. *)
Definition unit_square32 : list (Vector2f spec_float) :=
  [v32 0 0; v32 1 0; v32 1 1; v32 0 1].

(** ** Real numbers: the arithmetic without rounding *)

Definition Reqb (a b : R) : bool := if Req_dec_T a b then true else false.
Definition Rltb (a b : R) : bool := if Rlt_dec a b then true else false.
Definition Rleb (a b : R) : bool := if Rle_dec a b then true else false.

#[export] Instance Rideal : FloatOps R := {|
  fadd := Rplus;
  fsub := Rminus;
  fmul := Rmult;
  fdiv := Rdiv;
  fopp := Ropp;
  fabs := Rabs;
  fsqrt := sqrt;
  feqb := Reqb;
  fltb := Rltb;
  fleb := Rleb;
  of_int := IZR
|}.

(** ** Geometric vocabulary over the reals *)

(** Signed area spanned by two vectors. *)
Definition cross (u v : Vector2f R) : R := (x u * y v - y u * x v)%R.

(** The point [base + t * direction] of a line. *)
Definition point_at (l : Line R) (t : R) : Vector2f R :=
  mkVector2f (x (base l) + t * x (direction l))%R
             (y (base l) + t * y (direction l))%R.

(** [P] lies on the infinite line [l]. *)
Definition on_line (l : Line R) (P : Vector2f R) : Prop :=
  exists t : R, P = point_at l t.

(** Squared Euclidean distance. *)
Definition dist2 (a b : Vector2f R) : R :=
  ((x a - x b) * (x a - x b) + (y a - y b) * (y a - y b))%R.

(** The quadratic [t^2 + p t + q = 0] that the line-circle routine solves:
    its coefficients and its discriminant, as the routine computes them. *)
Definition line_circle_p (line : Line R) (circle : Circle R) : R :=
  (2 * (dot (base line) (direction line) - dot (center circle) (direction line))
   / squaredNorm (direction line))%R.

Definition line_circle_q (line : Line R) (circle : Circle R) : R :=
  ((squaredNorm (vsub (base line) (center circle)) - sqr (radius circle))
   / squaredNorm (direction line))%R.

Definition line_circle_radicand (line : Line R) (circle : Circle R) : R :=
  (sqr (line_circle_p line circle / 2) - line_circle_q line circle)%R.

(** [P] lies on the circle. *)
Definition on_circle (circle : Circle R) (P : Vector2f R) : Prop :=
  dist2 P (center circle) = (radius circle * radius circle)%R.

(** The offset [a] along the centre line and the height [h] across it that the
    circle-circle routine computes from the centre distance [d]. *)
Definition circles_offset (d r0 r1 : R) : R :=
  ((r0 * r0 - r1 * r1 + d * d) / (2 * d))%R.

Definition circles_height (d r0 r1 : R) : R :=
  sqrt (r0 * r0 - circles_offset d r0 r1 * circles_offset d r0 r1).

(** [P] lies on the edge from [base l] to [base l + direction l]. *)
Definition on_edge (l : Line R) (P : Vector2f R) : Prop :=
  exists t : R, (0 <= t <= 1)%R /\ P = point_at l t.

(** ** Vocabulary for polygons *)

Section PolygonVocabulary.

Context {F : Type} {ops : FloatOps F}.

(** Every element of a path but the first, paired with its predecessor. *)
Fixpoint adjacent (path : list (Vector2f F))
  : list (Vector2f F * Vector2f F) :=
  match path with
  | [] => []
  | a :: rest =>
      match rest with
      | [] => []
      | b :: _ => (b, a) :: adjacent rest
      end
  end.

(** The vertices of a polygon, preceded by the last of them. *)
Definition closed_path (V : list (Vector2f F)) : list (Vector2f F) :=
  match V with
  | [] => []
  | v :: _ => last V v :: V
  end.

(** Whether the loop body of [isPointInsidePolygon] flips [oddNodes] for the
    edge between [Vi] and [Vj]. *)
Definition toggles (point Vi Vj : Vector2f F) : bool :=
  value (crossing_test point Vi Vj false).

(** Whether an odd number of the flags is set. *)
Definition odd_count (flags : list bool) : bool := fold_left xorb flags false.

(** The [x] and [y] of a [Vector3f], as a [Vector2f]. *)
Definition xy (v : Vector3f F) : Vector2f F := mkVector2f (x3 v) (y3 v).

End PolygonVocabulary.

(** ** Vocabulary for the points where a line meets a rectangle *)

(** [P] lies on a side of the rectangle. *)
Definition on_border (bottomLeft topRight P : Vector2f R) : Prop :=
  isPointInsideRectangle bottomLeft topRight P = true /\
  (x P = x bottomLeft \/ x P = x topRight \/
   y P = y bottomLeft \/ y P = y topRight).

(** The points counted so far are [good]. *)
Definition found_points_ok (good : Vector2f R -> Prop)
           (found : Z * (Vector2f R * Vector2f R)) : Prop :=
  0 <= fst found <= 2 /\
  (1 <= fst found -> good (fst (snd found))) /\
  (2 <= fst found -> good (snd (snd found))).

(** [P] is a point of the line on a side of the rectangle. *)
Definition meets_border (bottomLeft topRight : Vector2f R) (line : Line R)
           (P : Vector2f R) : Prop :=
  on_line line P /\ on_border bottomLeft topRight P.

(** ** Vocabulary for the border of a polygon *)

(** The edge that starts at vertex [j] and ends at the next vertex; the edge
    that starts at the last vertex ends at the first. *)
Definition polygon_edge (polygon : list (Vector2f R)) (j : nat) : Line R :=
  let origin := mkVector2f 0%R 0%R in
  let next := if (j + 1 <? length polygon)%nat then (j + 1)%nat else 0%nat in
  mkLine (nth j polygon origin)
         (vsub (nth next polygon origin) (nth j polygon origin)).

(** [P] lies on an edge of the polygon. *)
Definition on_polygon_border (polygon : list (Vector2f R)) (P : Vector2f R)
  : Prop :=
  exists j : nat,
    (j < length polygon)%nat /\ on_edge (polygon_edge polygon j) P.

(** The test the routine [getIntersectionOfLineAndConvexPolygon] applies to
    an edge: its two ends are on different sides of the line, the first one
    on the left for a clockwise polygon and not on the left for a
    counter-clockwise one. *)
Definition edge_is_crossed (direction : Line R) (isCCW : bool) (edge : Line R)
  : bool :=
  let isLeftP1 :=
    isPointLeftOfLine (base direction) (far_end direction) (base edge) in
  let isLeftP2 :=
    isPointLeftOfLine (base direction) (far_end direction) (far_end edge) in
  negb (eqb isLeftP1 isLeftP2) && (if isCCW then negb isLeftP1 else isLeftP1).

(* ================================================================== *)
(** * Facts about machine integers *)

Lemma wrap_small z : Int.in_range z -> Int.wrap z = z.
Proof.
  unfold Int.in_range, Int.min_int, Int.max_int, Int.wrap. intros Hz.
  rewrite Z.mod_small; lia.
Qed.

Lemma add_small a b : Int.in_range (a + b) -> Int.add a b = a + b.
Proof. apply wrap_small. Qed.

Lemma sub_small a b : Int.in_range (a - b) -> Int.sub a b = a - b.
Proof. apply wrap_small. Qed.

Lemma abs_small a : Int.in_range (Z.abs a) -> Int.abs a = Z.abs a.
Proof. apply wrap_small. Qed.

(* ================================================================== *)
(** * PixeledLine *)

Module PixeledLineFacts.
Import PixeledLine.

(** Values of a loop variable started at [i]. *)
Lemma loop_values_S count stepSize :
  loop_values (S count) stepSize =
  0 :: map (fun v => v + stepSize) (loop_values count stepSize).
Proof.
  unfold loop_values. simpl. f_equal.
  rewrite <- seq_shift, !map_map. apply map_ext. intros k. lia.
Qed.

Lemma loop_values_length count stepSize :
  length (loop_values count stepSize) = count.
Proof. unfold loop_values. now rewrite length_map, length_seq. Qed.

(** As long as the loop variable cannot overflow and the body divides by a
    non-zero number, the loop emits one pixel per value [i, i + stepSize, ...]
    below [numberOfPixels] and then stops. *)
Lemma loop_runs body numberOfPixels stepSize count :
  forall i pixels fuel,
    (forall v, 0 <= v < numberOfPixels -> body v <> None) ->
    1 <= stepSize -> 0 <= i ->
    numberOfPixels - 1 + stepSize <= Int.max_int ->
    numberOfPixels <= i + Z.of_nat count * stepSize ->
    (count = O \/ i + (Z.of_nat count - 1) * stepSize < numberOfPixels) ->
    (count < fuel)%nat ->
    exists emitted,
      loop fuel body numberOfPixels stepSize i pixels = Pixels (pixels ++ emitted) /\
      map Some emitted =
      map body (map (fun v => i + v) (loop_values count stepSize)).
Proof.
  induction count as [|count IH];
    intros i pixels fuel Hbody Hs Hi Hmax Hend Hlast Hfuel.
  - destruct fuel as [|fuel]; [lia|]. simpl.
    destruct (Z.ltb_spec i numberOfPixels); [lia|].
    exists []. now rewrite app_nil_r.
  - destruct fuel as [|fuel]; [lia|]. simpl loop.
    destruct Hlast as [Hlast|Hlast]; [discriminate|].
    destruct (Z.ltb_spec i numberOfPixels); [|nia].
    destruct (body i) as [pixel|] eqn:Epixel;
      [|exfalso; apply (Hbody i); [lia|exact Epixel]].
    rewrite add_small
      by (unfold Int.in_range, Int.min_int, Int.max_int in *; lia).
    destruct (IH (i + stepSize) (pixels ++ [pixel]) fuel)
      as (emitted & Hrun & Hemitted); auto; try lia.
    exists (pixel :: emitted). split.
    + rewrite Hrun, <- app_assoc. reflexivity.
    + rewrite loop_values_S. simpl. rewrite Z.add_0_r, Epixel, Hemitted.
      f_equal. rewrite !map_map. apply map_ext. intros v. f_equal. lia.
Qed.

Lemma ceil_div_bounds n d :
  1 <= d -> 1 <= n ->
  1 <= ceil_div n d /\ n <= ceil_div n d * d /\ (ceil_div n d - 1) * d < n.
Proof.
  intros Hd Hn. unfold ceil_div.
  pose proof (Z.div_mod (n + d - 1) d ltac:(lia)) as E.
  pose proof (Z.mod_pos_bound (n + d - 1) d ltac:(lia)) as B.
  assert (1 <= (n + d - 1) / d) by (apply Z.div_le_lower_bound; lia).
  nia.
Qed.

(** The loop of [calculatePixels], for a pixel count without overflow. *)
Lemma loop_from_zero body numberOfPixels stepSize fuel :
  (forall v, 0 <= v < numberOfPixels -> body v <> None) ->
  1 <= stepSize -> 1 <= numberOfPixels ->
  numberOfPixels - 1 + stepSize <= Int.max_int ->
  (Z.to_nat (ceil_div numberOfPixels stepSize) < fuel)%nat ->
  exists pixels,
    loop fuel body numberOfPixels stepSize 0 [] = Pixels pixels /\
    map Some pixels =
    map body (loop_values (Z.to_nat (ceil_div numberOfPixels stepSize)) stepSize).
Proof.
  intros Hbody Hs Hn Hmax Hfuel.
  destruct (ceil_div_bounds numberOfPixels stepSize Hs Hn) as (H1 & H2 & H3).
  destruct (loop_runs body numberOfPixels stepSize
              (Z.to_nat (ceil_div numberOfPixels stepSize)) 0 [] fuel)
    as (pixels & Hrun & Hpixels); auto; try lia.
  exists pixels. split; [exact Hrun|].
  rewrite Hpixels. f_equal. rewrite <- (map_id (loop_values _ _)) at 2.
  apply map_ext. intros v. lia.
Qed.

(** A division has a result unless the divisor is zero or the quotient
    overflows. *)
Lemma div_nonzero a b :
  b <> 0 -> a <> Int.min_int \/ b <> -1 ->
  Int.div a b = Some (Int.wrap (Z.quot a b)).
Proof.
  intros Hb Ht. unfold Int.div.
  destruct (Z.eqb_spec b 0); [contradiction|].
  destruct (Z.eqb_spec a Int.min_int), (Z.eqb_spec b (-1));
    try reflexivity.
  destruct Ht; contradiction.
Qed.

Lemma pixel_along_x_defined x1 y1 x2 y2 sign v :
  Int.sub x2 x1 <> 0 ->
  Int.mul v (Int.sub y2 y1) <> Int.min_int \/ Int.sub x2 x1 <> -1 ->
  pixel_along_x x1 y1 x2 y2 sign v <> None.
Proof. intros H Ht. unfold pixel_along_x. now rewrite div_nonzero. Qed.

Lemma pixel_along_y_defined x1 y1 x2 y2 sign v :
  Int.sub y2 y1 <> 0 ->
  Int.mul v (Int.sub x2 x1) <> Int.min_int \/ Int.sub y2 y1 <> -1 ->
  pixel_along_y x1 y1 x2 y2 sign v <> None.
Proof. intros H Ht. unfold pixel_along_y. now rewrite div_nonzero. Qed.

Lemma reserve_ok numberOfPixels stepSize k :
  1 <= stepSize -> 1 <= numberOfPixels <= Int.max_int ->
  reserve numberOfPixels stepSize k = k.
Proof.
  intros Hs Hn. unfold reserve. rewrite div_nonzero by lia.
  assert (0 <= numberOfPixels ÷ stepSize <= numberOfPixels).
  { split; [apply Z.quot_pos; lia|].
    rewrite Z.quot_div_nonneg by lia.
    apply Z.div_le_upper_bound; nia. }
  rewrite wrap_small by (unfold Int.in_range, Int.min_int, Int.max_int in *; lia).
  destruct (Z.ltb_spec (numberOfPixels ÷ stepSize) 0); [lia|reflexivity].
Qed.

(** With [stepSize = 2^30] and [numberOfPixels = 2^31 - 1] the loop variable
    wraps from [2^30 + 2^30] to [-2^31] and cycles through four values, all
    below [numberOfPixels]. *)
Lemma loop_cycles body numberOfPixels stepSize fuel :
  (forall v, body v <> None) ->
  numberOfPixels = 2 ^ 31 - 1 -> stepSize = 2 ^ 30 ->
  forall i pixels,
    i = 0 \/ i = 2 ^ 30 \/ i = - 2 ^ 31 \/ i = - 2 ^ 30 ->
    loop fuel body numberOfPixels stepSize i pixels = OutOfFuel.
Proof.
  intros Hbody Hn Hs.
  induction fuel as [|fuel IH]; intros i pixels Hi; [reflexivity|].
  simpl loop.
  assert (Hlt : (i <? numberOfPixels) = true)
    by (subst; destruct Hi as [->|[->|[->| ->]]]; reflexivity).
  rewrite Hlt.
  destruct (body i) as [pixel|] eqn:Epixel; [|now apply Hbody in Epixel].
  apply IH. subst.
  destruct Hi as [->|[->|[->| ->]]]; vm_compute; auto.
Qed.

Lemma calculatePixels_coincident fuel x1 y1 stepSize :
  calculatePixels fuel x1 y1 x1 y1 stepSize = Pixels [Vector2i.mk x1 y1].
Proof. unfold calculatePixels. now rewrite !Z.eqb_refl. Qed.

(** C8.  The line from (0,0) to (4,0) with step 1 is rasterised into exactly
    the five pixels (0,0), (1,0), (2,0), (3,0), (4,0), in this order (six loop
    tests are needed, any larger budget gives the same vector); and for
    coincident endpoints the result is the single pixel (x1,y1), whatever the
    step size. *)
Theorem calculatePixels_examples :
  (forall extra : nat,
      calculatePixels (6 + extra) 0 0 4 0 1 =
      Pixels [Vector2i.mk 0 0; Vector2i.mk 1 0; Vector2i.mk 2 0;
              Vector2i.mk 3 0; Vector2i.mk 4 0]) /\
  (forall (fuel : nat) (x1 y1 stepSize : Z),
      calculatePixels fuel x1 y1 x1 y1 stepSize = Pixels [Vector2i.mk x1 y1]).
Proof.
  split.
  - intros extra. reflexivity.
  - intros fuel x1 y1 stepSize. apply calculatePixels_coincident.
Qed.

(** Without overflow the run ends with one pixel per value of the loop
    variable. *)
Lemma calculatePixels_runs (x1 y1 x2 y2 stepSize : Z) (fuel : nat) :
  Int.in_range x1 -> Int.in_range y1 -> Int.in_range x2 -> Int.in_range y2 ->
  1 <= stepSize ->
  dominant x1 y1 x2 y2 + stepSize <= Int.max_int ->
  ~ (x1 = x2 /\ y1 = y2) ->
  (Z.to_nat (ceil_div (dominant x1 y1 x2 y2 + 1) stepSize) < fuel)%nat ->
  exists pixels,
    calculatePixels fuel x1 y1 x2 y2 stepSize = Pixels pixels /\
    map Some pixels =
    map (pixel_at x1 y1 x2 y2)
        (loop_values (Z.to_nat (ceil_div (dominant x1 y1 x2 y2 + 1) stepSize))
                     stepSize).
Proof.
  intros Hx1 Hy1 Hx2 Hy2 Hs Hdom Hne Hfuel.
  unfold calculatePixels, pixel_at, dominant in *.
  unfold Int.in_range, Int.min_int, Int.max_int in *.
  assert (Hxy : x1 <> x2 \/ y1 <> y2) by lia.
  destruct (Z.eqb_spec x1 x2) as [Ex|Ex], (Z.eqb_spec y1 y2) as [Ey|Ey];
    simpl; try (exfalso; lia).
  all: pose proof (sub_small x2 x1) as Edx; pose proof (sub_small y2 y1) as Edy.
  all: unfold Int.in_range, Int.min_int, Int.max_int in Edx, Edy.
  all: rewrite !abs_small
      by (unfold Int.in_range, Int.min_int, Int.max_int;
          rewrite ?Edx, ?Edy by lia; lia).
  all: destruct (Z.gtb_spec (Z.abs (Int.sub x2 x1)) (Z.abs (Int.sub y2 y1)))
      as [Hgt|Hle].
  all: rewrite Edx, Edy in * by lia.
  all: try (exfalso; lia).
  all: rewrite add_small
      by (unfold Int.in_range, Int.min_int, Int.max_int; lia).
  all: rewrite reserve_ok by (unfold Int.max_int; lia).
  all: first [ rewrite Z.max_l in * by lia | rewrite Z.max_r in * by lia ].
  all: apply loop_from_zero; try (unfold Int.max_int; lia).
  all: intros v Hv;
    first [ apply pixel_along_x_defined | apply pixel_along_y_defined ];
    rewrite ?Edx, ?Edy by lia; try lia.
  all: match goal with
       | |- _ \/ ?d <> -1 =>
           destruct (Z.eq_dec d (-1)) as [E1|N1]; [left|right; exact N1]
       end.
  all: unfold Int.mul; rewrite wrap_small;
    unfold Int.in_range, Int.min_int, Int.max_int; nia.
Qed.

(** C9, as amended.  For endpoints in the range of [int], [stepSize >= 1] and
    a dominant-axis length with [max(|x2-x1|,|y2-y1|) + stepSize <= INT_MAX]
    (so that neither the differences nor the loop variable overflow),
    [calculatePixels] terminates: coincident endpoints give exactly one pixel;
    otherwise the loop variable takes the values 0, stepSize, 2*stepSize, ...
    and exactly ceil((max(|x2-x1|,|y2-y1|)+1)/stepSize) pixels are emitted,
    one per value. *)
Theorem calculatePixels_terminates (x1 y1 x2 y2 stepSize : Z) :
  Int.in_range x1 -> Int.in_range y1 -> Int.in_range x2 -> Int.in_range y2 ->
  1 <= stepSize ->
  dominant x1 y1 x2 y2 + stepSize <= Int.max_int ->
  (x1 = x2 /\ y1 = y2 ->
   forall fuel, calculatePixels fuel x1 y1 x2 y2 stepSize = Pixels [Vector2i.mk x1 y1]) /\
  (~ (x1 = x2 /\ y1 = y2) ->
   forall fuel,
     (Z.to_nat (ceil_div (dominant x1 y1 x2 y2 + 1) stepSize) < fuel)%nat ->
     exists pixels,
       calculatePixels fuel x1 y1 x2 y2 stepSize = Pixels pixels /\
       map Some pixels =
       map (pixel_at x1 y1 x2 y2)
           (loop_values
              (Z.to_nat (ceil_div (dominant x1 y1 x2 y2 + 1) stepSize))
              stepSize) /\
       Z.of_nat (length pixels) = ceil_div (dominant x1 y1 x2 y2 + 1) stepSize).
Proof.
  intros Hx1 Hy1 Hx2 Hy2 Hs Hdom. split.
  - intros [-> ->] fuel. apply calculatePixels_coincident.
  - intros Hne fuel Hfuel.
    destruct (calculatePixels_runs x1 y1 x2 y2 stepSize fuel)
      as (pixels & Hrun & Hpixels); auto.
    exists pixels. split; [exact Hrun|]. split; [exact Hpixels|].
    rewrite <- (length_map Some), Hpixels, length_map, loop_values_length.
    apply Z2Nat.id.
    assert (1 <= ceil_div (dominant x1 y1 x2 y2 + 1) stepSize).
    { apply ceil_div_bounds; [lia|]. unfold dominant. lia. }
    lia.
Qed.

Lemma calculatePixels_terminates_witness :
  exists pixels,
    calculatePixels 6 0 0 4 0 1 = Pixels pixels /\
    Z.of_nat (length pixels) = 5.
Proof.
  destruct (calculatePixels_terminates 0 0 4 0 1) as [_ H];
    try (unfold Int.in_range, Int.min_int, Int.max_int; lia);
    try (vm_compute; discriminate).
  destruct (H ltac:(intros [E _]; discriminate E) 6%nat ltac:(vm_compute; lia))
    as (pixels & Hrun & _ & Hlen).
  exists pixels. split; [exact Hrun|exact Hlen].
Defined.

(** C9, as stated, fails: [stepSize >= 1] alone does not make the loop
    terminate.  From (0,0) to (2^31-2,0) with [stepSize = 2^30], all of them
    values of [int], the loop variable overflows and no number of iterations
    ends the loop. *)
Lemma calculatePixels_overflow_diverges :
  Int.in_range 0 /\ Int.in_range (2 ^ 31 - 2) /\ 1 <= 2 ^ 30 /\
  Int.in_range (2 ^ 30) /\
  forall fuel, calculatePixels fuel 0 0 (2 ^ 31 - 2) 0 (2 ^ 30) = OutOfFuel.
Proof.
  split; [|split; [|split; [|split]]];
    try (unfold Int.in_range, Int.min_int, Int.max_int; lia).
  intros fuel. unfold calculatePixels.
  change (Int.add (Int.abs (Int.sub (2 ^ 31 - 2) 0)) 1) with (2 ^ 31 - 1).
  change ((0 =? 2 ^ 31 - 2) && (0 =? 0)) with false.
  change (Int.abs (Int.sub (2 ^ 31 - 2) 0) >? Int.abs (Int.sub 0 0)) with true.
  cbv iota. unfold reserve.
  change (Int.div (2 ^ 31 - 1) (2 ^ 30)) with (Some 1).
  cbv iota. apply loop_cycles; auto.
  intros v. apply pixel_along_x_defined; [|right]; vm_compute; discriminate.
Qed.

(** Pixels at the two ends of the walk, for coordinates of image size. *)
Lemma exact_quotient (n d : Z) : d <> 0 -> Z.quot (Z.abs d * n) d = Z.sgn d * n.
Proof.
  intros Hd. symmetry. apply Z.quot_unique_exact; [exact Hd|].
  destruct (Z.abs_spec d) as [[Ha ->]|[Ha ->]],
           (Z.sgn_spec d) as [[Hs E]|[[Hs E]|[Hs E]]];
    rewrite E; lia.
Qed.

Lemma sgn_square (d : Z) : d <> 0 -> Z.sgn d * Z.sgn d = 1.
Proof. intros Hd. destruct (Z.sgn_spec d) as [[Hs E]|[[Hs E]|[Hs E]]]; lia. Qed.

Lemma abs_times_sgn (d : Z) : Z.abs d * Z.sgn d = d.
Proof.
  destruct (Z.abs_spec d) as [[Ha ->]|[Ha ->]],
           (Z.sgn_spec d) as [[Hs E]|[[Hs E]|[Hs E]]];
    rewrite E; lia.
Qed.

Lemma sgn_bounds (d : Z) : -1 <= Z.sgn d <= 1.
Proof. destruct (Z.sgn_spec d) as [[_ E]|[[_ E]|[_ E]]]; lia. Qed.

Lemma pixel_at_start (x1 y1 x2 y2 : Z) :
  Int.in_range x1 -> Int.in_range y1 ->
  Int.in_range (x2 - x1) -> Int.in_range (y2 - y1) ->
  ~ (x1 = x2 /\ y1 = y2) ->
  Z.abs (x2 - x1) <= Int.max_int -> Z.abs (y2 - y1) <= Int.max_int ->
  pixel_at x1 y1 x2 y2 0 = Some (Vector2i.mk x1 y1).
Proof.
  intros Hx1 Hy1 Hdx Hdy Hne Hax Hay. unfold pixel_at.
  rewrite !sub_small, !abs_small by
      (try assumption; unfold Int.in_range, Int.min_int, Int.max_int in *; lia).
  destruct (Z.gtb_spec (Z.abs (x2 - x1)) (Z.abs (y2 - y1)));
    [unfold pixel_along_x|unfold pixel_along_y];
    rewrite !sub_small by assumption;
    rewrite div_nonzero by (try lia; left; vm_compute; discriminate);
    unfold Int.mul, Int.add; simpl;
    change (Int.wrap 0) with 0;
    rewrite !Z.add_0_r, !wrap_small by assumption; reflexivity.
Qed.

Lemma pixel_at_end (x1 y1 x2 y2 : Z) :
  Z.abs x1 <= 2 ^ 14 -> Z.abs y1 <= 2 ^ 14 ->
  Z.abs x2 <= 2 ^ 14 -> Z.abs y2 <= 2 ^ 14 ->
  ~ (x1 = x2 /\ y1 = y2) ->
  pixel_at x1 y1 x2 y2 (dominant x1 y1 x2 y2) = Some (Vector2i.mk x2 y2).
Proof.
  intros Hx1 Hy1 Hx2 Hy2 Hne. unfold pixel_at, dominant.
  assert (Hsmall : forall z, Z.abs z <= 2 ^ 30 -> Int.wrap z = z)
    by (intros z Hz; apply wrap_small;
        unfold Int.in_range, Int.min_int, Int.max_int; lia).
  unfold pixel_along_x, pixel_along_y, Int.sub, Int.abs, Int.sgn.
  rewrite !(Hsmall (x2 - x1)), !(Hsmall (y2 - y1)) by lia.
  set (dx := x2 - x1) in *. set (dy := y2 - y1) in *.
  assert (Hdx : Z.abs dx <= 2 ^ 15) by (unfold dx; lia).
  assert (Hdy : Z.abs dy <= 2 ^ 15) by (unfold dy; lia).
  rewrite !(Hsmall (Z.abs dx)), !(Hsmall (Z.abs dy)) by lia.
  destruct (Z.gtb_spec (Z.abs dx) (Z.abs dy)) as [Hgt|Hle].
  - rewrite Z.max_l by lia.
    assert (Nz : dx <> 0) by lia.
    pose proof (sgn_bounds dx) as Hsg. pose proof (sgn_square dx Nz) as Hsq.
    unfold Int.mul. rewrite (Hsmall (Z.abs dx * dy)) by nia.
    rewrite div_nonzero
      by (first [exact Nz | left; unfold Int.min_int; nia]).
    rewrite exact_quotient by exact Nz.
    rewrite (Hsmall (Z.sgn dx * dy)) by nia.
    replace (Z.sgn dx * dy * Z.sgn dx) with dy by nia.
    rewrite abs_times_sgn.
    unfold Int.add. rewrite (Hsmall dx), (Hsmall dy) by lia.
    rewrite (Hsmall (x1 + dx)), (Hsmall (y1 + dy)) by (unfold dx, dy; lia).
    f_equal. f_equal; unfold dx, dy; lia.
  - rewrite Z.max_r by lia.
    assert (Nz : dy <> 0) by (unfold dx, dy in *; lia).
    pose proof (sgn_bounds dy) as Hsg. pose proof (sgn_square dy Nz) as Hsq.
    unfold Int.mul. rewrite (Hsmall (Z.abs dy * dx)) by nia.
    rewrite div_nonzero
      by (first [exact Nz | left; unfold Int.min_int; nia]).
    rewrite exact_quotient by exact Nz.
    rewrite (Hsmall (Z.sgn dy * dx)) by nia.
    replace (Z.sgn dy * dx * Z.sgn dy) with dx by nia.
    rewrite abs_times_sgn.
    unfold Int.add. rewrite (Hsmall dx), (Hsmall dy) by lia.
    rewrite (Hsmall (x1 + dx)), (Hsmall (y1 + dy)) by (unfold dx, dy; lia).
    f_equal. f_equal; unfold dx, dy; lia.
Qed.

Lemma loop_values_nth (count k : nat) (stepSize : Z) :
  (k < count)%nat ->
  nth_error (loop_values count stepSize) k = Some (Z.of_nat k * stepSize).
Proof.
  intros Hk. unfold loop_values.
  rewrite nth_error_map, nth_error_seq.
  destruct (Nat.ltb_spec k count); [reflexivity|lia].
Qed.

Lemma emitted_nth (pixels : list Vector2i.t) (body : Z -> option Vector2i.t)
      (count k : nat) (stepSize : Z) :
  map Some pixels = map body (loop_values count stepSize) ->
  (k < count)%nat ->
  option_map Some (nth_error pixels k) = option_map body (Some (Z.of_nat k * stepSize)).
Proof.
  intros Hmap Hk.
  rewrite <- (loop_values_nth count k stepSize Hk), <- !nth_error_map.
  now rewrite Hmap.
Qed.

(** X6.  With step 1 and coordinates of image size (at most 2^14 in
    absolute value), the walk between two distinct endpoints emits
    max(|x2-x1|,|y2-y1|) + 1 pixels, starts at (x1,y1) and ends at (x2,y2). *)
Theorem calculatePixels_endpoints (x1 y1 x2 y2 : Z) (fuel : nat) :
  Z.abs x1 <= 2 ^ 14 -> Z.abs y1 <= 2 ^ 14 ->
  Z.abs x2 <= 2 ^ 14 -> Z.abs y2 <= 2 ^ 14 ->
  ~ (x1 = x2 /\ y1 = y2) ->
  (Z.to_nat (dominant x1 y1 x2 y2) + 1 < fuel)%nat ->
  exists pixels,
    calculatePixels fuel x1 y1 x2 y2 1 = Pixels pixels /\
    Z.of_nat (length pixels) = dominant x1 y1 x2 y2 + 1 /\
    nth_error pixels 0 = Some (Vector2i.mk x1 y1) /\
    nth_error pixels (Z.to_nat (dominant x1 y1 x2 y2)) = Some (Vector2i.mk x2 y2).
Proof.
  intros Hx1 Hy1 Hx2 Hy2 Hne Hfuel.
  assert (Hdom : 0 <= dominant x1 y1 x2 y2 <= 2 ^ 15) by (unfold dominant; lia).
  assert (Hcount : ceil_div (dominant x1 y1 x2 y2 + 1) 1 = dominant x1 y1 x2 y2 + 1).
  { unfold ceil_div. rewrite Z.div_1_r. lia. }
  destruct (calculatePixels_runs x1 y1 x2 y2 1 fuel)
    as (pixels & Hrun & Hpixels);
    try (unfold Int.in_range, Int.min_int, Int.max_int; lia); auto.
  rewrite Hcount in Hpixels.
  exists pixels. split; [exact Hrun|].
  assert (Hlen : length pixels = Z.to_nat (dominant x1 y1 x2 y2 + 1)).
  { rewrite <- (length_map Some), Hpixels, length_map. apply loop_values_length. }
  split; [rewrite Hlen; lia|]. split.
  - pose proof (emitted_nth pixels _ _ 0%nat 1 Hpixels ltac:(lia)) as H0.
    simpl in H0. rewrite pixel_at_start in H0;
      try (unfold Int.in_range, Int.min_int, Int.max_int; lia); auto.
    destruct pixels; simpl in *; congruence.
  - pose proof (emitted_nth pixels _ _ (Z.to_nat (dominant x1 y1 x2 y2)) 1
                  Hpixels ltac:(lia)) as Hend.
    rewrite Z2Nat.id, Z.mul_1_r in Hend by lia. simpl in Hend.
    rewrite pixel_at_end in Hend by assumption.
    destruct (nth_error pixels (Z.to_nat (dominant x1 y1 x2 y2)));
      simpl in Hend; congruence.
Qed.

Lemma calculatePixels_endpoints_witness :
  exists pixels,
    calculatePixels 20 3 4 (-5) 9 1 = Pixels pixels /\
    nth_error pixels 0 = Some (Vector2i.mk 3 4) /\
    nth_error pixels 8 = Some (Vector2i.mk (-5) 9).
Proof.
  assert (Hne : ~ (3 = -5 /\ 4 = 9)) by (intros [E _]; discriminate E).
  assert (Hfuel : (Z.to_nat (dominant 3 4 (-5) 9) + 1 < 20)%nat)
    by (vm_compute; lia).
  destruct (calculatePixels_endpoints 3 4 (-5) 9 20
              ltac:(simpl; lia) ltac:(simpl; lia) ltac:(simpl; lia)
              ltac:(simpl; lia) Hne Hfuel)
    as (pixels & Hrun & _ & Hfirst & Hlast).
  exists pixels. split; [exact Hrun|]. split; [exact Hfirst|exact Hlast].
Defined.

End PixeledLineFacts.

(* ================================================================== *)
(** * Comparisons over the reals *)

Lemma Reqb_spec a b : reflect (a = b) (Reqb a b).
Proof. unfold Reqb. destruct (Req_dec_T a b); now constructor. Qed.

Lemma Rltb_spec a b : reflect (a < b)%R (Rltb a b).
Proof. unfold Rltb. destruct (Rlt_dec a b); now constructor. Qed.

Lemma Rleb_spec a b : reflect (a <= b)%R (Rleb a b).
Proof. unfold Rleb. destruct (Rle_dec a b); now constructor. Qed.

(** Decide every comparison that occurs in the goal. *)
Ltac r_cases :=
  repeat match goal with
         | |- context [Rltb ?a ?b] => destruct (Rltb_spec a b)
         | |- context [Rleb ?a ?b] => destruct (Rleb_spec a b)
         | |- context [Reqb ?a ?b] => destruct (Reqb_spec a b)
         end.

(** Name the coordinates of the vectors, lines and circles in the context. *)
Ltac coords :=
  repeat match goal with
         | l : Line R |- _ => destruct l as [[? ?] [? ?]]
         | c : Circle R |- _ => destruct c as [[? ?] ?]
         | v : Vector2f R |- _ => destruct v as [? ?]
         end.

(* ================================================================== *)
(** * The orientation predicate *)

Section Orientation.
Local Open Scope R_scope.

Lemma ccw_left (p0 p1 p2 : Vector2f R) :
  cross (vsub p1 p0) (vsub p2 p0) > 0 -> ccw p0 p1 p2 = 1%Z.
Proof.
  coords. unfold ccw, cross. simpl. intros H. r_cases; try reflexivity; lra.
Qed.

Lemma ccw_right (p0 p1 p2 : Vector2f R) :
  cross (vsub p1 p0) (vsub p2 p0) < 0 -> ccw p0 p1 p2 = (-1)%Z.
Proof.
  coords. unfold ccw, cross. simpl. intros H. r_cases; try reflexivity; lra.
Qed.

Lemma ccw_collinear (p0 p1 p2 : Vector2f R) :
  cross (vsub p1 p0) (vsub p2 p0) = 0 ->
  ccw p0 p1 p2 =
  if Rltb (x (vsub p1 p0) * x (vsub p2 p0)) 0
     || Rltb (y (vsub p1 p0) * y (vsub p2 p0)) 0
  then (-1)%Z
  else if Rleb (squaredNorm (vsub p2 p0)) (squaredNorm (vsub p1 p0))
       then 0%Z else 1%Z.
Proof.
  destruct p0 as [x0 y0], p1 as [x1 y1], p2 as [x2 y2].
  unfold ccw, cross, squaredNorm. simpl. intros H.
  destruct (Rltb_spec ((y1 - y0) * (x2 - x0)) ((x1 - x0) * (y2 - y0))); [lra|].
  destruct (Rltb_spec ((x1 - x0) * (y2 - y0)) ((y1 - y0) * (x2 - x0))); [lra|].
  reflexivity.
Qed.

Lemma ccw_between (p0 p1 p2 : Vector2f R) (t : R) :
  0 <= t <= 1 -> p2 = point_at (mkLine p0 (vsub p1 p0)) t ->
  ccw p0 p1 p2 = 0%Z.
Proof.
  destruct p0 as [x0 y0], p1 as [x1 y1], p2 as [x2 y2].
  unfold point_at. simpl. intros Ht E. injection E as -> ->.
  unfold ccw. simpl.
  set (a := x1 - x0). set (b := y1 - y0).
  replace (x0 + t * a - x0) with (t * a) by ring.
  replace (y0 + t * b - y0) with (t * b) by ring.
  assert (Ha : 0 <= a * a) by nra.
  assert (Hb : 0 <= b * b) by nra.
  assert (Hta : 0 <= t * (a * a)) by (apply Rmult_le_pos; lra).
  assert (Htb : 0 <= t * (b * b)) by (apply Rmult_le_pos; lra).
  assert (Htt : 0 <= 1 - t * t) by nra.
  assert (Hna : 0 <= (1 - t * t) * (a * a)) by (apply Rmult_le_pos; lra).
  assert (Hnb : 0 <= (1 - t * t) * (b * b)) by (apply Rmult_le_pos; lra).
  r_cases; try reflexivity; exfalso; simpl in *; nra.
Qed.




End Orientation.

(* ================================================================== *)
(** * Facts that hold for every arithmetic *)

Section AnyArithmetic.
Context {F : Type} {ops : FloatOps F}.
Local Open Scope fl_scope.

Lemma circles_rejected (c0 c1 : Circle F) (p1 p2 : Vector2f F) :
  let dx := x (center c1) - x (center c0) in
  let dy := y (center c1) - y (center c0) in
  let d := fsqrt (dy * dy + dx * dx) in
  (d > radius c0 + radius c1) || (d < fabs (radius c0 - radius c1)) = true ->
  getIntersectionOfCircles c0 c1 p1 p2 = ret (0%Z, p1, p2).
Proof.
  cbv zeta. unfold getIntersectionOfCircles. intros H.
  apply orb_true_iff in H. destruct H as [H|H]; rewrite H; [reflexivity|].
  match goal with |- (if ?c then _ else _) = _ => destruct c end; reflexivity.
Qed.

Lemma circles_solved (c0 c1 : Circle F) (p1 p2 : Vector2f F) :
  let dx := x (center c1) - x (center c0) in
  let dy := y (center c1) - y (center c0) in
  let d := fsqrt (dy * dy + dx * dx) in
  let a := fdiv (radius c0 * radius c0 - radius c1 * radius c1 + d * d)
                (of_int 2 * d) in
  let h := fsqrt (radius c0 * radius c0 - a * a) in
  let x2 := x (center c0) + fdiv (dx * a) d in
  let y2 := y (center c0) + fdiv (dy * a) d in
  let q1 := mkVector2f (x2 + (- dy) * fdiv h d) (y2 + dx * fdiv h d) in
  let q2 := mkVector2f (x2 - (- dy) * fdiv h d) (y2 - dx * fdiv h d) in
  (d > radius c0 + radius c1) || (d < fabs (radius c0 - radius c1)) = false ->
  value (getIntersectionOfCircles c0 c1 p1 p2) =
  (if veqb q1 q2 then 1%Z else 2%Z, q1, q2).
Proof.
  cbv zeta. unfold getIntersectionOfCircles. intros H.
  apply orb_false_iff in H. destruct H as [H1 H2]. rewrite H1, H2.
  reflexivity.
Qed.

(** The two tests for parallel directions, as the code evaluates them. *)
Lemma lines_test (l1 l2 : Line F) (out : Vector2f F) :
  fst (value (getIntersectionOfLines l1 l2 out)) = false <->
  (y (direction l1) * x (direction l2)
   == x (direction l1) * y (direction l2)) = true.
Proof.
  unfold getIntersectionOfLines.
  destruct (_ == _); simpl; split; intros H; try reflexivity; discriminate H.
Qed.

Lemma rays_unfolded (ray1 ray2 : Line F) (factor : F) :
  let divisor := x (direction ray2) * y (direction ray1) -
                 x (direction ray1) * y (direction ray2) in
  let k := fdiv (y (direction ray2) * x (base ray1) -
                 y (direction ray2) * x (base ray2) -
                 x (direction ray2) * y (base ray1) +
                 x (direction ray2) * y (base ray2)) divisor in
  let l := fdiv (y (direction ray1) * x (base ray1) -
                 y (direction ray1) * x (base ray2) -
                 x (direction ray1) * y (base ray1) +
                 x (direction ray1) * y (base ray2)) divisor in
  value (getIntersectionOfRaysFactor ray1 ray2 factor) =
  if negb (divisor == of_int 0) &&
     ((k >= of_int 0) && (l >= of_int 0) && (k <= of_int 1) && (l <= of_int 1))
  then (true, k) else (false, factor).
Proof.
  cbv zeta. unfold getIntersectionOfRaysFactor.
  destruct (_ == _); [reflexivity|].
  unfold value, bind, divide. simpl.
  destruct (_ && _ && _ && _); reflexivity.
Qed.

(** Failure paths write nothing. *)
Lemma lines_failure (l1 l2 : Line F) (out : Vector2f F) :
  fst (value (getIntersectionOfLines l1 l2 out)) = false ->
  snd (value (getIntersectionOfLines l1 l2 out)) = out.
Proof.
  unfold getIntersectionOfLines.
  destruct (_ == _); [reflexivity|discriminate].
Qed.

Lemma rays_failure (r1 r2 : Line F) (factor : F) :
  fst (value (getIntersectionOfRaysFactor r1 r2 factor)) = false ->
  snd (value (getIntersectionOfRaysFactor r1 r2 factor)) = factor.
Proof.
  unfold getIntersectionOfRaysFactor.
  destruct (_ == _); [reflexivity|].
  unfold value, bind, divide. simpl.
  destruct (_ && _ && _ && _); [discriminate|reflexivity].
Qed.

Lemma circles_failure (c0 c1 : Circle F) (p1 p2 : Vector2f F) :
  fst (fst (value (getIntersectionOfCircles c0 c1 p1 p2))) = 0%Z ->
  value (getIntersectionOfCircles c0 c1 p1 p2) = (0%Z, p1, p2).
Proof.
  unfold getIntersectionOfCircles.
  destruct (_ > _); [reflexivity|].
  destruct (_ < _); [reflexivity|].
  unfold value, bind, divide. simpl.
  destruct (veqb _ _); discriminate.
Qed.

Lemma line_circle_failure (line : Line F) (circle : Circle F)
      (firstIntersection secondIntersection : Vector2f F) :
  fst (fst (value (getIntersectionOfLineAndCircle
                     line circle firstIntersection secondIntersection))) = 0%Z ->
  value (getIntersectionOfLineAndCircle
           line circle firstIntersection secondIntersection) =
  (0%Z, firstIntersection, secondIntersection).
Proof.
  unfold getIntersectionOfLineAndCircle, value, bind, divide. simpl.
  destruct (_ < _); [reflexivity|]. simpl.
  destruct (_ == _); discriminate.
Qed.

(** The line-circle routine without its division log. *)
Lemma line_circle_unfolded (line : Line F) (circle : Circle F)
      (firstIntersection secondIntersection : Vector2f F) :
  value (getIntersectionOfLineAndCircle
           line circle firstIntersection secondIntersection) =
  let divisor := squaredNorm (direction line) in
  let p := fdiv (of_int 2 * (dot (base line) (direction line) -
                             dot (center circle) (direction line))) divisor in
  let q := fdiv (squaredNorm (vsub (base line) (center circle)) -
                 sqr (radius circle)) divisor in
  let p_2 := fdiv p (of_int 2) in
  let radicand := sqr p_2 - q in
  if radicand < of_int 0
  then (0%Z, firstIntersection, secondIntersection)
  else (if radicand == of_int 0 then 1%Z else 2%Z,
        vadd (base line) (vscale (direction line) (- p_2 + fsqrt radicand)),
        vadd (base line) (vscale (direction line) (- p_2 - fsqrt radicand))).
Proof.
  cbv zeta. unfold getIntersectionOfLineAndCircle, value, bind, divide.
  destruct (_ < _); reflexivity.
Qed.

End AnyArithmetic.


(* ================================================================== *)
(** * Line-line intersection *)

Section LineLine.
Local Open Scope R_scope.

Lemma lines_parallel (l1 l2 : Line R) (out : Vector2f R) :
  cross (direction l1) (direction l2) = 0 ->
  getIntersectionOfLines l1 l2 out = ret (false, out).
Proof.
  destruct l1 as [[b1x b1y] [d1x d1y]], l2 as [[b2x b2y] [d2x d2y]].
  unfold cross, getIntersectionOfLines. simpl. intros Hc.
  destruct (Reqb_spec (d1y * d2x) (d1x * d2y)); [reflexivity|lra].
Qed.

(** For crossing lines the written point is the point of the first line at
    parameter [(b2 - b1) x d2 / (d1 x d2)]. *)
Lemma lines_crossing (l1 l2 : Line R) (out : Vector2f R) :
  cross (direction l1) (direction l2) <> 0 ->
  value (getIntersectionOfLines l1 l2 out) =
  (true,
   point_at l1 (cross (vsub (base l2) (base l1)) (direction l2) /
                cross (direction l1) (direction l2))).
Proof.
  destruct l1 as [[b1x b1y] [d1x d1y]], l2 as [[b2x b2y] [d2x d2y]].
  unfold cross, getIntersectionOfLines, point_at. simpl. intros Hc.
  destruct (Reqb_spec (d1y * d2x) (d1x * d2y)); [lra|].
  unfold value. simpl. do 2 f_equal; field; lra.
Qed.

Lemma lines_meet (l1 l2 : Line R) :
  cross (direction l1) (direction l2) <> 0 ->
  point_at l1 (cross (vsub (base l2) (base l1)) (direction l2) /
               cross (direction l1) (direction l2)) =
  point_at l2 (cross (vsub (base l2) (base l1)) (direction l1) /
               cross (direction l1) (direction l2)).
Proof.
  destruct l1 as [[b1x b1y] [d1x d1y]], l2 as [[b2x b2y] [d2x d2y]].
  unfold cross, point_at. simpl. intros Hc. f_equal; field; lra.
Qed.

(** The parameters of a common point are determined by the two lines. *)
Lemma common_point_parameters (l1 l2 : Line R) (k l : R) :
  point_at l1 k = point_at l2 l ->
  k * cross (direction l1) (direction l2) =
    cross (vsub (base l2) (base l1)) (direction l2) /\
  l * cross (direction l1) (direction l2) =
    cross (vsub (base l2) (base l1)) (direction l1).
Proof.
  destruct l1 as [[b1x b1y] [d1x d1y]], l2 as [[b2x b2y] [d2x d2y]].
  unfold cross, point_at. simpl. intros E. injection E as Ex Ey.
  assert (Hx : b2x - b1x = k * d1x - l * d2x) by lra.
  assert (Hy : b2y - b1y = k * d1y - l * d2y) by lra.
  rewrite Hx, Hy. split; ring.
Qed.

Lemma lines_unique (l1 l2 : Line R) (Q : Vector2f R) :
  cross (direction l1) (direction l2) <> 0 ->
  on_line l1 Q -> on_line l2 Q ->
  Q = point_at l1 (cross (vsub (base l2) (base l1)) (direction l2) /
                   cross (direction l1) (direction l2)).
Proof.
  intros Hc [k Hk] [l Hl]. subst Q.
  destruct (common_point_parameters l1 l2 k l Hl) as [Ek _].
  f_equal. rewrite <- Ek. field. exact Hc.
Qed.

(** C3, as amended.  In every arithmetic [getIntersectionOfLines] returns false if and
    only if the two products of its test compare equal; over exact arithmetic
    that is: if and only if the cross product of the two directions is
    exactly zero (no tolerance); otherwise
    it returns true and writes the unique common point of the two infinite
    lines.  Two lines of direction (1,0) give false whatever their base
    points, and base=(0,0),dir=(1,0) with base=(0,-1),dir=(0,1) gives true
    with intersection (0,0); both examples hold in binary32 as well. *)
Theorem getIntersectionOfLines_spec :
  (forall (F : Type) (ops : FloatOps F) (l1 l2 : Line F) (out : Vector2f F),
      fst (value (getIntersectionOfLines l1 l2 out)) = false <->
      (y (direction l1) * x (direction l2)
       == x (direction l1) * y (direction l2))%fl = true) /\
  (forall (l1 l2 : Line R) (out : Vector2f R),
      (fst (value (getIntersectionOfLines l1 l2 out)) = false <->
       cross (direction l1) (direction l2) = 0) /\
      (cross (direction l1) (direction l2) = 0 ->
       value (getIntersectionOfLines l1 l2 out) = (false, out)) /\
      (cross (direction l1) (direction l2) <> 0 ->
       exists P : Vector2f R,
         value (getIntersectionOfLines l1 l2 out) = (true, P) /\
         on_line l1 P /\ on_line l2 P /\
         forall Q : Vector2f R, on_line l1 Q -> on_line l2 Q -> Q = P)) /\
  (forall b1 b2 out : Vector2f R,
      value (getIntersectionOfLines (mkLine b1 (mkVector2f 1 0))
                                    (mkLine b2 (mkVector2f 1 0)) out) =
      (false, out)) /\
  (forall out : Vector2f R,
      value (getIntersectionOfLines
               (mkLine (mkVector2f 0 0) (mkVector2f 1 0))
               (mkLine (mkVector2f 0 (-1)) (mkVector2f 0 1)) out) =
      (true, mkVector2f 0 0)) /\
  (forall b1 b2 out : Vector2f spec_float,
      value (getIntersectionOfLines (mkLine b1 (v32 1 0))
                                    (mkLine b2 (v32 1 0)) out) =
      (false, out)) /\
  (forall out : Vector2f spec_float,
      value (getIntersectionOfLines (mkLine (v32 0 0) (v32 1 0))
                                    (mkLine (v32 0 (-1)) (v32 0 1)) out) =
      (true, v32 0 0)).
Proof.
  split; [intros F ops; apply lines_test|].
  split; [|split; [|split; [|split]]].
  - intros l1 l2 out. split; [|split].
    + split.
      * intros Hf.
        destruct (Req_dec_T (cross (direction l1) (direction l2)) 0) as [E|N];
          [exact E|].
        rewrite (lines_crossing l1 l2 out N) in Hf. discriminate Hf.
      * intros Hc. now rewrite (lines_parallel l1 l2 out Hc).
    + intros Hc. now rewrite (lines_parallel l1 l2 out Hc).
    + intros Hc. eexists. split; [apply (lines_crossing l1 l2 out Hc)|].
      split; [eexists; reflexivity|]. split.
      * eexists. apply (lines_meet l1 l2 Hc).
      * intros Q. apply lines_unique. exact Hc.
  - intros b1 b2 out. rewrite lines_parallel; [reflexivity|].
    unfold cross. simpl. lra.
  - intros out. rewrite lines_crossing by (unfold cross; simpl; lra).
    unfold point_at, cross. simpl. do 2 f_equal; field.
  - intros b1 b2 out. reflexivity.
  - intros out. vm_compute. reflexivity.
Qed.

Lemma getIntersectionOfLines_spec_witness :
  exists P : Vector2f R,
    value (getIntersectionOfLines
             (mkLine (mkVector2f 0 0) (mkVector2f 1 1))
             (mkLine (mkVector2f 2 0) (mkVector2f (-1) 1))
             (mkVector2f 7 7)) = (true, P) /\
    on_line (mkLine (mkVector2f 0 0) (mkVector2f 1 1)) P /\
    on_line (mkLine (mkVector2f 2 0) (mkVector2f (-1) 1)) P.
Proof.
  destruct (proj1 (proj2 getIntersectionOfLines_spec)
              (mkLine (mkVector2f 0 0) (mkVector2f 1 1))
              (mkLine (mkVector2f 2 0) (mkVector2f (-1) 1))
              (mkVector2f 7 7)) as (_ & _ & H).
  destruct H as (P & HP & H1 & H2 & _).
  - unfold cross. simpl. lra.
  - exists P. split; [exact HP|split; [exact H1|exact H2]].
Defined.

(** C3, as stated, fails for the [float] code.  The directions (8193,8194)
    and (8192,8193) have binary32 coordinates and cross product 1, and the
    lines from (0,0) and from (1,1) with these directions meet in
    (8193,8194); over exact arithmetic that point is returned.  In binary32
    the product 8193 * 8193 rounds to 8194 * 8192, the test for parallel
    directions succeeds and the routine returns false without writing.
    Overflow breaks the other half: the line y = 0 with direction (2^100,0)
    and the line x = 2^100 with direction (0,2^100) meet in (2^100,0); in
    binary32 the routine returns true and writes (NaN, NaN). *)
Lemma lines_binary32_misses_crossing :
  cross (mkVector2f 8193 8194) (mkVector2f 8192 8193) = 1 /\
  value (getIntersectionOfLines
           (mkLine (mkVector2f 0 0) (mkVector2f 8193 8194))
           (mkLine (mkVector2f 1 1) (mkVector2f 8192 8193))
           (mkVector2f 7 7)) = (true, mkVector2f 8193 8194) /\
  value (getIntersectionOfLines
           (mkLine (v32 0 0) (v32 8193 8194))
           (mkLine (v32 1 1) (v32 8192 8193))
           (v32 7 7)) = (false, v32 7 7) /\
  value (getIntersectionOfLines
           (mkLine (mkVector2f 0 0) (mkVector2f (IZR (2 ^ 100)) 0))
           (mkLine (mkVector2f (IZR (2 ^ 100)) (IZR (2 ^ 100)))
                   (mkVector2f 0 (IZR (2 ^ 100))))
           (mkVector2f 7 7)) = (true, mkVector2f (IZR (2 ^ 100)) 0) /\
  value (getIntersectionOfLines
           (mkLine (v32 0 0) (mkVector2f (pow2_32 100) (f32 0)))
           (mkLine (mkVector2f (pow2_32 100) (pow2_32 100))
                   (mkVector2f (f32 0) (pow2_32 100)))
           (v32 7 7)) = (true, mkVector2f S754_nan S754_nan).
Proof.
  split; [unfold cross; simpl; lra|].
  split.
  { rewrite lines_crossing by (unfold cross; simpl; lra).
    unfold point_at, cross. simpl. do 2 f_equal; field. }
  split; [vm_compute; reflexivity|].
  split; [|vm_compute; reflexivity].
  assert (He : 0 < IZR (2 ^ 100)) by (apply IZR_lt; lia).
  generalize dependent (IZR (2 ^ 100)). intros e He.
  rewrite lines_crossing by (unfold cross; simpl; nra).
  unfold point_at, cross. simpl. do 2 f_equal; field; lra.
Qed.

End LineLine.

(* ================================================================== *)
(** * Bounded ray-ray intersection *)

Section RayRay.
Local Open Scope R_scope.

Lemma rays_parallel (r1 r2 : Line R) (factor : R) :
  cross (direction r1) (direction r2) = 0 ->
  getIntersectionOfRaysFactor r1 r2 factor = ret (false, factor).
Proof.
  destruct r1 as [[b1x b1y] [d1x d1y]], r2 as [[b2x b2y] [d2x d2y]].
  unfold cross, getIntersectionOfRaysFactor. simpl. intros Hc.
  destruct (Reqb_spec (d2x * d1y - d1x * d2y) 0); [reflexivity|lra].
Qed.

(** The two factors the code computes are the parameters of the common point
    of the two carrier lines. *)
Lemma rays_crossing (r1 r2 : Line R) (factor : R) :
  cross (direction r1) (direction r2) <> 0 ->
  value (getIntersectionOfRaysFactor r1 r2 factor) =
  let k := cross (vsub (base r2) (base r1)) (direction r2) /
           cross (direction r1) (direction r2) in
  let l := cross (vsub (base r2) (base r1)) (direction r1) /
           cross (direction r1) (direction r2) in
  if Rleb 0 k && Rleb 0 l && Rleb k 1 && Rleb l 1
  then (true, k) else (false, factor).
Proof.
  destruct r1 as [[b1x b1y] [d1x d1y]], r2 as [[b2x b2y] [d2x d2y]].
  unfold cross, getIntersectionOfRaysFactor. simpl. intros Hc.
  destruct (Reqb_spec (d2x * d1y - d1x * d2y) 0); [lra|].
  replace ((d2y * b1x - d2y * b2x - d2x * b1y + d2x * b2y) /
           (d2x * d1y - d1x * d2y))
    with (((b2x - b1x) * d2y - (b2y - b1y) * d2x) / (d1x * d2y - d1y * d2x))
    by (field; lra).
  replace ((d1y * b1x - d1y * b2x - d1x * b1y + d1x * b2y) /
           (d2x * d1y - d1x * d2y))
    with (((b2x - b1x) * d1y - (b2y - b1y) * d1x) / (d1x * d2y - d1y * d2x))
    by (field; lra).
  unfold value, bind, divide, ret. simpl.
  destruct (_ && _ && _ && _); reflexivity.
Qed.

Lemma in_unit_interval (k l : R) :
  Rleb 0 k && Rleb 0 l && Rleb k 1 && Rleb l 1 = true <->
  0 <= k <= 1 /\ 0 <= l <= 1.
Proof.
  destruct (Rleb_spec 0 k), (Rleb_spec 0 l), (Rleb_spec k 1), (Rleb_spec l 1);
    simpl; split; intros H; try discriminate; try reflexivity; lra.
Qed.

(** The geometric reading of the routine over exact arithmetic. *)
Lemma rays_meaning (ray1 ray2 : Line R) (factor : R) :
  (fst (value (getIntersectionOfRaysFactor ray1 ray2 factor)) = true <->
   cross (direction ray1) (direction ray2) <> 0 /\
   exists k l : R,
     0 <= k <= 1 /\ 0 <= l <= 1 /\ point_at ray1 k = point_at ray2 l) /\
  (forall k : R,
      value (getIntersectionOfRaysFactor ray1 ray2 factor) = (true, k) ->
      0 <= k <= 1 /\
      exists l : R, 0 <= l <= 1 /\ point_at ray1 k = point_at ray2 l) /\
  (fst (value (getIntersectionOfRaysFactor ray1 ray2 factor)) <> true ->
   value (getIntersectionOfRaysFactor ray1 ray2 factor) = (false, factor)).
Proof.
  destruct (Req_dec_T (cross (direction ray1) (direction ray2)) 0) as [Hc|Hc].
  - rewrite (rays_parallel ray1 ray2 factor Hc). simpl.
    split; [|split].
    + split; [discriminate|]. intros [N _]. contradiction.
    + discriminate.
    + reflexivity.
  - rewrite (rays_crossing ray1 ray2 factor Hc). cbv zeta.
    set (k0 := cross (vsub (base ray2) (base ray1)) (direction ray2) /
               cross (direction ray1) (direction ray2)).
    set (l0 := cross (vsub (base ray2) (base ray1)) (direction ray1) /
               cross (direction ray1) (direction ray2)).
    pose proof (lines_meet ray1 ray2 Hc) as Hmeet. fold k0 l0 in Hmeet.
    pose proof (in_unit_interval k0 l0) as Hunit.
    destruct (Rleb 0 k0 && Rleb 0 l0 && Rleb k0 1 && Rleb l0 1); simpl.
    + destruct (proj1 Hunit eq_refl) as [Hk Hl].
      split; [|split].
      * split; [|reflexivity]. intros _. split; [exact Hc|].
        exists k0, l0. auto.
      * intros k E. injection E as <-. split; [exact Hk|].
        exists l0. auto.
      * intros N. now contradiction N.
    + split; [|split].
      * split; [discriminate|]. intros (_ & k & l & Hk & Hl & E).
        destruct (common_point_parameters ray1 ray2 k l E) as [Ek El].
        assert (k = k0) by (unfold k0; rewrite <- Ek; field; exact Hc).
        assert (l = l0) by (unfold l0; rewrite <- El; field; exact Hc).
        subst k l. apply Hunit. auto.
      * discriminate.
      * reflexivity.
Qed.

End RayRay.

(** C5, as amended.  In every arithmetic [getIntersectionOfRaysFactor] returns true, and
    stores k, exactly when the divisor (the cross product of the directions)
    does not compare equal to zero and both computed factors k and l pass the
    four tests against 0 and 1; in every other case it returns false and keeps
    the factor.  Over exact arithmetic that is: it returns true if and only
    if the directions are not parallel and the common point of the two
    carrier lines has both parametric factors, k along ray1 and l along ray2,
    in [0,1], and the stored factor is that k.  In binary32 the segments
    (0,0)-(2,2) and (2,0)-(0,2) cross at factor 0.5, and (0,0)-(1,0) does not
    reach the segment from (5,5) to (5,6). *)
Theorem getIntersectionOfRaysFactor_spec :
  (forall (F : Type) (ops : FloatOps F) (ray1 ray2 : Line F) (factor : F),
      let divisor := (x (direction ray2) * y (direction ray1) -
                      x (direction ray1) * y (direction ray2))%fl in
      let k := fdiv (y (direction ray2) * x (base ray1) -
                     y (direction ray2) * x (base ray2) -
                     x (direction ray2) * y (base ray1) +
                     x (direction ray2) * y (base ray2))%fl divisor in
      let l := fdiv (y (direction ray1) * x (base ray1) -
                     y (direction ray1) * x (base ray2) -
                     x (direction ray1) * y (base ray1) +
                     x (direction ray1) * y (base ray2))%fl divisor in
      value (getIntersectionOfRaysFactor ray1 ray2 factor) =
      if negb (divisor == of_int 0)%fl &&
         ((k >= of_int 0)%fl && (l >= of_int 0)%fl &&
          (k <= of_int 1)%fl && (l <= of_int 1)%fl)
      then (true, k) else (false, factor)) /\
  (forall (ray1 ray2 : Line R) (factor : R),
      (fst (value (getIntersectionOfRaysFactor ray1 ray2 factor)) = true <->
       cross (direction ray1) (direction ray2) <> 0%R /\
       exists k l : R,
         (0 <= k <= 1)%R /\ (0 <= l <= 1)%R /\
         point_at ray1 k = point_at ray2 l) /\
      (forall k : R,
          value (getIntersectionOfRaysFactor ray1 ray2 factor) = (true, k) ->
          (0 <= k <= 1)%R /\
          exists l : R, (0 <= l <= 1)%R /\ point_at ray1 k = point_at ray2 l) /\
      (fst (value (getIntersectionOfRaysFactor ray1 ray2 factor)) <> true ->
       value (getIntersectionOfRaysFactor ray1 ray2 factor) = (false, factor))) /\
  (forall factor : spec_float,
      value (getIntersectionOfRaysFactor
               (mkLine (v32 0 0) (v32 2 2)) (mkLine (v32 2 0) (v32 (-2) 2))
               factor) = (true, half32)) /\
  (forall factor : spec_float,
      value (getIntersectionOfRaysFactor
               (mkLine (v32 0 0) (v32 1 0)) (mkLine (v32 5 5) (v32 0 1))
               factor) = (false, factor)).
Proof.
  split; [intros F ops; apply rays_unfolded|].
  split; [apply rays_meaning|].
  split; intros factor; vm_compute; reflexivity.
Qed.

Lemma getIntersectionOfRaysFactor_spec_witness :
  fst (value (getIntersectionOfRaysFactor
                (mkLine (mkVector2f 0%R 0%R) (mkVector2f 2%R 2%R))
                (mkLine (mkVector2f 2%R 0%R) (mkVector2f (-2)%R 2%R)) 9%R))
  = true.
Proof.
  apply (proj1 (proj1 (proj2 getIntersectionOfRaysFactor_spec)
                  (mkLine (mkVector2f 0%R 0%R) (mkVector2f 2%R 2%R))
                  (mkLine (mkVector2f 2%R 0%R) (mkVector2f (-2)%R 2%R)) 9%R)).
  split.
  - unfold cross. simpl. lra.
  - exists (1 / 2)%R, (1 / 2)%R. unfold point_at. simpl.
    split; [lra|]. split; [lra|]. f_equal; lra.
Defined.

Section RayRayRounding.
Local Open Scope R_scope.

(** C5, as stated, fails for the [float] code.  The segment from (0,0) with
    direction (16386,16388) and the segment from (1,1) with direction
    (16384,16386) have binary32 coordinates, are not parallel (the cross
    product of the directions is 4) and cross in their common midpoint
    (8193,8194): both factors are 1/2, and over exact arithmetic the routine
    returns true with factor 1/2.  In binary32 the product 16386 * 16386
    rounds to 16384 * 16388, the divisor is computed as 0 and the routine
    returns false and keeps the factor. *)
Lemma rays_binary32_misses_crossing :
  value (getIntersectionOfRaysFactor
           (mkLine (mkVector2f 0 0) (mkVector2f 16386 16388))
           (mkLine (mkVector2f 1 1) (mkVector2f 16384 16386)) 9)
  = (true, 1 / 2) /\
  point_at (mkLine (mkVector2f 0 0) (mkVector2f 16386 16388)) (1 / 2) =
  point_at (mkLine (mkVector2f 1 1) (mkVector2f 16384 16386)) (1 / 2) /\
  value (getIntersectionOfRaysFactor
           (mkLine (v32 0 0) (v32 16386 16388))
           (mkLine (v32 1 1) (v32 16384 16386)) (f32 9))
  = (false, f32 9).
Proof.
  split; [|split; [unfold point_at; simpl; f_equal; lra|vm_compute; reflexivity]].
  rewrite rays_crossing by (unfold cross; simpl; lra).
  unfold cross. simpl.
  replace (((1 - 0) * 16386 - (1 - 0) * 16384) / (16386 * 16386 - 16388 * 16384))
    with (1 / 2) by (field).
  replace (((1 - 0) * 16388 - (1 - 0) * 16386) / (16386 * 16386 - 16388 * 16384))
    with (1 / 2) by (field).
  destruct (Rleb_spec 0 (1 / 2)); [|lra].
  destruct (Rleb_spec (1 / 2) 1); [|lra]. reflexivity.
Qed.

End RayRayRounding.

(* ================================================================== *)
(** * Output parameters on failure *)

(** C10.  For every arithmetic: when [getIntersectionOfLines] or
    [getIntersectionOfRaysFactor] returns false, and when
    [getIntersectionOfCircles] or [getIntersectionOfLineAndCircle] returns 0,
    every output parameter still holds the value it had on entry. *)
Theorem failure_leaves_outputs_unchanged :
  forall (F : Type) (ops : FloatOps F),
    (forall (l1 l2 : Line F) (out : Vector2f F),
        fst (value (getIntersectionOfLines l1 l2 out)) = false ->
        snd (value (getIntersectionOfLines l1 l2 out)) = out) /\
    (forall (r1 r2 : Line F) (factor : F),
        fst (value (getIntersectionOfRaysFactor r1 r2 factor)) = false ->
        snd (value (getIntersectionOfRaysFactor r1 r2 factor)) = factor) /\
    (forall (c0 c1 : Circle F) (p1 p2 : Vector2f F),
        fst (fst (value (getIntersectionOfCircles c0 c1 p1 p2))) = 0 ->
        value (getIntersectionOfCircles c0 c1 p1 p2) = (0, p1, p2)) /\
    (forall (line : Line F) (circle : Circle F) (p1 p2 : Vector2f F),
        fst (fst (value (getIntersectionOfLineAndCircle line circle p1 p2))) = 0 ->
        value (getIntersectionOfLineAndCircle line circle p1 p2) = (0, p1, p2)).
Proof.
  intros F ops. split; [|split; [|split]].
  - apply lines_failure.
  - apply rays_failure.
  - apply circles_failure.
  - apply line_circle_failure.
Qed.

Lemma failure_leaves_outputs_unchanged_witness :
  value (getIntersectionOfLineAndCircle
           (mkLine (v32 0 5) (v32 1 0)) (mkCircle (v32 0 0) (f32 1))
           (v32 7 7) (v32 8 8)) = (0, v32 7 7, v32 8 8) /\
  snd (value (getIntersectionOfRaysFactor
                (mkLine (v32 0 0) (v32 1 0)) (mkLine (v32 5 5) (v32 0 1))
                (f32 9))) = f32 9.
Proof.
  split.
  - apply (proj2 (proj2 (proj2
             (failure_leaves_outputs_unchanged spec_float binary32)))).
    vm_compute. reflexivity.
  - apply (proj1 (proj2
             (failure_leaves_outputs_unchanged spec_float binary32))).
    vm_compute. reflexivity.
Defined.

(* ================================================================== *)
(** * Point in convex polygon *)

Section ConvexPolygon.
Context {F : Type} {ops : FloatOps F}.

Variables (polygon : list (Vector2f F)) (point : Vector2f F).

(** The number of points the callers pass: the length of the array. *)
Local Notation "'n'" := (Z.of_nat (length polygon)).

(** Inside the array every edge test is defined. *)
Lemma edge_ccw_defined (i : nat) :
  (i < length polygon)%nat ->
  exists o : Z, edge_ccw polygon n point (Z.of_nat i) = Some o.
Proof.
  intros Hi. unfold edge_ccw, at_index.
  destruct (Z.ltb_spec (Z.of_nat i) 0); [lia|].
  assert (Hrem : 0 <= Z.rem (Z.of_nat i + 1) n < n)
    by (apply Z.rem_bound_pos; lia).
  destruct (Z.ltb_spec (Z.rem (Z.of_nat i + 1) n) 0); [lia|].
  rewrite Nat2Z.id.
  destruct (nth_error polygon i) as [a|] eqn:Ea;
    [|apply nth_error_None in Ea; lia].
  destruct (nth_error polygon (Z.to_nat (Z.rem (Z.of_nat i + 1) n)))
    as [b|] eqn:Eb; [|apply nth_error_None in Eb; lia].
  now eexists.
Qed.

(** The loop runs to its end when every remaining edge agrees with the first
    orientation. *)
Lemma convex_loop_agree (first : Z) (len : nat) :
  forall start : nat,
    first <> 0 ->
    (forall k, (start <= k < start + len)%nat ->
               edge_ccw polygon n point (Z.of_nat k) = Some first) ->
    convex_loop polygon n point first
                (map Z.of_nat (seq start len)) = Some true.
Proof.
  induction len as [|len IH]; intros start Hfirst Hall; [reflexivity|].
  simpl. rewrite (Hall start) by lia.
  destruct (Z.eqb_spec first 0); [contradiction|].
  rewrite Z.eqb_refl. simpl. apply IH; [exact Hfirst|].
  intros k Hk. apply Hall. lia.
Qed.

(** The loop stops at the first edge whose orientation is 0 or differs from
    the first one; the verdict is "inside" exactly in the former case. *)
Lemma convex_loop_stops (first o : Z) (len : nat) :
  forall start i : nat,
    first <> 0 ->
    (start <= i < start + len)%nat ->
    edge_ccw polygon n point (Z.of_nat i) = Some o ->
    o = 0 \/ o <> first ->
    (forall k, (start <= k < i)%nat ->
               edge_ccw polygon n point (Z.of_nat k) = Some first) ->
    convex_loop polygon n point first
                (map Z.of_nat (seq start len)) = Some (o =? 0).
Proof.
  induction len as [|len IH]; intros start i Hfirst Hi Ho Hstop Hbefore; [lia|].
  simpl. destruct (Nat.eq_dec i start) as [->|Hne].
  - rewrite Ho. destruct (Z.eqb_spec o 0); [reflexivity|].
    destruct (Z.eqb_spec o first); [|reflexivity].
    destruct Hstop; contradiction.
  - rewrite (Hbefore start) by lia.
    destruct (Z.eqb_spec first 0); [contradiction|].
    rewrite Z.eqb_refl. simpl.
    apply (IH (S start) i); auto; try lia.
    intros k Hk. apply Hbefore. lia.
Qed.

Hypothesis enough_points : (2 <= length polygon)%nat.

(** The test before the loop is the edge test of edge 0. *)
Lemma first_edge (o : Z) :
  edge_ccw polygon n point 0 = Some o ->
  isPointInsideConvexPolygon polygon n point =
  if o =? 0 then Some true
  else convex_loop polygon n point o
                   (map Z.of_nat (seq 1 (length polygon - 1))).
Proof.
  unfold edge_ccw, isPointInsideConvexPolygon, indices_from_1.
  rewrite Z.rem_small by lia. simpl (0 + 1).
  rewrite Nat2Z.id.
  destruct (at_index polygon 0) as [v0|]; [|discriminate].
  destruct (at_index polygon 1) as [v1|]; [|discriminate].
  intros E. injection E as <-. reflexivity.
Qed.

End ConvexPolygon.

(** C6.  For a polygon of at least 3 vertices, with o(i) the result of
    [ccw(polygon[i], polygon[(i+1) % n], point)]: the function returns true as
    soon as an edge test yields 0 (all tests before it agreeing with the first
    one); it returns false as soon as a test yields a non-zero result that
    differs from the first one (all tests before it being non-zero and equal
    to the first); and it returns true when all n tests, the closing edge
    included, agree.  On the unit square, in binary32, (0.5,0.5) is inside,
    (2,2) is outside and the edge point (0,0.5) is inside. *)
Theorem isPointInsideConvexPolygon_spec :
  (forall (F : Type) (ops : FloatOps F)
          (polygon : list (Vector2f F)) (point : Vector2f F),
      (3 <= length polygon)%nat ->
      let n := Z.of_nat (length polygon) in
      exists o : nat -> Z,
        (forall i, (i < length polygon)%nat ->
                   edge_ccw polygon n point (Z.of_nat i) = Some (o i)) /\
        (forall i, (i < length polygon)%nat ->
                   o i = 0 ->
                   (forall j, (j < i)%nat -> o j = o O) ->
                   isPointInsideConvexPolygon polygon n point = Some true) /\
        (forall i, (i < length polygon)%nat ->
                   o i <> 0 -> o i <> o O ->
                   (forall j, (j < i)%nat -> o j <> 0 /\ o j = o O) ->
                   isPointInsideConvexPolygon polygon n point = Some false) /\
        ((forall i, (i < length polygon)%nat -> o i = o O) ->
         isPointInsideConvexPolygon polygon n point = Some true)) /\
  isPointInsideConvexPolygon unit_square32 4 (mkVector2f half32 half32)
  = Some true /\
  isPointInsideConvexPolygon unit_square32 4 (v32 2 2) = Some false /\
  isPointInsideConvexPolygon unit_square32 4 (mkVector2f (f32 0) half32)
  = Some true.
Proof.
  split; [|repeat split; vm_compute; reflexivity].
  intros F ops polygon point Hlen n.
  set (o := fun i : nat =>
              match edge_ccw polygon n point (Z.of_nat i) with
              | Some v => v
              | None => 0
              end).
  assert (Hdef : forall i, (i < length polygon)%nat ->
                           edge_ccw polygon n point (Z.of_nat i) = Some (o i)).
  { intros i Hi. unfold o.
    destruct (edge_ccw_defined polygon point i Hi) as [v Hv].
    fold n in Hv. now rewrite Hv. }
  assert (Hfirst : isPointInsideConvexPolygon polygon n point =
                   if o O =? 0 then Some true
                   else convex_loop polygon n point (o O)
                          (map Z.of_nat (seq 1 (length polygon - 1)))).
  { apply first_edge; [lia|]. apply (Hdef O). lia. }
  exists o. split; [exact Hdef|]. split; [|split].
  - intros i Hi Hzero Hbefore. rewrite Hfirst.
    destruct (Z.eqb_spec (o O) 0) as [E0|N0]; [reflexivity|].
    assert (i <> O) by (intros ->; contradiction).
    rewrite (convex_loop_stops polygon point (o O) (o i) _ 1%nat i);
      auto; try lia.
    + now rewrite Hzero.
    + intros k Hk. rewrite Hdef by lia. f_equal. apply Hbefore. lia.
  - intros i Hi Hnz Hdiff Hbefore. rewrite Hfirst.
    assert (i <> O) by (intros ->; contradiction).
    destruct (Hbefore O) as [N0 _]; [lia|].
    destruct (Z.eqb_spec (o O) 0) as [E0|_]; [contradiction|].
    rewrite (convex_loop_stops polygon point (o O) (o i) _ 1%nat i);
      auto; try lia.
    + destruct (Z.eqb_spec (o i) 0); [contradiction|reflexivity].
    + intros k Hk. rewrite Hdef by lia. f_equal. apply Hbefore. lia.
  - intros Hall. rewrite Hfirst.
    destruct (Z.eqb_spec (o O) 0) as [E0|N0]; [reflexivity|].
    apply convex_loop_agree; [exact N0|].
    intros k Hk. rewrite Hdef by lia. f_equal. apply Hall. lia.
Qed.

Lemma isPointInsideConvexPolygon_spec_witness :
  isPointInsideConvexPolygon unit_square32 4 (v32 5 0) = Some false.
Proof.
  destruct (proj1 isPointInsideConvexPolygon_spec spec_float binary32
              unit_square32 (v32 5 0))
    as (o & Hdef & _ & Hfalse & _).
  - simpl. lia.
  - assert (H0 : o 0%nat = 1).
    { pose proof (Hdef 0%nat ltac:(simpl; lia)) as E.
      vm_compute in E. now injection E. }
    assert (H1 : o 1%nat = -1).
    { pose proof (Hdef 1%nat ltac:(simpl; lia)) as E.
      vm_compute in E. now injection E. }
    apply (Hfalse 1%nat).
    + simpl. lia.
    + rewrite H1. discriminate.
    + rewrite H1, H0. discriminate.
    + intros j Hj. assert (j = 0%nat) as -> by lia.
      rewrite H0. split; [discriminate|reflexivity].
Defined.

(* ================================================================== *)
(** * Circle against axis-aligned rectangle *)

Section CircleRectangle.
Local Open Scope R_scope.

Lemma Rltb_iff a b : Rltb a b = true <-> a < b.
Proof. destruct (Rltb_spec a b); split; auto; discriminate. Qed.

(** The two branches that order the corners compute minimum and maximum. *)
Lemma smaller_is_Rmin a b : (if Rltb a b then a else b) = Rmin a b.
Proof.
  unfold Rmin. destruct (Rltb_spec a b), (Rle_dec a b); lra.
Qed.

Lemma larger_is_Rmax a b : (if Rltb a b then b else a) = Rmax a b.
Proof.
  unfold Rmax. destruct (Rltb_spec a b), (Rle_dec a b); lra.
Qed.

(** The function over the reals, with the normalised corners named. *)
Lemma circle_rectangle_normalised (cp : Vector2f R) (r : R) (p1 p2 : Vector2f R) :
  let xMin := Rmin (x p1) (x p2) in
  let xMax := Rmax (x p1) (x p2) in
  let yMin := Rmin (y p1) (y p2) in
  let yMax := Rmax (y p1) (y p2) in
  circleIntersectsAxisAlignedRectangle cp r p1 p2 =
  if Rltb (x cp) (xMin - r) || Rltb (xMax + r) (x cp) ||
     Rltb (y cp) (yMin - r) || Rltb (yMax + r) (y cp)
  then false
  else if (Rltb (x cp) xMin && Rltb (y cp) yMin &&
           Rltb (r * r) (dist2 cp (mkVector2f xMin yMin))) ||
          (Rltb (x cp) xMin && Rltb yMax (y cp) &&
           Rltb (r * r) (dist2 cp (mkVector2f xMin yMax))) ||
          (Rltb xMax (x cp) && Rltb (y cp) yMin &&
           Rltb (r * r) (dist2 cp (mkVector2f xMax yMin))) ||
          (Rltb xMax (x cp) && Rltb yMax (y cp) &&
           Rltb (r * r) (dist2 cp (mkVector2f xMax yMax)))
       then false else true.
Proof.
  cbv zeta. unfold circleIntersectsAxisAlignedRectangle.
  unfold squaredNorm, vsub, sqr, dist2. simpl.
  now rewrite !smaller_is_Rmin, !larger_is_Rmax.
Qed.




End CircleRectangle.

(* ================================================================== *)
(** * Divisions and their divisors *)

Section Divisors.
Local Open Scope R_scope.

(** X1.  Over exact arithmetic, every division that
    [getIntersectionOfLines] executes has a non-zero divisor: the test for
    parallel directions comes first. *)
Lemma lines_divisors_nonzero (l1 l2 : Line R) (out : Vector2f R) :
  Forall (fun d => d <> 0) (divisors (getIntersectionOfLines l1 l2 out)).
Proof.
  destruct l1 as [[b1x b1y] [d1x d1y]], l2 as [[b2x b2y] [d2x d2y]].
  unfold getIntersectionOfLines. simpl.
  destruct (Reqb_spec (d1y * d2x) (d1x * d2y)) as [E|N]; simpl.
  - constructor.
  - repeat constructor; lra.
Qed.

(** X2.  Over exact arithmetic, every division that
    [getIntersectionOfRaysFactor] executes has a non-zero divisor: the test
    [divisor == 0] comes first. *)
Lemma rays_divisors_nonzero (r1 r2 : Line R) (factor : R) :
  Forall (fun d => d <> 0) (divisors (getIntersectionOfRaysFactor r1 r2 factor)).
Proof.
  destruct r1 as [[b1x b1y] [d1x d1y]], r2 as [[b2x b2y] [d2x d2y]].
  unfold getIntersectionOfRaysFactor. simpl.
  destruct (Reqb_spec (d2x * d1y - d1x * d2y) 0) as [E|N]; simpl.
  - constructor.
  - unfold divisors, bind, divide. simpl.
    destruct (_ && _ && _ && _); simpl; repeat constructor; exact N.
Qed.

(** Two circles with the same centre and the same radius pass both
    solvability tests and divide by their centre distance, which is zero. *)
Lemma concentric_circles_divide_by_zero (c : Vector2f R) (r : R)
      (p1 p2 : Vector2f R) :
  0 <= r ->
  In 0 (divisors (getIntersectionOfCircles (mkCircle c r) (mkCircle c r) p1 p2)).
Proof.
  destruct c as [cx cy]. intros Hr.
  unfold getIntersectionOfCircles. simpl.
  replace ((cy - cy) * (cy - cy) + (cx - cx) * (cx - cx)) with 0 by ring.
  rewrite sqrt_0.
  destruct (Rltb_spec (r + r) 0); [lra|].
  replace (r - r) with 0 by ring. rewrite Rabs_R0.
  destruct (Rltb_spec 0 0); [lra|].
  unfold divisors, bind, divide. simpl. right. now left.
Qed.

(** A line whose direction is the zero vector makes the line-circle routine
    divide by the squared norm of that direction, which is zero. *)
Lemma zero_direction_divides_by_zero (b : Vector2f R) (circle : Circle R)
      (p1 p2 : Vector2f R) :
  In 0 (divisors (getIntersectionOfLineAndCircle
                    (mkLine b (mkVector2f 0 0)) circle p1 p2)).
Proof.
  unfold getIntersectionOfLineAndCircle, divisors, bind, divide, squaredNorm.
  simpl. replace (0 * 0 + 0 * 0) with 0 by ring.
  destruct (Rltb _ _); simpl; now left.
Qed.

End Divisors.

(** C1, at the inputs where the code departs from it.  In binary32, two unit
    circles centred at the origin make [getIntersectionOfCircles] execute five
    divisions whose divisor is zero and report 2 intersections made of NaN
    coordinates; a line with direction (0,0) makes
    [getIntersectionOfLineAndCircle] divide twice by zero and report 2
    intersections made of NaN coordinates.  Over exact arithmetic the zero
    divisor is reached for every pair of equal circles of radius r >= 0 and
    for every line of zero direction. *)
Theorem unguarded_divisions_reach_zero :
  (forall p1 p2 : Vector2f spec_float,
      getIntersectionOfCircles (mkCircle (v32 0 0) (f32 1))
                               (mkCircle (v32 0 0) (f32 1)) p1 p2 =
      ((2, mkVector2f S754_nan S754_nan, mkVector2f S754_nan S754_nan),
       [f32 0; f32 0; f32 0; f32 0; f32 0])) /\
  (forall p1 p2 : Vector2f spec_float,
      getIntersectionOfLineAndCircle (mkLine (v32 0 0) (v32 0 0))
                                     (mkCircle (v32 0 0) (f32 1)) p1 p2 =
      ((2, mkVector2f S754_nan S754_nan, mkVector2f S754_nan S754_nan),
       [f32 0; f32 0; f32 2])) /\
  (forall (c : Vector2f R) (p1 p2 : Vector2f R),
      In 0%R (divisors (getIntersectionOfCircles
                          (mkCircle c 1%R) (mkCircle c 1%R) p1 p2))) /\
  (forall (b : Vector2f R) (circle : Circle R) (p1 p2 : Vector2f R),
      In 0%R (divisors (getIntersectionOfLineAndCircle
                          (mkLine b (mkVector2f 0%R 0%R)) circle p1 p2))).
Proof.
  split; [|split; [|split]].
  - intros p1 p2. vm_compute. reflexivity.
  - intros p1 p2. vm_compute. reflexivity.
  - intros c p1 p2. apply concentric_circles_divide_by_zero. lra.
  - apply zero_direction_divides_by_zero.
Qed.

(* ================================================================== *)
(** * Line-circle intersection *)

Section LineCircle.
Local Open Scope R_scope.

Lemma point_at_alt (line : Line R) (t : R) :
  vadd (base line) (vscale (direction line) t) = point_at line t.
Proof. unfold vadd, vscale, point_at. simpl. f_equal; ring. Qed.

(** The routine over the reals, in terms of the quadratic it solves. *)
Lemma line_circle_value (line : Line R) (circle : Circle R)
      (firstIntersection secondIntersection : Vector2f R) :
  value (getIntersectionOfLineAndCircle
           line circle firstIntersection secondIntersection) =
  if Rltb (line_circle_radicand line circle) 0
  then (0%Z, firstIntersection, secondIntersection)
  else (if Reqb (line_circle_radicand line circle) 0 then 1%Z else 2%Z,
        point_at line (- (line_circle_p line circle / 2) +
                       sqrt (line_circle_radicand line circle)),
        point_at line (- (line_circle_p line circle / 2) -
                       sqrt (line_circle_radicand line circle))).
Proof.
  rewrite line_circle_unfolded, <- !point_at_alt. reflexivity.
Qed.

(** A point of the line lies on the circle exactly when its parameter solves
    the quadratic. *)
Lemma on_circle_quadratic (line : Line R) (circle : Circle R) (t : R) :
  squaredNorm (direction line) <> 0 ->
  dist2 (point_at line t) (center circle) - radius circle * radius circle =
  squaredNorm (direction line) *
  (t * t + line_circle_p line circle * t + line_circle_q line circle).
Proof.
  destruct line as [[bx by_] [vx vy]], circle as [[cx cy] r].
  unfold line_circle_p, line_circle_q, dist2, point_at, squaredNorm, dot, vsub, sqr.
  simpl. intros Hn. field. exact Hn.
Qed.

Lemma quadratic_completed (p q t : R) :
  t * t + p * t + q = (t + p / 2) * (t + p / 2) - (p / 2 * (p / 2) - q).
Proof. field. Qed.

Lemma zero_direction_iff (v : Vector2f R) :
  squaredNorm v = 0 <-> v = mkVector2f 0 0.
Proof.
  destruct v as [vx vy]. unfold squaredNorm. simpl. split.
  - intros H. assert (vx = 0) by nra. assert (vy = 0) by nra. now subst.
  - intros E. injection E as -> ->. ring.
Qed.

Lemma radicand_completed (line : Line R) (circle : Circle R) (t : R) :
  t * t + line_circle_p line circle * t + line_circle_q line circle =
  (t + line_circle_p line circle / 2) * (t + line_circle_p line circle / 2) -
  line_circle_radicand line circle.
Proof. unfold line_circle_radicand, sqr. simpl. apply quadratic_completed. Qed.

(** The parameters [-p/2 + s] and [-p/2 - s] with [s * s] the discriminant
    are the solutions of the quadratic, and the only ones. *)
Lemma on_circle_iff (line : Line R) (circle : Circle R) (t s : R) :
  squaredNorm (direction line) <> 0 ->
  s * s = line_circle_radicand line circle ->
  on_circle circle (point_at line t) <->
  t = - (line_circle_p line circle / 2) + s \/
  t = - (line_circle_p line circle / 2) - s.
Proof.
  intros Hn Hs. unfold on_circle.
  pose proof (on_circle_quadratic line circle t Hn) as Hq.
  rewrite radicand_completed, <- Hs in Hq.
  set (p2 := line_circle_p line circle / 2) in *.
  set (n2 := squaredNorm (direction line)) in *.
  set (D := dist2 (point_at line t) (center circle)) in *.
  set (rr := radius circle * radius circle) in *.
  assert (Hfac : D - rr = n2 * ((t + p2 - s) * (t + p2 + s)))
    by (rewrite Hq; ring).
  split.
  - intros HD. assert (Hz : n2 * ((t + p2 - s) * (t + p2 + s)) = 0) by lra.
    apply Rmult_integral in Hz. destruct Hz as [Hz|Hz]; [contradiction|].
    apply Rmult_integral in Hz. destruct Hz; [left|right]; lra.
  - intros [E|E]; subst t.
    + replace (- p2 + s + p2 - s) with 0 in Hfac by ring.
      rewrite Rmult_0_l, Rmult_0_r in Hfac. lra.
    + replace (- p2 - s + p2 + s) with 0 in Hfac by ring.
      rewrite Rmult_0_r, Rmult_0_r in Hfac. lra.
Qed.

Lemma squaredNorm_pos (v : Vector2f R) : squaredNorm v <> 0 -> 0 < squaredNorm v.
Proof.
  destruct v as [vx vy]. unfold squaredNorm. simpl. intros H.
  assert (0 <= vx * vx) by nra. assert (0 <= vy * vy) by nra. lra.
Qed.

Lemma no_point_on_circle (line : Line R) (circle : Circle R) (t : R) :
  squaredNorm (direction line) <> 0 ->
  line_circle_radicand line circle < 0 ->
  ~ on_circle circle (point_at line t).
Proof.
  intros Hn Hrad. unfold on_circle. intros HD.
  pose proof (on_circle_quadratic line circle t Hn) as Hq.
  rewrite radicand_completed in Hq.
  pose proof (squaredNorm_pos _ Hn) as Hpos.
  set (p2 := line_circle_p line circle / 2) in *.
  assert (0 <= (t + p2) * (t + p2)) by (generalize (t + p2); intros z; nra).
  assert (0 < (t + p2) * (t + p2) - line_circle_radicand line circle) by lra.
  assert (0 < squaredNorm (direction line) *
              ((t + p2) * (t + p2) - line_circle_radicand line circle))
    by (apply Rmult_lt_0_compat; assumption).
  lra.
Qed.

Lemma point_at_injective (line : Line R) (t u : R) :
  squaredNorm (direction line) <> 0 ->
  point_at line t = point_at line u -> t = u.
Proof.
  destruct line as [[bx by_] [vx vy]]. unfold point_at, squaredNorm. simpl.
  intros Hn E. injection E as Ex Ey.
  assert (Hx : (t - u) * vx = 0) by lra.
  assert (Hy : (t - u) * vy = 0) by lra.
  destruct (Req_dec_T vx 0) as [Zx|Nx].
  - assert (vy <> 0) by (intros Zy; apply Hn; subst; ring).
    apply Rmult_integral in Hy. destruct Hy; [lra|contradiction].
  - apply Rmult_integral in Hx. destruct Hx; [lra|contradiction].
Qed.

(** X3.  Line-circle intersection over exact arithmetic, for a line whose
    direction is not the zero vector: a negative discriminant gives 0, writes
    nothing, and indeed no point of the line lies on the circle; otherwise
    the two written points lie on the line and on the circle, every common
    point of line and circle is one of them, they coincide exactly when the
    discriminant is zero, and the count is 1 in that case and 2 otherwise.
    In binary32 the line base=(0,0),dir=(1,0) meets the circle of radius 5
    about the origin in (5,0) and (-5,0). *)
Theorem getIntersectionOfLineAndCircle_spec :
  (forall (line : Line R) (circle : Circle R) (p1 p2 : Vector2f R),
      direction line <> mkVector2f 0 0 ->
      (line_circle_radicand line circle < 0 ->
       value (getIntersectionOfLineAndCircle line circle p1 p2) = (0%Z, p1, p2) /\
       forall Q, on_line line Q -> ~ on_circle circle Q) /\
      (0 <= line_circle_radicand line circle ->
       exists P1 P2 : Vector2f R,
         value (getIntersectionOfLineAndCircle line circle p1 p2) =
         (if Reqb (line_circle_radicand line circle) 0 then 1%Z else 2%Z, P1, P2) /\
         on_line line P1 /\ on_circle circle P1 /\
         on_line line P2 /\ on_circle circle P2 /\
         (P1 = P2 <-> line_circle_radicand line circle = 0) /\
         forall Q, on_line line Q -> on_circle circle Q -> Q = P1 \/ Q = P2)) /\
  (forall p1 p2 : Vector2f spec_float,
      value (getIntersectionOfLineAndCircle
               (mkLine (v32 0 0) (v32 1 0)) (mkCircle (v32 0 0) (f32 5)) p1 p2) =
      (2%Z, v32 5 0, v32 (-5) 0)).
Proof.
  split; [|intros p1 p2; vm_compute; reflexivity].
  intros line circle p1 p2 Hdir.
  assert (Hn : squaredNorm (direction line) <> 0)
    by (intros Hz; apply Hdir; now apply zero_direction_iff).
  rewrite line_circle_value. split.
  - intros Hneg. destruct (Rltb_spec (line_circle_radicand line circle) 0);
      [|contradiction].
    split; [reflexivity|]. intros Q [t ->]. now apply no_point_on_circle.
  - intros Hpos. destruct (Rltb_spec (line_circle_radicand line circle) 0);
      [lra|].
    set (rad := line_circle_radicand line circle) in *.
    assert (Hs : sqrt rad * sqrt rad = rad) by (apply sqrt_sqrt; exact Hpos).
    pose proof (fun t => on_circle_iff line circle t (sqrt rad) Hn Hs) as Hiff.
    fold rad in Hiff.
    eexists. eexists. split; [reflexivity|].
    split; [eexists; reflexivity|]. split; [apply Hiff; now left|].
    split; [eexists; reflexivity|]. split; [apply Hiff; now right|].
    split.
    + split.
      * intros E. apply point_at_injective in E; [|exact Hn].
        assert (Hz : sqrt rad = 0) by lra.
        rewrite <- Hs, Hz. ring.
      * intros E. rewrite E, sqrt_0. f_equal. ring.
    + intros Q [t ->] HQ. apply Hiff in HQ.
      destruct HQ as [-> | ->]; [now left|now right].
Qed.

Lemma getIntersectionOfLineAndCircle_spec_witness :
  exists P1 P2 : Vector2f R,
    value (getIntersectionOfLineAndCircle
             (mkLine (mkVector2f 0 0) (mkVector2f 1 0))
             (mkCircle (mkVector2f 0 0) 5)
             (mkVector2f 0 0) (mkVector2f 0 0)) = (2%Z, P1, P2) /\
    on_circle (mkCircle (mkVector2f 0 0) 5) P1 /\
    on_circle (mkCircle (mkVector2f 0 0) 5) P2.
Proof.
  assert (Hrad : line_circle_radicand
                   (mkLine (mkVector2f 0 0) (mkVector2f 1 0))
                   (mkCircle (mkVector2f 0 0) 5) = 25).
  { unfold line_circle_radicand, line_circle_p, line_circle_q, sqr,
      squaredNorm, dot, vsub. simpl. field. }
  destruct (proj1 getIntersectionOfLineAndCircle_spec
              (mkLine (mkVector2f 0 0) (mkVector2f 1 0))
              (mkCircle (mkVector2f 0 0) 5)
              (mkVector2f 0 0) (mkVector2f 0 0)) as [_ H].
  - simpl. intros E. injection E as E. lra.
  - destruct H as (P1 & P2 & Hv & _ & H1 & _ & H2 & _).
    + rewrite Hrad. lra.
    + exists P1, P2. rewrite Hrad in Hv.
      destruct (Reqb_spec 25 0) as [E|_]; [lra|].
      split; [exact Hv|split; [exact H1|exact H2]].
Defined.

End LineCircle.

(* ================================================================== *)
(** * Circle-circle intersection over the reals *)

Section CircleAlgebra.
Local Open Scope R_scope.

Variables dx dy D r0 r1 : R.
Hypothesis HD : D * D = dy * dy + dx * dx.
Hypothesis HDpos : 0 < D.
Hypothesis Hlow : Rabs (r0 - r1) <= D.
Hypothesis Hhigh : D <= r0 + r1.

Lemma offset_equation :
  2 * D * circles_offset D r0 r1 = r0 * r0 - r1 * r1 + D * D.
Proof. unfold circles_offset. field. lra. Qed.

Lemma radii_difference : - D <= r0 - r1 <= D.
Proof.
  unfold Rabs in Hlow. destruct (Rcase_abs (r0 - r1)); lra.
Qed.

Lemma offset_bounds : - r0 <= circles_offset D r0 r1 <= r0.
Proof.
  pose proof offset_equation as Ha. pose proof radii_difference as Hd.
  set (a := circles_offset D r0 r1) in *.
  assert (0 <= 2 * D * (r0 - a)) by nra.
  assert (0 <= 2 * D * (r0 + a)) by nra.
  split; nra.
Qed.

Lemma height_radicand :
  0 <= r0 * r0 - circles_offset D r0 r1 * circles_offset D r0 r1.
Proof. pose proof offset_bounds. nra. Qed.

Lemma height_square :
  circles_height D r0 r1 * circles_height D r0 r1 =
  r0 * r0 - circles_offset D r0 r1 * circles_offset D r0 r1.
Proof. unfold circles_height. apply sqrt_sqrt, height_radicand. Qed.

Lemma unit_direction : dx / D * (dx / D) + dy / D * (dy / D) = 1.
Proof.
  replace (dx / D * (dx / D) + dy / D * (dy / D))
    with ((dy * dy + dx * dx) / (D * D)) by (field; lra).
  rewrite <- HD. field. lra.
Qed.

(** A point at offset [a] along the centre line and [k] across it, with
    [k * k = r0^2 - a^2], lies on both circles. *)
Lemma candidate_on_first (a k : R) :
  k * k = r0 * r0 - a * a ->
  (dx * a / D - dy * (k / D)) * (dx * a / D - dy * (k / D)) +
  (dy * a / D + dx * (k / D)) * (dy * a / D + dx * (k / D)) = r0 * r0.
Proof.
  intros Hk. pose proof unit_direction as Hu.
  set (ux := dx / D) in *. set (uy := dy / D) in *.
  replace (dx * a / D - dy * (k / D)) with (a * ux - k * uy)
    by (unfold ux, uy; field; lra).
  replace (dy * a / D + dx * (k / D)) with (a * uy + k * ux)
    by (unfold ux, uy; field; lra).
  replace ((a * ux - k * uy) * (a * ux - k * uy) +
           (a * uy + k * ux) * (a * uy + k * ux))
    with ((a * a + k * k) * (ux * ux + uy * uy)) by ring.
  rewrite Hu, Hk. ring.
Qed.

Lemma candidate_on_second (a k : R) :
  2 * D * a = r0 * r0 - r1 * r1 + D * D ->
  k * k = r0 * r0 - a * a ->
  (dx * a / D - dy * (k / D) - dx) * (dx * a / D - dy * (k / D) - dx) +
  (dy * a / D + dx * (k / D) - dy) * (dy * a / D + dx * (k / D) - dy) = r1 * r1.
Proof.
  intros Ha Hk. pose proof unit_direction as Hu.
  set (ux := dx / D) in *. set (uy := dy / D) in *.
  replace (dx * a / D - dy * (k / D) - dx) with ((a - D) * ux - k * uy)
    by (unfold ux, uy; field; lra).
  replace (dy * a / D + dx * (k / D) - dy) with ((a - D) * uy + k * ux)
    by (unfold ux, uy; field; lra).
  replace (((a - D) * ux - k * uy) * ((a - D) * ux - k * uy) +
           ((a - D) * uy + k * ux) * ((a - D) * uy + k * ux))
    with (((a - D) * (a - D) + k * k) * (ux * ux + uy * uy)) by ring.
  rewrite Hu, Hk. lra.
Qed.

(** The height vanishes exactly when the circles touch. *)
Lemma height_zero_iff :
  circles_height D r0 r1 = 0 <-> D = r0 + r1 \/ D = Rabs (r0 - r1).
Proof.
  pose proof offset_equation as Ha. pose proof height_square as Hh.
  pose proof offset_bounds as Hb. pose proof radii_difference as Hd.
  set (a := circles_offset D r0 r1) in *.
  set (h := circles_height D r0 r1) in *.
  assert (Habs : Rabs (r0 - r1) = r0 - r1 \/ Rabs (r0 - r1) = r1 - r0)
    by (unfold Rabs; destruct (Rcase_abs (r0 - r1)); lra).
  split.
  - intros Hz. rewrite Hz in Hh.
    assert (Hprod : (r0 - a) * (r0 + a) = 0) by lra.
    apply Rmult_integral in Hprod. destruct Hprod as [E|E].
    + assert (Hsq : (D - r0 - r1) * (D - r0 + r1) = 0) by nra.
      apply Rmult_integral in Hsq. destruct Hsq; [left; lra|right].
      unfold Rabs. destruct (Rcase_abs (r0 - r1)); lra.
    + assert (Hsq : (D + r0 - r1) * (D + r0 + r1) = 0) by nra.
      apply Rmult_integral in Hsq. right.
      unfold Rabs. destruct (Rcase_abs (r0 - r1)); destruct Hsq; nra.
  - intros Htouch.
    assert (Hzero : r0 * r0 - a * a = 0).
    { destruct Htouch as [E|E].
      - assert (2 * D * (r0 - a) = 0) by nra.
        assert (r0 - a = 0) by nra. nra.
      - destruct Habs as [E'|E']; rewrite E' in E.
        + assert (2 * D * (r0 - a) = 0) by nra.
          assert (r0 - a = 0) by nra. nra.
        + assert (2 * D * (r0 + a) = 0) by nra.
          assert (r0 + a = 0) by nra. nra. }
    unfold h, circles_height. fold a. rewrite Hzero. apply sqrt_0.
Qed.

End CircleAlgebra.

Section CircleCircle.
Local Open Scope R_scope.

(** Over the reals [==] on vectors is equality. *)
Lemma veqb_iff (P Q : Vector2f R) : veqb P Q = true <-> P = Q.
Proof.
  destruct P as [px py], Q as [qx qy]. unfold veqb. simpl.
  destruct (Reqb_spec px qx), (Reqb_spec py qy); simpl; split; intros H;
    try discriminate; try reflexivity; try (f_equal; assumption);
    injection H as Hx Hy; contradiction.
Qed.

(** The two candidate points are one point exactly when the height [h]
    vanishes. *)
Lemma candidates_equal_iff (ax ay dx dy D a h : R) :
  D * D = dy * dy + dx * dx -> 0 < D ->
  mkVector2f (ax + dx * a / D + - dy * (h / D))
             (ay + dy * a / D + dx * (h / D)) =
  mkVector2f (ax + dx * a / D - - dy * (h / D))
             (ay + dy * a / D - dx * (h / D)) <->
  h = 0.
Proof.
  intros HD HDpos. split.
  - intros E. injection E as Ex Ey.
    assert (Hx : dy * (h / D) = 0) by lra.
    assert (Hy : dx * (h / D) = 0) by lra.
    assert (Hq : h / D * (D * D) = 0).
    { rewrite HD.
      replace (h / D * (dy * dy + dx * dx))
        with (dy * (dy * (h / D)) + dx * (dx * (h / D))) by ring.
      rewrite Hx, Hy. ring. }
    assert (Hhd : h / D = 0).
    { apply Rmult_integral in Hq. destruct Hq as [Hq|Hq]; [exact Hq|]. nra. }
    replace h with (h / D * D) by (field; lra). rewrite Hhd. ring.
  - intros E. rewrite E. f_equal; field; lra.
Qed.

(** Distinct centres are a positive distance apart. *)
Lemma distinct_centres (c0 c1 : Circle R) :
  center c0 <> center c1 ->
  0 < (y (center c1) - y (center c0)) * (y (center c1) - y (center c0)) +
      (x (center c1) - x (center c0)) * (x (center c1) - x (center c0)).
Proof.
  destruct c0 as [[ax ay] r0], c1 as [[bx by_] r1]. simpl. intros Hcentres.
  destruct (Req_dec_T (bx - ax) 0) as [Zx|Nx],
           (Req_dec_T (by_ - ay) 0) as [Zy|Ny]; try nra.
  exfalso. apply Hcentres. f_equal; lra.
Qed.

(** X4.  Circle-circle intersection over exact arithmetic, for two circles
    with distinct centres whose centre distance d passes the solvability
    tests (|r0 - r1| <= d <= r0 + r1): both written points lie on
    both circles; the count is 1 exactly when the written points are equal,
    and that is exactly when the circles touch (d = r0 + r1 or
    d = |r0 - r1|); otherwise it is 2. *)
Theorem getIntersectionOfCircles_geometry
        (c0 c1 : Circle R) (p1 p2 : Vector2f R) :
  center c0 <> center c1 ->
  let d := sqrt (dist2 (center c1) (center c0)) in
  Rabs (radius c0 - radius c1) <= d <= radius c0 + radius c1 ->
  exists (n : Z) (P1 P2 : Vector2f R),
    value (getIntersectionOfCircles c0 c1 p1 p2) = (n, P1, P2) /\
    on_circle c0 P1 /\ on_circle c1 P1 /\
    on_circle c0 P2 /\ on_circle c1 P2 /\
    (n = 1%Z \/ n = 2%Z) /\
    (n = 1%Z <-> P1 = P2) /\
    (P1 = P2 <-> d = radius c0 + radius c1 \/ d = Rabs (radius c0 - radius c1)).
Proof.
  destruct c0 as [[ax ay] r0], c1 as [[bx by_] r1]. simpl.
  intros Hcentres [Hlow Hhigh].
  unfold dist2 in Hlow, Hhigh. simpl in Hlow, Hhigh.
  set (dx := bx - ax) in *. set (dy := by_ - ay) in *.
  replace (dx * dx + dy * dy) with (dy * dy + dx * dx) in Hlow, Hhigh by ring.
  replace (sqrt (dist2 {| x := bx; y := by_ |} {| x := ax; y := ay |}))
    with (sqrt (dy * dy + dx * dx))
    by (unfold dist2; simpl; f_equal; unfold dx, dy; ring).
  set (D := sqrt (dy * dy + dx * dx)) in *.
  assert (Hsum : 0 < dy * dy + dx * dx).
  { destruct (Req_dec_T dx 0) as [Zx|Nx], (Req_dec_T dy 0) as [Zy|Ny];
      try nra.
    exfalso. apply Hcentres. unfold dx, dy in *. f_equal; lra. }
  assert (HD : D * D = dy * dy + dx * dx) by (apply sqrt_sqrt; lra).
  assert (HDpos : 0 < D) by (apply sqrt_lt_R0; exact Hsum).
  pose proof (height_square D r0 r1 HDpos Hlow Hhigh) as Hh.
  pose proof (height_zero_iff D r0 r1 HDpos Hlow Hhigh) as Hz.
  pose proof (offset_equation D r0 r1 HDpos) as Ha.
  unfold circles_height, circles_offset in Hh, Hz, Ha.
  set (a := (r0 * r0 - r1 * r1 + D * D) / (2 * D)) in *.
  set (h := sqrt (r0 * r0 - a * a)) in *.
  pose proof (candidate_on_first dx dy D r0 HD HDpos a) as Hfirst.
  pose proof (candidate_on_second dx dy D r0 r1 HD HDpos a) as Hsecond.
  assert (Hneg : - h * - h = r0 * r0 - a * a) by (rewrite <- Hh; ring).
  rewrite circles_solved; simpl; fold dx dy D a h.
  2:{ destruct (Rltb_spec (r0 + r1) D); [lra|].
      destruct (Rltb_spec D (Rabs (r0 - r1))); [lra|reflexivity]. }
  set (P1 := {| x := ax + dx * a / D + - dy * (h / D);
                y := ay + dy * a / D + dx * (h / D) |}).
  set (P2 := {| x := ax + dx * a / D - - dy * (h / D);
                y := ay + dy * a / D - dx * (h / D) |}).
  assert (Heq : P1 = P2 <-> h = 0)
    by (apply candidates_equal_iff; assumption).
  exists (if veqb P1 P2 then 1%Z else 2%Z), P1, P2.
  split; [reflexivity|].
  split; [|split; [|split; [|split; [|split; [|split]]]]].
  - unfold on_circle, dist2, P1. simpl.
    rewrite <- (Hfirst h Hh). field. lra.
  - unfold on_circle, dist2, P1. simpl.
    rewrite <- (Hsecond h Ha Hh). unfold dx, dy. field.
    fold dx dy D. lra.
  - unfold on_circle, dist2, P2. simpl.
    rewrite <- (Hfirst (- h) Hneg). field. lra.
  - unfold on_circle, dist2, P2. simpl.
    rewrite <- (Hsecond (- h) Ha Hneg). unfold dx, dy. field.
    fold dx dy D. lra.
  - destruct (veqb P1 P2); auto.
  - pose proof (veqb_iff P1 P2) as Hv.
    destruct (veqb P1 P2); split; intros H; try reflexivity; try discriminate.
    + now apply Hv.
    + apply Hv in H. discriminate H.
  - rewrite Heq. exact Hz.
Qed.

Lemma getIntersectionOfCircles_geometry_witness :
  exists (n : Z) (P1 P2 : Vector2f R),
    value (getIntersectionOfCircles (mkCircle (mkVector2f 0 0) 5)
                                    (mkCircle (mkVector2f 10 0) 5)
                                    (mkVector2f 0 0) (mkVector2f 0 0)) =
    (n, P1, P2) /\
    on_circle (mkCircle (mkVector2f 0 0) 5) P1 /\
    on_circle (mkCircle (mkVector2f 10 0) 5) P1 /\
    P1 = P2.
Proof.
  assert (Hd : sqrt (dist2 (mkVector2f 10 0) (mkVector2f 0 0)) = 10).
  { unfold dist2. simpl.
    replace ((10 - 0) * (10 - 0) + (0 - 0) * (0 - 0)) with (10 * 10) by ring.
    apply sqrt_square. lra. }
  destruct (getIntersectionOfCircles_geometry
              (mkCircle (mkVector2f 0 0) 5) (mkCircle (mkVector2f 10 0) 5)
              (mkVector2f 0 0) (mkVector2f 0 0))
    as (n & P1 & P2 & Hv & H1 & H2 & _ & _ & _ & _ & Htouch).
  - simpl. intros E. injection E as E. lra.
  - simpl. rewrite Hd. replace (5 - 5) with 0 by ring. rewrite Rabs_R0. lra.
  - exists n, P1, P2. split; [exact Hv|]. split; [exact H1|].
    split; [exact H2|]. apply Htouch. left. simpl. rewrite Hd. lra.
Defined.

End CircleCircle.

(* ================================================================== *)
(** * Circle-circle intersection: the routine as specified *)

(** C4, as amended.  In every arithmetic, with d the computed centre
    distance: [getIntersectionOfCircles] returns 0 (and writes nothing) when
    the test d > r0 + r1 or the test d < |r0 - r1| succeeds on the computed
    values; otherwise it computes the offset a along the centre line and the
    height h, writes the two candidate points P2 +- h * (-dy, dx) / d and
    returns 1 if the two written points compare equal in both coordinates
    and 2 if not.  Over exact arithmetic, with d the distance of the
    centres: it returns 0 and writes nothing when d > r0 + r1 or
    d < |r0 - r1|; otherwise, for distinct centres, it writes the two
    candidate points, computed from a = (r0^2 - r1^2 + d^2) / (2 d) and
    h = sqrt (r0^2 - a^2), and returns 1 if they are the same point and 2 if
    they are different points; they are the same point exactly when the
    circles touch (d = r0 + r1 or d = |r0 - r1|).  In
    binary32: centres (0,0) and (10,0) with both radii 5 give 1 with the
    point (5,0); centres (0,0) and (6,0) with both radii 5 give 2 with the
    points (3,4) and (3,-4); centres (0,0) and (3,0) with both radii 1, and
    centres (0,0) and (1,0) with radii 5 and 1, give 0 and leave the outputs
    as they were. *)
Theorem getIntersectionOfCircles_spec :
  (forall (F : Type) (ops : FloatOps F) (c0 c1 : Circle F) (p1 p2 : Vector2f F),
      let dx := (x (center c1) - x (center c0))%fl in
      let dy := (y (center c1) - y (center c0))%fl in
      let d := fsqrt (dy * dy + dx * dx)%fl in
      let r0 := radius c0 in
      let r1 := radius c1 in
      let a := fdiv (r0 * r0 - r1 * r1 + d * d)%fl (of_int 2 * d)%fl in
      let h := fsqrt (r0 * r0 - a * a)%fl in
      let x2 := (x (center c0) + fdiv (dx * a) d)%fl in
      let y2 := (y (center c0) + fdiv (dy * a) d)%fl in
      let q1 := mkVector2f (x2 + (- dy) * fdiv h d)%fl (y2 + dx * fdiv h d)%fl in
      let q2 := mkVector2f (x2 - (- dy) * fdiv h d)%fl (y2 - dx * fdiv h d)%fl in
      ((d > r0 + r1)%fl = true \/ (d < fabs (r0 - r1))%fl = true ->
       value (getIntersectionOfCircles c0 c1 p1 p2) = (0, p1, p2)) /\
      ((d > r0 + r1)%fl = false -> (d < fabs (r0 - r1))%fl = false ->
       value (getIntersectionOfCircles c0 c1 p1 p2) =
       (if (x q1 == x q2)%fl && (y q1 == y q2)%fl then 1 else 2, q1, q2))) /\
  (forall (c0 c1 : Circle R) (p1 p2 : Vector2f R),
      let dx := (x (center c1) - x (center c0))%R in
      let dy := (y (center c1) - y (center c0))%R in
      let d := sqrt (dist2 (center c1) (center c0)) in
      let r0 := radius c0 in
      let r1 := radius c1 in
      let a := circles_offset d r0 r1 in
      let h := circles_height d r0 r1 in
      let x2 := (x (center c0) + dx * a / d)%R in
      let y2 := (y (center c0) + dy * a / d)%R in
      let q1 := mkVector2f (x2 + - dy * (h / d))%R (y2 + dx * (h / d))%R in
      let q2 := mkVector2f (x2 - - dy * (h / d))%R (y2 - dx * (h / d))%R in
      ((d > r0 + r1)%R \/ (d < Rabs (r0 - r1))%R ->
       value (getIntersectionOfCircles c0 c1 p1 p2) = (0, p1, p2)) /\
      (center c0 <> center c1 -> (Rabs (r0 - r1) <= d <= r0 + r1)%R ->
       (q1 = q2 -> value (getIntersectionOfCircles c0 c1 p1 p2) = (1, q1, q2)) /\
       (q1 <> q2 ->
        value (getIntersectionOfCircles c0 c1 p1 p2) = (2, q1, q2)) /\
       (q1 = q2 <-> d = (r0 + r1)%R \/ d = Rabs (r0 - r1)))) /\
  (forall p1 p2 : Vector2f spec_float,
      value (getIntersectionOfCircles (mkCircle (v32 0 0) (f32 5))
                                      (mkCircle (v32 10 0) (f32 5)) p1 p2) =
      (1, v32 5 0, v32 5 0)) /\
  (forall p1 p2 : Vector2f spec_float,
      value (getIntersectionOfCircles (mkCircle (v32 0 0) (f32 5))
                                      (mkCircle (v32 6 0) (f32 5)) p1 p2) =
      (2, v32 3 4, v32 3 (-4))) /\
  (forall p1 p2 : Vector2f spec_float,
      value (getIntersectionOfCircles (mkCircle (v32 0 0) (f32 1))
                                      (mkCircle (v32 3 0) (f32 1)) p1 p2) =
      (0, p1, p2)) /\
  (forall p1 p2 : Vector2f spec_float,
      value (getIntersectionOfCircles (mkCircle (v32 0 0) (f32 5))
                                      (mkCircle (v32 1 0) (f32 1)) p1 p2) =
      (0, p1, p2)).
Proof.
  split; [|split].
  - intros F ops c0 c1 p1 p2. cbv zeta. split.
    + intros H. rewrite circles_rejected; [reflexivity|].
      apply orb_true_iff. exact H.
    + intros H1 H2. rewrite circles_solved by (cbv zeta; now rewrite H1, H2).
      reflexivity.
  - intros c0 c1 p1 p2 dx dy d r0 r1 a h x2 y2 q1 q2.
    assert (Edist : dist2 (center c1) (center c0) = (dy * dy + dx * dx)%R)
      by (unfold dist2, dx, dy; ring).
    pose proof (circles_rejected c0 c1 p1 p2) as Hrej.
    pose proof (circles_solved c0 c1 p1 p2) as Hsol.
    cbv zeta in Hrej, Hsol.
    subst q1 q2 x2 y2 h a. unfold circles_height, circles_offset.
    subst d. rewrite Edist.
    set (D := sqrt (dy * dy + dx * dx)) in *.
    change (Rltb (r0 + r1) D || Rltb D (Rabs (r0 - r1)) = true ->
            getIntersectionOfCircles c0 c1 p1 p2 = ret (0, p1, p2)) in Hrej.
    set (A := ((r0 * r0 - r1 * r1 + D * D) / (2 * D))%R) in *.
    set (H := sqrt (r0 * r0 - A * A)) in *.
    set (q1 := mkVector2f (x (center c0) + dx * A / D + - dy * (H / D))%R
                          (y (center c0) + dy * A / D + dx * (H / D))%R).
    set (q2 := mkVector2f (x (center c0) + dx * A / D - - dy * (H / D))%R
                          (y (center c0) + dy * A / D - dx * (H / D))%R).
    change (Rltb (r0 + r1) D || Rltb D (Rabs (r0 - r1)) = false ->
            value (getIntersectionOfCircles c0 c1 p1 p2) =
            (if veqb q1 q2 then 1 else 2, q1, q2)) in Hsol.
    split.
    + intros Hout. rewrite Hrej; [reflexivity|].
      destruct (Rltb_spec (r0 + r1) D), (Rltb_spec D (Rabs (r0 - r1)));
        try reflexivity.
      destruct Hout; contradiction.
    + intros Hcentres [Hlow Hhigh]. rewrite Hsol.
      2:{ destruct (Rltb_spec (r0 + r1) D); [lra|].
          destruct (Rltb_spec D (Rabs (r0 - r1))); [lra|reflexivity]. }
      pose proof (distinct_centres c0 c1 Hcentres) as Hsum. fold dx dy in Hsum.
      assert (HD : (D * D = dy * dy + dx * dx)%R) by (apply sqrt_sqrt; lra).
      assert (HDpos : (0 < D)%R) by (apply sqrt_lt_R0; exact Hsum).
      pose proof (height_zero_iff D r0 r1 HDpos Hlow Hhigh) as Hz.
      pose proof (candidates_equal_iff (x (center c0)) (y (center c0))
                                       dx dy D A H HD HDpos) as Heq.
      fold q1 q2 in Heq.
      pose proof (veqb_iff q1 q2) as Hv.
      split; [|split].
      * intros E. apply Hv in E. now rewrite E.
      * intros N. destruct (veqb q1 q2); [|reflexivity].
        contradiction N. now apply Hv.
      * rewrite Heq. exact Hz.
  - repeat split; intros p1 p2; vm_compute; reflexivity.
Qed.

Lemma getIntersectionOfCircles_spec_witness :
  value (getIntersectionOfCircles (mkCircle (v32 0 0) (f32 5))
                                  (mkCircle (v32 6 0) (f32 5))
                                  (v32 7 7) (v32 8 8)) =
  (2, v32 3 4, v32 3 (-4)).
Proof.
  apply (proj2 (proj1 getIntersectionOfCircles_spec
                  spec_float binary32
                  (mkCircle (v32 0 0) (f32 5)) (mkCircle (v32 6 0) (f32 5))
                  (v32 7 7) (v32 8 8))); vm_compute; reflexivity.
Defined.

Section CirclesRounding.
Local Open Scope R_scope.

(** C4, as stated, fails for the [float] code.  The circles around (0,0) with
    radius 2^25 = 33554432 and around (2^25 + 4, 0) with radius 3 have
    binary32 parameters and are disjoint: the distance of the centres is
    2^25 + 4 > 2^25 + 3, and over exact arithmetic the routine returns 0 and
    writes nothing.  In binary32 the sum r0 + r1 rounds to 2^25 + 4, the
    test d > r0 + r1 fails, and the routine returns 1 and writes the point
    (2^25, 0) twice. *)
Lemma circles_binary32_accepts_disjoint :
  sqrt (dist2 (mkVector2f 33554436 0) (mkVector2f 0 0)) > 33554432 + 3 /\
  value (getIntersectionOfCircles
           (mkCircle (mkVector2f 0 0) 33554432)
           (mkCircle (mkVector2f 33554436 0) 3)
           (mkVector2f 7 7) (mkVector2f 8 8)) =
  (0%Z, mkVector2f 7 7, mkVector2f 8 8) /\
  value (getIntersectionOfCircles
           (mkCircle (v32 0 0) (f32 33554432))
           (mkCircle (v32 33554436 0) (f32 3))
           (v32 7 7) (v32 8 8)) =
  (1%Z, v32 33554432 0, v32 33554432 0).
Proof.
  assert (Ed : sqrt ((0 - 0) * (0 - 0) + (33554436 - 0) * (33554436 - 0))
               = 33554436).
  { replace ((0 - 0) * (0 - 0) + (33554436 - 0) * (33554436 - 0))
      with (33554436 * 33554436) by ring.
    apply sqrt_square. lra. }
  split; [|split; [|vm_compute; reflexivity]].
  - unfold dist2. simpl.
    replace ((33554436 - 0) * (33554436 - 0) + (0 - 0) * (0 - 0))
      with ((0 - 0) * (0 - 0) + (33554436 - 0) * (33554436 - 0)) by ring.
    rewrite Ed. lra.
  - rewrite circles_rejected; [reflexivity|]. simpl.
    rewrite Ed. destruct (Rltb_spec (33554432 + 3) 33554436); [reflexivity|lra].
Qed.

End CirclesRounding.

(* ================================================================== *)
(** * Further facts about the integer routines *)

(** X5.  With [stepSize = 0] and distinct endpoints [calculatePixels] never
    reaches its loop: the argument of [reserve],
    [numberOfPixels / stepSize], is a division by zero. *)
Theorem calculatePixels_zero_step :
  forall (fuel : nat) (x1 y1 x2 y2 : Z),
    (x1 =? x2) && (y1 =? y2) = false ->
    PixeledLine.calculatePixels fuel x1 y1 x2 y2 0 = PixeledLine.DivisionByZero.
Proof.
  intros fuel x1 y1 x2 y2 Hdistinct.
  unfold PixeledLine.calculatePixels. rewrite Hdistinct.
  destruct (_ >? _); reflexivity.
Qed.

Lemma calculatePixels_zero_step_witness :
  PixeledLine.calculatePixels 10 0 0 4 0 0 = PixeledLine.DivisionByZero.
Proof. apply calculatePixels_zero_step. reflexivity. Defined.

(** For corners in order, clipping clamps each coordinate into its interval
    and reports whether the point was outside. *)
Lemma clip_closed_form (blx bly trx try_ px py : Z) :
  blx <= trx -> bly <= try_ ->
  clipPointInsideRectangle_i (Vector2i.mk blx bly) (Vector2i.mk trx try_)
                             (Vector2i.mk px py) =
  (negb (isPointInsideRectangle_i (Vector2i.mk blx bly) (Vector2i.mk trx try_)
                                  (Vector2i.mk px py)),
   Vector2i.mk (Z.max blx (Z.min px trx)) (Z.max bly (Z.min py try_))).
Proof.
  intros Hx Hy.
  unfold clipPointInsideRectangle_i, isPointInsideRectangle_i. simpl.
  repeat match goal with
         | |- context [if ?a <? ?b then _ else _] =>
             destruct (Z.ltb_spec a b); simpl
         | |- context [if ?a >? ?b then _ else _] =>
             destruct (Z.gtb_spec a b); simpl
         | |- context [?a <=? ?b] => destruct (Z.leb_spec a b); simpl
         end;
    try (exfalso; lia); do 2 f_equal; lia.
Qed.

(** X7.  [clipPointInsideRectangle] on integer points: for corners in order
    the clipped point lies inside the rectangle, the flag is false exactly
    when the point is left as it was, and a point inside the rectangle is
    left as it was.  With bounds (0,0)-(10,10), (-5,15) is clipped to (0,10)
    with flag true and (5,5) is kept with flag false. *)
Theorem clipPointInsideRectangle_spec :
  (forall bottomLeftCorner topRightCorner point : Vector2i.t,
      Vector2i.x bottomLeftCorner <= Vector2i.x topRightCorner ->
      Vector2i.y bottomLeftCorner <= Vector2i.y topRightCorner ->
      isPointInsideRectangle_i
        bottomLeftCorner topRightCorner
        (snd (clipPointInsideRectangle_i bottomLeftCorner topRightCorner point))
      = true /\
      (fst (clipPointInsideRectangle_i bottomLeftCorner topRightCorner point)
       = false <->
       snd (clipPointInsideRectangle_i bottomLeftCorner topRightCorner point)
       = point) /\
      (isPointInsideRectangle_i bottomLeftCorner topRightCorner point = true ->
       clipPointInsideRectangle_i bottomLeftCorner topRightCorner point
       = (false, point))) /\
  clipPointInsideRectangle_i (Vector2i.mk 0 0) (Vector2i.mk 10 10)
                             (Vector2i.mk (-5) 15)
  = (true, Vector2i.mk 0 10) /\
  clipPointInsideRectangle_i (Vector2i.mk 0 0) (Vector2i.mk 10 10)
                             (Vector2i.mk 5 5)
  = (false, Vector2i.mk 5 5).
Proof.
  split; [|split; reflexivity].
  intros [blx bly] [trx try_] [px py]. simpl. intros Hx Hy.
  rewrite clip_closed_form by assumption. simpl.
  unfold isPointInsideRectangle_i. simpl.
  split; [|split].
  - rewrite !andb_true_iff, !Z.leb_le. lia.
  - rewrite negb_false_iff, !andb_true_iff, !Z.leb_le. split.
    + intros H. f_equal; lia.
    + intros H. injection H as H1 H2. lia.
  - intros H. rewrite H. simpl.
    rewrite !andb_true_iff, !Z.leb_le in H. do 2 f_equal; lia.
Qed.

Lemma clipPointInsideRectangle_spec_witness :
  isPointInsideRectangle_i
    (Vector2i.mk 0 0) (Vector2i.mk 10 10)
    (snd (clipPointInsideRectangle_i (Vector2i.mk 0 0) (Vector2i.mk 10 10)
                                     (Vector2i.mk 30 (-7)))) = true.
Proof.
  apply (proj1 clipPointInsideRectangle_spec
           (Vector2i.mk 0 0) (Vector2i.mk 10 10) (Vector2i.mk 30 (-7)));
    simpl; lia.
Defined.

(* ================================================================== *)
(** * Array accesses of the convex-polygon test *)

Section PolygonBounds.
Context {F : Type} {ops : FloatOps F}.

Lemma convex_loop_defined (polygon : list (Vector2f F)) (point : Vector2f F)
      (orientation : Z) (len : nat) :
  forall start : nat,
    (start + len <= length polygon)%nat ->
    exists b : bool,
      convex_loop polygon (Z.of_nat (length polygon)) point orientation
                  (map Z.of_nat (seq start len)) = Some b.
Proof.
  induction len as [|len IH]; intros start Hlen; [now exists true|].
  simpl.
  destruct (edge_ccw_defined polygon point start ltac:(lia)) as [o Ho].
  rewrite Ho.
  destruct (o =? 0); [now exists true|].
  destruct (negb (o =? orientation)); [now exists false|].
  apply IH. lia.
Qed.

End PolygonBounds.

(** X8.  [isPointInsideConvexPolygon], called with the number of points of
    the array, reads inside the array and returns a verdict when the array
    has at least 2 points; with fewer points its first test reads
    [polygon[1]] past the end of the array. *)
Theorem isPointInsideConvexPolygon_bounds :
  forall (F : Type) (ops : FloatOps F)
         (polygon : list (Vector2f F)) (point : Vector2f F),
    ((2 <= length polygon)%nat ->
     exists b : bool,
       isPointInsideConvexPolygon polygon (Z.of_nat (length polygon)) point
       = Some b) /\
    ((length polygon < 2)%nat ->
     isPointInsideConvexPolygon polygon (Z.of_nat (length polygon)) point
     = None).
Proof.
  intros F ops polygon point. split.
  - intros Hlen.
    destruct (edge_ccw_defined polygon point 0 ltac:(lia)) as [o Ho].
    rewrite (first_edge polygon point Hlen o Ho).
    destruct (o =? 0); [now exists true|].
    apply convex_loop_defined. lia.
  - intros Hlen. unfold isPointInsideConvexPolygon.
    destruct polygon as [|v0 [|v1 rest]]; simpl in *; try reflexivity. lia.
Qed.

Lemma isPointInsideConvexPolygon_bounds_witness :
  exists b : bool,
    isPointInsideConvexPolygon unit_square32 4 (v32 7 7) = Some b.
Proof.
  apply (proj1 (isPointInsideConvexPolygon_bounds
                  spec_float binary32 unit_square32 (v32 7 7))).
  simpl. lia.
Defined.

(* ================================================================== *)
(** * Where binary32 departs from exact arithmetic *)

(** X9.  Rounding can hide collinearity from [ccw].  The points
    p0 = (2^25, 3 * 2^25) = (33554432, 100663296), p1 = (1,3) and p2 = (3,9)
    lie on the line y = 3 x, p2 strictly between p0 and p1; all coordinates
    are binary32 numbers, and over exact arithmetic [ccw] returns 0 for them.
    In binary32 the differences round (1 - 2^25 to -2^25, 3 - 3 * 2^25 to
    -3 * 2^25, 3 - 2^25 to -(2^25 - 4), 9 - 3 * 2^25 to -(3 * 2^25 - 8)), the
    two products round to different values, and [ccw] returns +1. *)
Theorem ccw_binary32_rounding :
  ccw (v32 33554432 100663296) (v32 1 3) (v32 3 9) = 1 /\
  ccw (mkVector2f 33554432%R 100663296%R)
      (mkVector2f 1%R 3%R) (mkVector2f 3%R 9%R) = 0.
Proof.
  split; [vm_compute; reflexivity|].
  apply (ccw_between _ _ _ (33554429 / 33554431)%R).
  - lra.
  - unfold point_at, vsub. simpl. f_equal; lra.
Qed.

(** X10.  Underflow can make [getIntersectionOfLines] report crossing lines
    as parallel.  The directions (2^-100, 2^-100) and (2^-100, -2^-100) are
    perpendicular; over exact arithmetic their cross product is not zero.  In
    binary32 both products of the test underflow to zero, the test succeeds
    and the routine returns false without writing. *)
Theorem lines_binary32_underflow :
  (forall b1 b2 out : Vector2f spec_float,
      value (getIntersectionOfLines
               (mkLine b1 (mkVector2f (pow2_32 (-100)) (pow2_32 (-100))))
               (mkLine b2 (mkVector2f (pow2_32 (-100))
                                      (fopp (pow2_32 (-100)))))
               out) = (false, out)) /\
  cross (mkVector2f (/ IZR (2 ^ 100)) (/ IZR (2 ^ 100)))%R
        (mkVector2f (/ IZR (2 ^ 100)) (- / IZR (2 ^ 100)))%R <> 0%R.
Proof.
  split; [intros b1 b2 out; vm_compute; reflexivity|].
  unfold cross. simpl.
  assert (He : (0 < / IZR (2 ^ 100))%R)
    by (apply Rinv_0_lt_compat, IZR_lt; lia).
  generalize dependent (/ IZR (2 ^ 100))%R. intros e He. nra.
Qed.

(* ================================================================== *)
(** * The circle through three points *)

Section CircleThroughThreePoints.
Local Open Scope R_scope.

Lemma half_sqrt_square (q : R) :
  0 <= q -> (1 / 2 * sqrt q) * (1 / 2 * sqrt q) = q / 4.
Proof.
  intros H.
  replace (1 / 2 * sqrt q * (1 / 2 * sqrt q)) with (sqrt q * sqrt q / 4)
    by field.
  now rewrite sqrt_sqrt.
Qed.

Lemma sum_of_squares_pos (u v : R) : u <> 0 \/ v <> 0 -> 0 < u * u + v * v.
Proof. intros [H | H]; nra. Qed.

Lemma getCircle_example :
  value (getCircle (Vector2i.mk 0 0) (Vector2i.mk 6 0) (Vector2i.mk 0 8))
  = mkCircle (v32 3 4) (f32 5).
Proof. vm_compute. reflexivity. Qed.

(** X11.  [getCircle] over exact arithmetic.  For three collinear points
    (among them: repeated points) the result is the circle of radius 0 around
    the origin, and nothing is divided.  For three points that are not
    collinear the returned circle passes through all three of them, its
    radius is positive and no divisor is zero.  In binary32 the points (0,0),
    (6,0), (0,8) give the centre (3,4) and the radius 5. *)
Theorem getCircle_spec (point1 point2 point3 : Vector2i.t) :
  let P1 : Vector2f R := cast_float point1 in
  let P2 : Vector2f R := cast_float point2 in
  let P3 : Vector2f R := cast_float point3 in
  let result := getCircle (F := R) point1 point2 point3 in
  (cross (vsub P2 P1) (vsub P3 P1) = 0 ->
   result = (mkCircle (mkVector2f 0 0) 0, [])) /\
  (cross (vsub P2 P1) (vsub P3 P1) <> 0 ->
   on_circle (value result) P1 /\ on_circle (value result) P2 /\
   on_circle (value result) P3 /\ 0 < radius (value result) /\
   Forall (fun d => d <> 0) (divisors result)) /\
  value (getCircle (Vector2i.mk 0 0) (Vector2i.mk 6 0) (Vector2i.mk 0 8))
  = mkCircle (v32 3 4) (f32 5).
Proof.
  intros P1 P2 P3 result.
  split; [|split; [|exact getCircle_example]]; subst P1 P2 P3 result.
  all: revert point1 point2 point3.
  all: intros [x1 y1] [x2 y2] [x3 y3].
  all: unfold getCircle, cast_float, cross, on_circle, dist2, of_ratio, sqr.
  all: simpl.
  all: generalize (IZR x1) (IZR y1) (IZR x2) (IZR y2) (IZR x3) (IZR y3).
  all: clear; intros a1 b1 a2 b2 a3 b3.
  all: set (temp := a2 * b1 - a3 * b1 - a1 * b2 + a3 * b2 + a1 * b3 - a2 * b3).
  all: assert (Ht : (a2 - a1) * (b3 - b1) - (b2 - b1) * (a3 - a1) = - temp)
    by (unfold temp; ring).
  all: rewrite Ht.
  - intros H0. destruct (Reqb_spec temp 0) as [_ | Hn]; [reflexivity | lra].
  - intros Hn. destruct (Reqb_spec temp 0) as [H0 | _]; [lra|].
    simpl.
    set (q := (((a1 - a2) * (a1 - a2) + (b1 - b2) * (b1 - b2)) *
               ((a1 - a3) * (a1 - a3) + (b1 - b3) * (b1 - b3)) *
               ((a2 - a3) * (a2 - a3) + (b2 - b3) * (b2 - b3))) /
              (temp * temp)).
    assert (Htt : 0 < temp * temp) by nra.
    assert (H12 : 0 < (a1 - a2) * (a1 - a2) + (b1 - b2) * (b1 - b2)).
    { apply sum_of_squares_pos.
      destruct (Req_dec_T a1 a2) as [-> | ?]; [|lra].
      destruct (Req_dec_T b1 b2) as [-> | ?]; [|lra].
      exfalso. apply Hn. unfold temp. ring. }
    assert (H13 : 0 < (a1 - a3) * (a1 - a3) + (b1 - b3) * (b1 - b3)).
    { apply sum_of_squares_pos.
      destruct (Req_dec_T a1 a3) as [-> | ?]; [|lra].
      destruct (Req_dec_T b1 b3) as [-> | ?]; [|lra].
      exfalso. apply Hn. unfold temp. ring. }
    assert (H23 : 0 < (a2 - a3) * (a2 - a3) + (b2 - b3) * (b2 - b3)).
    { apply sum_of_squares_pos.
      destruct (Req_dec_T a2 a3) as [-> | ?]; [|lra].
      destruct (Req_dec_T b2 b3) as [-> | ?]; [|lra].
      exfalso. apply Hn. unfold temp. ring. }
    assert (Hq : 0 < q).
    { unfold q. apply Rdiv_lt_0_compat; [|assumption].
      apply Rmult_lt_0_compat; [apply Rmult_lt_0_compat|]; assumption. }
    rewrite half_sqrt_square by lra.
    assert (Hsq : 0 < sqrt q) by now apply sqrt_lt_R0.
    repeat split.
    + unfold q. subst temp. field. lra.
    + unfold q. subst temp. field. lra.
    + unfold q. subst temp. field. lra.
    + lra.
    + repeat constructor; lra.
Qed.

End CircleThroughThreePoints.

(* ================================================================== *)
(** * Distances and projections *)

Section DistanceAndProjection.
Local Open Scope R_scope.

Lemma Rabs_le_sqrt (v m : R) : v * v <= m -> Rabs v <= sqrt m.
Proof.
  intros H. rewrite <- sqrt_Rsqr_abs. apply sqrt_le_1_alt. exact H.
Qed.

Lemma Rabs_eq_sqrt (v m : R) : v * v = m -> Rabs v = sqrt m.
Proof. intros <-. symmetry. apply sqrt_Rsqr_abs. Qed.

Lemma nonzero_vector (v : Vector2f R) :
  v <> mkVector2f 0 0 -> 0 < squaredNorm v.
Proof.
  intros H. apply squaredNorm_pos. intros E. apply H.
  now apply zero_direction_iff.
Qed.

Lemma normalized_nonzero (v : Vector2f R) :
  v <> mkVector2f 0 0 ->
  normalized v = mkVector2f (x v / sqrt (squaredNorm v))
                            (y v / sqrt (squaredNorm v)).
Proof.
  intros H. apply nonzero_vector in H.
  unfold normalized, squaredNorm in *. simpl in *.
  r_cases; [reflexivity | lra].
Qed.

(** Over the reals the guard of the distance functions tests whether the
    direction is the zero vector. *)
Lemma zero_direction_test (v : Vector2f R) :
  Reqb (x v) 0 && Reqb (y v) 0 = true <-> v = mkVector2f 0 0.
Proof.
  destruct v as [vx vy]. simpl.
  destruct (Reqb_spec vx 0), (Reqb_spec vy 0); simpl; split; intros H;
    try discriminate; try reflexivity; try (injection H; intros; lra).
  now subst.
Qed.

(** The signed distance in closed form. *)
Lemma signed_distance_value (line : Line R) (point : Vector2f R) :
  direction line <> mkVector2f 0 0 ->
  getDistanceToLineSigned line point =
  - cross (direction line) (vsub point (base line)) /
    sqrt (squaredNorm (direction line)).
Proof.
  intros Hn. pose proof (nonzero_vector _ Hn) as Hz.
  assert (Hg : Reqb (x (direction line)) 0 && Reqb (y (direction line)) 0
               = false).
  { destruct (_ && _) eqn:E; [|reflexivity].
    apply zero_direction_test in E. contradiction. }
  destruct line as [[x0 y0] [dx dy]], point as [px py].
  unfold getDistanceToLineSigned. simpl in Hg |- *. rewrite Hg.
  rewrite normalized_nonzero.
  2:{ intros E. apply Hn. injection E as E1 E2. simpl. f_equal; lra. }
  unfold cross, dot, squaredNorm in *. simpl in *.
  replace (dy * dy + - dx * - dx) with (dx * dx + dy * dy) by ring.
  assert (Hs : 0 < sqrt (dx * dx + dy * dy)) by now apply sqrt_lt_R0.
  field. lra.
Qed.

Lemma distance_value (P Q : Vector2f R) : distance P Q = sqrt (dist2 Q P).
Proof. destruct P, Q. reflexivity. Qed.

Lemma dist2_nonneg (P Q : Vector2f R) : 0 <= dist2 P Q.
Proof.
  destruct P as [px py], Q as [qx qy]. unfold dist2. simpl.
  apply Rplus_le_le_0_compat; apply Rle_0_sqr.
Qed.

Lemma quotient_le (c z m : R) : 0 < z -> c <= z * m -> c / z <= m.
Proof.
  intros Hz H. apply (Rmult_le_reg_r z); [exact Hz|].
  replace (c / z * z) with c by (field; lra). lra.
Qed.

(** The parameter of the foot of the perpendicular from [point]. *)
Lemma foot_parameter (line : Line R) (point : Vector2f R) (t : R) :
  direction line <> mkVector2f 0 0 ->
  dist2 (point_at line t) point =
  cross (direction line) (vsub point (base line)) *
  cross (direction line) (vsub point (base line)) /
  squaredNorm (direction line) +
  squaredNorm (direction line) *
  ((t - dot (vsub point (base line)) (direction line) /
        squaredNorm (direction line)) *
   (t - dot (vsub point (base line)) (direction line) /
        squaredNorm (direction line))).
Proof.
  intros Hn. apply nonzero_vector in Hn.
  destruct line as [[x0 y0] [dx dy]], point as [px py].
  unfold dist2, point_at, cross, dot, squaredNorm in *. simpl in *.
  field. lra.
Qed.

Lemma signed_distance_square (line : Line R) (point : Vector2f R) :
  direction line <> mkVector2f 0 0 ->
  getDistanceToLineSigned line point * getDistanceToLineSigned line point =
  cross (direction line) (vsub point (base line)) *
  cross (direction line) (vsub point (base line)) /
  squaredNorm (direction line).
Proof.
  intros Hn. rewrite signed_distance_value by exact Hn.
  pose proof (nonzero_vector _ Hn) as Hz.
  assert (Hs : 0 < sqrt (squaredNorm (direction line)))
    by now apply sqrt_lt_R0.
  rewrite <- (sqrt_sqrt (squaredNorm (direction line))) at 3 by lra.
  field. lra.
Qed.

(** No point of the line is nearer than the unsigned distance says. *)
Lemma line_distance_lower (line : Line R) (point : Vector2f R) (t : R) :
  direction line <> mkVector2f 0 0 ->
  getDistanceToLine line point <= distance point (point_at line t).
Proof.
  intros Hn. rewrite distance_value.
  change (getDistanceToLine line point)
    with (Rabs (getDistanceToLineSigned line point)).
  apply Rabs_le_sqrt. rewrite signed_distance_square by exact Hn.
  rewrite (foot_parameter line point t Hn).
  pose proof (nonzero_vector _ Hn) as Hz.
  set (z := squaredNorm (direction line)) in *.
  generalize (t - dot (vsub point (base line)) (direction line) / z).
  intros u. assert (0 <= z * (u * u)) by (apply Rmult_le_pos; nra). lra.
Qed.

(** The foot of the perpendicular is at exactly that distance. *)
Lemma line_distance_attained (line : Line R) (point : Vector2f R) :
  direction line <> mkVector2f 0 0 ->
  getDistanceToLine line point =
  distance point
           (point_at line (dot (vsub point (base line)) (direction line) /
                           squaredNorm (direction line))).
Proof.
  intros Hn. rewrite distance_value.
  change (getDistanceToLine line point)
    with (Rabs (getDistanceToLineSigned line point)).
  apply Rabs_eq_sqrt. rewrite signed_distance_square by exact Hn.
  rewrite (foot_parameter line point _ Hn). ring.
Qed.

(** A line without direction consists of its base point. *)
Lemma point_at_zero_direction (base0 : Vector2f R) (t : R) :
  point_at (mkLine base0 (mkVector2f 0 0)) t = base0.
Proof. destruct base0. unfold point_at. simpl. f_equal; ring. Qed.

Lemma signed_distance_zero_direction (base0 point : Vector2f R) :
  getDistanceToLineSigned (mkLine base0 (mkVector2f 0 0)) point =
  distance point base0.
Proof.
  unfold getDistanceToLineSigned. simpl.
  destruct (Reqb_spec 0 0); [reflexivity | lra].
Qed.

Lemma distance_nonneg (P Q : Vector2f R) : 0 <= distance P Q.
Proof. rewrite distance_value. apply sqrt_pos. Qed.

(** X12.  [getDistanceToLine] over exact arithmetic is the distance from the
    point to the line: no point of the line is nearer, and one point of the
    line is exactly that far.  For a line without direction this is the
    distance to its base point.  For a line with a direction the signed
    variant is negative exactly when [isPointLeftOfLine] holds for the point
    and the line from [base] to [base + direction], and it is zero exactly
    for the points of the line. *)
Theorem getDistanceToLine_spec (line : Line R) (point : Vector2f R) :
  (forall Q, on_line line Q ->
             getDistanceToLine line point <= distance point Q) /\
  (exists Q, on_line line Q /\
             getDistanceToLine line point = distance point Q) /\
  (direction line = mkVector2f 0 0 ->
   getDistanceToLine line point = distance point (base line)) /\
  (direction line <> mkVector2f 0 0 ->
   (getDistanceToLineSigned line point < 0 <->
    isPointLeftOfLine (base line) (far_end line) point = true) /\
   (getDistanceToLineSigned line point = 0 <-> on_line line point)).
Proof.
  destruct (Req_dec_T (squaredNorm (direction line)) 0) as [Hz | Hz].
  - apply zero_direction_iff in Hz. destruct line as [base0 dir].
    simpl in Hz. subst dir.
    assert (Hd : getDistanceToLine (mkLine base0 (mkVector2f 0 0)) point =
                 distance point base0).
    { change (getDistanceToLine (mkLine base0 (mkVector2f 0 0)) point)
        with (Rabs (getDistanceToLineSigned (mkLine base0 (mkVector2f 0 0))
                                            point)).
      rewrite signed_distance_zero_direction.
      apply Rabs_pos_eq, distance_nonneg. }
    split; [|split; [|split]].
    + intros Q [t ->]. rewrite point_at_zero_direction, Hd. lra.
    + exists base0. split; [|exact Hd].
      exists 0. now rewrite point_at_zero_direction.
    + intros _. exact Hd.
    + intros Hn. now contradiction Hn.
  - assert (Hn : direction line <> mkVector2f 0 0).
    { intros E. apply Hz. now apply zero_direction_iff. }
    split; [|split; [|split]].
    + intros Q [t ->]. now apply line_distance_lower.
    + eexists. split; [eexists; reflexivity|].
      now apply line_distance_attained.
    + intros E. contradiction.
    + intros _. rewrite (signed_distance_value line point Hn).
      pose proof (nonzero_vector _ Hn) as Hp.
      assert (Hs : 0 < sqrt (squaredNorm (direction line)))
        by now apply sqrt_lt_R0.
      set (s := sqrt (squaredNorm (direction line))) in *.
      assert (Hc : forall c, (- c / s < 0 <-> 0 < c) /\ (- c / s = 0 <-> c = 0)).
      { intros c. replace (- c / s) with (- (c * / s)) by (field; lra).
        assert (Hi : 0 < / s) by now apply Rinv_0_lt_compat.
        split; split; intros H; nra. }
      destruct (Hc (cross (direction line) (vsub point (base line))))
        as [Hlt Heq].
      split.
      * rewrite Hlt. destruct line as [[x0 y0] [dx dy]], point as [px py].
        unfold isPointLeftOfLine, far_end, cross. simpl.
        replace (x0 + dx - x0) with dx by ring.
        replace (y0 + dy - y0) with dy by ring.
        destruct (Rltb_spec 0 (dx * (py - y0) - dy * (px - x0)));
          split; intros H; try assumption; try reflexivity; try discriminate;
          contradiction.
      * rewrite Heq. clear Hlt Heq Hc.
        destruct line as [[x0 y0] [dx dy]], point as [px py].
        unfold cross, on_line, point_at, squaredNorm in *. simpl in *.
        split.
        -- intros Hc.
           exists (((px - x0) * dx + (py - y0) * dy) / (dx * dx + dy * dy)).
           f_equal.
           ++ transitivity (px + dy * (dx * (py - y0) - dy * (px - x0)) /
                                 (dx * dx + dy * dy));
                [rewrite Hc; field; lra | field; lra].
           ++ transitivity (py - dx * (dx * (py - y0) - dy * (px - x0)) /
                                 (dx * dx + dy * dy));
                [rewrite Hc; field; lra | field; lra].
        -- intros [t E]. injection E as -> ->. ring.
Qed.

(** The parameter [d] that the edge functions compute. *)
Lemma base_is_point_at (line : Line R) : base line = point_at line 0.
Proof.
  destruct line as [[x0 y0] [dx dy]]. unfold point_at. simpl. f_equal; ring.
Qed.

Lemma far_end_is_point_at (line : Line R) : far_end line = point_at line 1.
Proof.
  destruct line as [[x0 y0] [dx dy]]. unfold far_end, point_at, vadd. simpl.
  f_equal; ring.
Qed.

(** Along the line, the distance to [point] grows with the distance of the
    parameter from that of the foot of the perpendicular. *)
Lemma distance_along_line (line : Line R) (point : Vector2f R) (t u : R) :
  direction line <> mkVector2f 0 0 ->
  let d := dot (vsub point (base line)) (direction line) /
           squaredNorm (direction line) in
  (u - d) * (u - d) <= (t - d) * (t - d) ->
  distance point (point_at line u) <= distance point (point_at line t).
Proof.
  intros Hn d H. rewrite !distance_value. apply sqrt_le_1_alt.
  rewrite (foot_parameter line point u Hn), (foot_parameter line point t Hn).
  fold d. pose proof (nonzero_vector _ Hn) as Hz.
  apply Rplus_le_compat_l, Rmult_le_compat_l; lra.
Qed.

Lemma edge_distance_value (line : Line R) (point : Vector2f R) :
  direction line <> mkVector2f 0 0 ->
  let d := dot (vsub point (base line)) (direction line) /
           squaredNorm (direction line) in
  getDistanceToEdge line point =
  (if Rltb d 0 then distance point (base line)
   else if Rltb 1 d then distance point (far_end line)
        else getDistanceToLine line point,
   [squaredNorm (direction line)]).
Proof.
  intros Hn d. subst d.
  assert (Hg : Reqb (x (direction line)) 0 && Reqb (y (direction line)) 0
               = false).
  { destruct (_ && _) eqn:E; [|reflexivity].
    apply zero_direction_test in E. contradiction. }
  destruct line as [[x0 y0] [dx dy]], point as [px py].
  unfold getDistanceToEdge. simpl in Hg |- *. rewrite Hg.
  unfold squaredNorm, dot. simpl.
  repeat match goal with
         | |- context [Rltb ?a ?b] => destruct (Rltb a b)
         end; reflexivity.
Qed.

Lemma edge_distance_zero_direction (base0 point : Vector2f R) :
  getDistanceToEdge (mkLine base0 (mkVector2f 0 0)) point =
  (distance point base0, []).
Proof.
  unfold getDistanceToEdge. simpl.
  destruct (Reqb_spec 0 0); [reflexivity | lra].
Qed.

(** The nearest parameter in [[0,1]]. *)
Lemma nearest_on_edge (line : Line R) (point : Vector2f R) :
  direction line <> mkVector2f 0 0 ->
  let d := dot (vsub point (base line)) (direction line) /
           squaredNorm (direction line) in
  let c := if Rltb d 0 then 0 else if Rltb 1 d then 1 else d in
  0 <= c <= 1 /\
  value (getDistanceToEdge line point) = distance point (point_at line c) /\
  forall t, 0 <= t <= 1 ->
            distance point (point_at line c) <= distance point (point_at line t).
Proof.
  intros Hn d c. rewrite (edge_distance_value line point Hn). fold d.
  unfold value. cbn [fst]. subst c.
  destruct (Rltb_spec d 0) as [H0 | H0]; [|destruct (Rltb_spec 1 d) as [H1 | H1]].
  - split; [lra|]. split; [now rewrite <- base_is_point_at|].
    intros t Ht. apply distance_along_line; [exact Hn|]. fold d.
    assert (0 <= t * (t - 2 * d)) by (apply Rmult_le_pos; lra). lra.
  - split; [lra|]. split; [now rewrite <- far_end_is_point_at|].
    intros t Ht. apply distance_along_line; [exact Hn|]. fold d.
    assert (0 <= (1 - t) * (2 * d - t - 1)) by (apply Rmult_le_pos; lra). lra.
  - split; [lra|]. split; [now apply line_distance_attained|].
    intros t Ht. apply distance_along_line; [exact Hn|]. fold d.
    assert (0 <= (t - d) * (t - d)) by apply Rle_0_sqr. lra.
Qed.

(** The value of [getDistanceToEdge] is the least distance to the points of
    the edge, for every edge. *)
Lemma edge_distance_attained (line : Line R) (point : Vector2f R) :
  exists Q, on_edge line Q /\
            value (getDistanceToEdge line point) = distance point Q.
Proof.
  destruct (Req_dec_T (squaredNorm (direction line)) 0) as [Hz | Hz].
  - apply zero_direction_iff in Hz. destruct line as [base0 dir].
    simpl in Hz. subst dir. rewrite edge_distance_zero_direction.
    exists base0. split; [|reflexivity].
    exists 0. split; [lra|]. now rewrite point_at_zero_direction.
  - assert (Hn : direction line <> mkVector2f 0 0).
    { intros E. apply Hz. now apply zero_direction_iff. }
    destruct (nearest_on_edge line point Hn) as (Hc & Hv & _).
    eexists. split; [|exact Hv]. eexists. split; [exact Hc|reflexivity].
Qed.

Lemma edge_distance_lower (line : Line R) (point Q : Vector2f R) :
  on_edge line Q -> value (getDistanceToEdge line point) <= distance point Q.
Proof.
  destruct (Req_dec_T (squaredNorm (direction line)) 0) as [Hz | Hz].
  - apply zero_direction_iff in Hz. destruct line as [base0 dir].
    simpl in Hz. subst dir. rewrite edge_distance_zero_direction.
    intros (t & _ & ->). rewrite point_at_zero_direction.
    unfold value. cbn [fst]. apply Rle_refl.
  - assert (Hn : direction line <> mkVector2f 0 0).
    { intros E. apply Hz. now apply zero_direction_iff. }
    destruct (nearest_on_edge line point Hn) as (_ & Hv & Hmin).
    intros (t & Ht & ->). rewrite Hv. now apply Hmin.
Qed.

Lemma edge_distance_divisors (line : Line R) (point : Vector2f R) :
  Forall (fun d => d <> 0) (divisors (getDistanceToEdge line point)).
Proof.
  destruct (Req_dec_T (squaredNorm (direction line)) 0) as [Hz | Hz].
  - apply zero_direction_iff in Hz. destruct line as [base0 dir].
    simpl in Hz. subst dir. rewrite edge_distance_zero_direction.
    constructor.
  - assert (Hn : direction line <> mkVector2f 0 0).
    { intros E. apply Hz. now apply zero_direction_iff. }
    rewrite (edge_distance_value line point Hn). unfold divisors.
    cbn [snd]. repeat constructor. exact Hz.
Qed.

(** X13.  [getDistanceToEdge] over exact arithmetic is the distance from the
    point to the edge that starts at [base] and ends at [base + direction]:
    no point of the edge is nearer, and one point of the edge is exactly
    that far.  The only division has the squared length of the direction as
    its divisor and is not executed for a direction that is zero. *)
Theorem getDistanceToEdge_spec (line : Line R) (point : Vector2f R) :
  (forall Q, on_edge line Q ->
             value (getDistanceToEdge line point) <= distance point Q) /\
  (exists Q, on_edge line Q /\
             value (getDistanceToEdge line point) = distance point Q) /\
  Forall (fun d => d <> 0) (divisors (getDistanceToEdge line point)).
Proof.
  split; [intros Q; apply edge_distance_lower|].
  split; [apply edge_distance_attained | apply edge_distance_divisors].
Qed.

(** The projection on the line is the foot of the perpendicular. *)
Lemma projection_on_line_value (line : Line R) (point : Vector2f R) :
  direction line <> mkVector2f 0 0 ->
  getOrthogonalProjectionOfPointOnLine_Line line point =
  point_at line (dot (vsub point (base line)) (direction line) /
                 squaredNorm (direction line)).
Proof.
  intros Hn. pose proof (nonzero_vector _ Hn) as Hz.
  unfold getOrthogonalProjectionOfPointOnLine_Line.
  rewrite (normalized_nonzero _ Hn).
  destruct line as [[x0 y0] [dx dy]], point as [px py].
  unfold getOrthogonalProjectionOfPointOnLine, point_at, vadd, vscale, dot,
    squaredNorm in *.
  simpl in *.
  assert (Hs : 0 < sqrt (dx * dx + dy * dy)) by now apply sqrt_lt_R0.
  assert (Hss : sqrt (dx * dx + dy * dy) * sqrt (dx * dx + dy * dy) =
                dx * dx + dy * dy) by (apply sqrt_sqrt; lra).
  revert Hs Hss. generalize (sqrt (dx * dx + dy * dy)). intros s Hs Hss.
  rewrite <- Hss. f_equal; field; lra.
Qed.

(** X14.  [getOrthogonalProjectionOfPointOnLine] over exact arithmetic, for a
    line with a direction: the result lies on the line, the connection from
    it to the point is perpendicular to the direction, no point of the line
    is nearer to the point, and projecting the result again gives the result.
    The overload with three points expects a direction of length 1; with
    such a direction it has the same properties. *)
Theorem getOrthogonalProjectionOfPointOnLine_spec
        (line : Line R) (point : Vector2f R) :
  direction line <> mkVector2f 0 0 ->
  let Q := getOrthogonalProjectionOfPointOnLine_Line line point in
  on_line line Q /\
  dot (vsub point Q) (direction line) = 0 /\
  (forall Q', on_line line Q' -> distance point Q <= distance point Q') /\
  getOrthogonalProjectionOfPointOnLine_Line line Q = Q /\
  (squaredNorm (direction line) = 1 ->
   getOrthogonalProjectionOfPointOnLine (base line) (direction line) point
   = Q).
Proof.
  intros Hn Q. subst Q. pose proof (nonzero_vector _ Hn) as Hz.
  rewrite !(projection_on_line_value _ _ Hn).
  set (d := dot (vsub point (base line)) (direction line) /
            squaredNorm (direction line)).
  split; [eexists; reflexivity|]. split; [|split; [|split]].
  - subst d. destruct line as [[x0 y0] [dx dy]], point as [px py].
    unfold point_at, dot, squaredNorm in *. simpl in *. field. lra.
  - intros Q' [t ->]. apply distance_along_line; [exact Hn|]. fold d.
    assert (0 <= (t - d) * (t - d)) by apply Rle_0_sqr. lra.
  - f_equal. subst d. destruct line as [[x0 y0] [dx dy]], point as [px py].
    unfold point_at, dot, squaredNorm in *. simpl in *. field. lra.
  - intros H1. subst d. rewrite H1.
    destruct line as [[x0 y0] [dx dy]], point as [px py].
    unfold getOrthogonalProjectionOfPointOnLine, point_at, vadd, vscale, dot.
    simpl. f_equal; field.
Qed.

Lemma getOrthogonalProjectionOfPointOnLine_spec_witness :
  on_line (mkLine (mkVector2f 1 1) (mkVector2f 3 4))
          (getOrthogonalProjectionOfPointOnLine_Line
             (mkLine (mkVector2f 1 1) (mkVector2f 3 4)) (mkVector2f 5 (-2))) /\
  dot (vsub (mkVector2f 5 (-2))
            (getOrthogonalProjectionOfPointOnLine_Line
               (mkLine (mkVector2f 1 1) (mkVector2f 3 4))
               (mkVector2f 5 (-2))))
      (mkVector2f 3 4) = 0.
Proof.
  pose proof (getOrthogonalProjectionOfPointOnLine_spec
                (mkLine (mkVector2f 1 1) (mkVector2f 3 4))
                (mkVector2f 5 (-2))) as H.
  cbv zeta in H. destruct H as (H1 & H2 & _).
  - simpl. intros E. injection E as E1 E2. lra.
  - split; [exact H1 | exact H2].
Defined.

(** The projection on the edge is the nearest point of the edge. *)
Lemma projection_on_edge_value (line : Line R) (point : Vector2f R) :
  direction line <> mkVector2f 0 0 ->
  let d := dot (vsub point (base line)) (direction line) /
           squaredNorm (direction line) in
  getOrthogonalProjectionOfPointOnEdge_Line line point =
  (point_at line (if Rltb d 0 then 0 else if Rltb 1 d then 1 else d),
   [squaredNorm (direction line)]).
Proof.
  intros Hn d. pose proof (nonzero_vector _ Hn) as Hz.
  unfold getOrthogonalProjectionOfPointOnEdge_Line,
    getOrthogonalProjectionOfPointOnEdge.
  change (getOrthogonalProjectionOfPointOnLine
            (base line) (normalized (direction line)) point)
    with (getOrthogonalProjectionOfPointOnLine_Line line point).
  rewrite (projection_on_line_value _ _ Hn). fold d.
  assert (Hd : dot (vsub (point_at line d) (base line)) (direction line) /
               dot (direction line) (direction line) = d).
  { generalize d. intros e. destruct line as [[x0 y0] [dx dy]].
    unfold point_at, dot, squaredNorm in *. simpl in *. field. lra. }
  unfold bind, divide, ret. change (@fdiv R Rideal) with Rdiv.
  unfold Rdiv in Hd |- *. rewrite Hd.
  change (fltb d (of_int 0)) with (Rltb d 0).
  change (fltb (of_int 1) d) with (Rltb 1 d).
  destruct (Rltb d 0); [now rewrite <- base_is_point_at|].
  destruct (Rltb 1 d); [now rewrite <- far_end_is_point_at|reflexivity].
Qed.

(** X15.  [getOrthogonalProjectionOfPointOnEdge] over exact arithmetic, for
    an edge with a direction: the result is a point of the edge, its distance
    to the point is the value of [getDistanceToEdge], and no point of the
    edge is nearer. *)
Theorem getOrthogonalProjectionOfPointOnEdge_spec
        (line : Line R) (point : Vector2f R) :
  direction line <> mkVector2f 0 0 ->
  let Q := value (getOrthogonalProjectionOfPointOnEdge_Line line point) in
  on_edge line Q /\
  distance point Q = value (getDistanceToEdge line point) /\
  (forall Q', on_edge line Q' -> distance point Q <= distance point Q') /\
  Forall (fun d => d <> 0)
         (divisors (getOrthogonalProjectionOfPointOnEdge_Line line point)).
Proof.
  intros Hn Q. subst Q. rewrite (projection_on_edge_value line point Hn).
  unfold value, divisors at 1. cbn [fst snd].
  destruct (nearest_on_edge line point Hn) as (Hc & Hv & Hmin).
  split; [|split; [|split]].
  - eexists. split; [exact Hc | reflexivity].
  - symmetry. exact Hv.
  - intros Q' (t & Ht & ->). now apply Hmin.
  - repeat constructor. pose proof (nonzero_vector _ Hn). lra.
Qed.

Lemma getOrthogonalProjectionOfPointOnEdge_spec_witness :
  on_edge (mkLine (mkVector2f 0 0) (mkVector2f 2 0))
          (value (getOrthogonalProjectionOfPointOnEdge_Line
                    (mkLine (mkVector2f 0 0) (mkVector2f 2 0))
                    (mkVector2f 5 3))).
Proof.
  apply (getOrthogonalProjectionOfPointOnEdge_spec
           (mkLine (mkVector2f 0 0) (mkVector2f 2 0)) (mkVector2f 5 3)).
  intros E. injection E as E1. lra.
Defined.

Lemma zero_edge_example :
  getOrthogonalProjectionOfPointOnEdge (v32 1 2) (v32 0 0) (v32 5 3) =
  (v32 1 2, [f32 0]).
Proof. vm_compute. reflexivity. Qed.

(** X16.  [getOrthogonalProjectionOfPointOnEdge] has no test for an edge
    without direction, as [getDistanceToEdge] has: its division is executed
    with the divisor zero.  Over exact arithmetic the divisor is zero for
    every base and point; in binary32 the edge from (1,2) to (1,2) and the
    point (5,3) give the divisor 0 and the result (1,2). *)
Theorem getOrthogonalProjectionOfPointOnEdge_zero_direction :
  (forall base0 point : Vector2f R,
      exists d, divisors (getOrthogonalProjectionOfPointOnEdge
                            base0 (mkVector2f 0 0) point) = [d] /\ d = 0) /\
  (forall base0 point : Vector2f R,
      divisors (getDistanceToEdge (mkLine base0 (mkVector2f 0 0)) point)
      = []) /\
  getOrthogonalProjectionOfPointOnEdge (v32 1 2) (v32 0 0) (v32 5 3) =
  (v32 1 2, [f32 0]).
Proof.
  split; [|split; [|exact zero_edge_example]].
  - intros base0 point. eexists. split.
    + unfold getOrthogonalProjectionOfPointOnEdge, bind, divide, ret, divisors.
      cbn [fst snd].
      repeat match goal with
             | |- context [if ?c then _ else _] => destruct c
             end; reflexivity.
    + unfold dot. simpl. ring.
  - intros base0 point. now rewrite edge_distance_zero_direction.
Qed.

End DistanceAndProjection.

(* ================================================================== *)
(** * Rectangles with [float] points *)

Section Rectangles.
Local Open Scope R_scope.

Lemma Rleb_iff a b : Rleb a b = true <-> a <= b.
Proof. destruct (Rleb_spec a b); split; auto; discriminate. Qed.

Lemma Rltb_false a b : ~ a < b -> Rltb a b = false.
Proof. intros H. destruct (Rltb_spec a b); [contradiction | reflexivity]. Qed.

Lemma Rltb_true a b : a < b -> Rltb a b = true.
Proof. intros H. destruct (Rltb_spec a b); [reflexivity | contradiction]. Qed.

Lemma std_min_is_Rmin a b : std_min a b = Rmin a b.
Proof.
  unfold std_min, Rmin. simpl. destruct (Rltb_spec b a), (Rle_dec a b); lra.
Qed.

Lemma std_max_is_Rmax a b : std_max a b = Rmax a b.
Proof.
  unfold std_max, Rmax. simpl. destruct (Rltb_spec a b), (Rle_dec a b); lra.
Qed.

Lemma isPointInsideRectangle_iff (bottomLeft topRight point : Vector2f R) :
  isPointInsideRectangle bottomLeft topRight point = true <->
  x bottomLeft <= x point <= x topRight /\
  y bottomLeft <= y point <= y topRight.
Proof.
  unfold isPointInsideRectangle. simpl.
  rewrite !andb_true_iff, !Rleb_iff. tauto.
Qed.

Lemma isPointInsideRectangle2_iff (corner1 corner2 point : Vector2f R) :
  isPointInsideRectangle2 corner1 corner2 point = true <->
  Rmin (x corner1) (x corner2) <= x point <= Rmax (x corner1) (x corner2) /\
  Rmin (y corner1) (y corner2) <= y point <= Rmax (y corner1) (y corner2).
Proof.
  unfold isPointInsideRectangle2. rewrite isPointInsideRectangle_iff. simpl.
  now rewrite !std_min_is_Rmin, !std_max_is_Rmax.
Qed.

(** A centre inside the rectangle passes every test of the circle routine. *)
Lemma centre_inside (cp : Vector2f R) (r : R) (p1 p2 : Vector2f R) :
  0 <= r -> isPointInsideRectangle2 p1 p2 cp = true ->
  circleIntersectsAxisAlignedRectangle cp r p1 p2 = true.
Proof.
  intros Hr H. apply isPointInsideRectangle2_iff in H.
  rewrite circle_rectangle_normalised. cbv zeta.
  rewrite (Rltb_false (x cp) (Rmin (x p1) (x p2) - r)) by lra.
  rewrite (Rltb_false (Rmax (x p1) (x p2) + r) (x cp)) by lra.
  rewrite (Rltb_false (y cp) (Rmin (y p1) (y p2) - r)) by lra.
  rewrite (Rltb_false (Rmax (y p1) (y p2) + r) (y cp)) by lra.
  rewrite (Rltb_false (x cp) (Rmin (x p1) (x p2))) by lra.
  rewrite (Rltb_false (Rmax (x p1) (x p2)) (x cp)) by lra.
  reflexivity.
Qed.

(** X17.  Point-in-rectangle tests on [float] points over exact arithmetic.
    [isPointInsideRectangle2] holds exactly for the points of the closed box
    spanned by the two corners, whatever their order; the overload on [Rect]
    is the same test on the corners [a] and [b]; for corners in order it is
    [isPointInsideRectangle], which holds for no point when the corners are
    out of order along an axis.  A circle of radius 0 intersects the
    rectangle exactly when its centre is inside, and a circle whose centre is
    inside intersects it. *)
Theorem isPointInsideRectangle2_spec
        (corner1 corner2 point : Vector2f R) :
  (isPointInsideRectangle2 corner1 corner2 point = true <->
   Rmin (x corner1) (x corner2) <= x point <= Rmax (x corner1) (x corner2) /\
   Rmin (y corner1) (y corner2) <= y point <= Rmax (y corner1) (y corner2)) /\
  isPointInsideRectangle2 corner2 corner1 point =
  isPointInsideRectangle2 corner1 corner2 point /\
  isPointInsideRectangle_Rect (mkRect corner1 corner2) point =
  isPointInsideRectangle2 corner1 corner2 point /\
  (x corner1 <= x corner2 -> y corner1 <= y corner2 ->
   isPointInsideRectangle corner1 corner2 point =
   isPointInsideRectangle2 corner1 corner2 point) /\
  (x corner1 > x corner2 \/ y corner1 > y corner2 ->
   isPointInsideRectangle corner1 corner2 point = false) /\
  circleIntersectsAxisAlignedRectangle point 0 corner1 corner2 =
  isPointInsideRectangle2 corner1 corner2 point /\
  (forall r, 0 <= r -> isPointInsideRectangle2 corner1 corner2 point = true ->
             circleIntersectsAxisAlignedRectangle point r corner1 corner2
             = true).
Proof.
  split; [apply isPointInsideRectangle2_iff|].
  split.
  { apply eq_true_iff_eq. rewrite !isPointInsideRectangle2_iff.
    now rewrite (Rmin_comm (x corner2)), (Rmax_comm (x corner2)),
                (Rmin_comm (y corner2)), (Rmax_comm (y corner2)). }
  split; [reflexivity|].
  split.
  { intros Hx Hy. apply eq_true_iff_eq.
    rewrite isPointInsideRectangle2_iff, isPointInsideRectangle_iff.
    rewrite (Rmin_left _ _ Hx), (Rmax_right _ _ Hx),
            (Rmin_left _ _ Hy), (Rmax_right _ _ Hy). tauto. }
  split.
  { intros H. destruct (isPointInsideRectangle _ _ _) eqn:E; [|reflexivity].
    apply isPointInsideRectangle_iff in E. lra. }
  split; [|intros r; apply centre_inside].
  destruct (isPointInsideRectangle2 corner1 corner2 point) eqn:E.
  - apply centre_inside; [lra | exact E].
  - rewrite circle_rectangle_normalised. cbv zeta.
    destruct (Rltb_spec (x point) (Rmin (x corner1) (x corner2) - 0));
      [reflexivity|].
    destruct (Rltb_spec (Rmax (x corner1) (x corner2) + 0) (x point));
      [reflexivity|].
    destruct (Rltb_spec (y point) (Rmin (y corner1) (y corner2) - 0));
      [reflexivity|].
    destruct (Rltb_spec (Rmax (y corner1) (y corner2) + 0) (y point));
      [reflexivity|].
    assert (H : isPointInsideRectangle2 corner1 corner2 point = true)
      by (apply isPointInsideRectangle2_iff; lra).
    rewrite E in H. discriminate H.
Qed.

Lemma Rltb_IZR (m n : Z) : Rltb (IZR m) (IZR n) = (m <? n)%Z.
Proof.
  destruct (Rltb_spec (IZR m) (IZR n)) as [H | H], (Z.ltb_spec m n) as [L | L];
    try reflexivity; exfalso.
  - apply lt_IZR in H. lia.
  - apply H. now apply IZR_lt.
Qed.

(** Decide which argument every minimum and maximum of the goal is. *)
Ltac minmax_cases :=
  repeat match goal with
         | |- context [Rmin ?a ?b] =>
             destruct (Rle_dec a b);
             [rewrite (Rmin_left a b) by lra | rewrite (Rmin_right a b) by lra]
         end;
  repeat match goal with
         | |- context [Rmax ?a ?b] =>
             destruct (Rle_dec a b);
             [rewrite (Rmax_right a b) by lra | rewrite (Rmax_left a b) by lra]
         end.

Lemma clip_float_closed_form (blx bly trx try_ : Z) (px py : R) :
  (blx <= trx)%Z -> (bly <= try_)%Z ->
  clipPointInsideRectangle (Vector2i.mk blx bly) (Vector2i.mk trx try_)
                           (mkVector2f px py) =
  (negb (isPointInsideRectangle (cast_float (Vector2i.mk blx bly))
                                (cast_float (Vector2i.mk trx try_))
                                (mkVector2f px py)),
   mkVector2f (Rmax (IZR blx) (Rmin px (IZR trx)))
              (Rmax (IZR bly) (Rmin py (IZR try_)))).
Proof.
  intros Hx Hy. apply IZR_le in Hx, Hy.
  unfold clipPointInsideRectangle, isPointInsideRectangle, cast_float. simpl.
  minmax_cases;
    repeat match goal with
           | |- context [Rltb ?a ?b] => destruct (Rltb_spec a b); simpl
           | |- context [Rleb ?a ?b] => destruct (Rleb_spec a b); simpl
           end;
    try (exfalso; lra); do 2 f_equal; lra.
Qed.

(** X18.  [clipPointInsideRectangle] on a [float] point over exact
    arithmetic: for corners in order the clipped point lies inside the
    rectangle, the flag is false exactly for a point that was inside, such a
    point is left as it was, and clipping a second time changes nothing.
    On a point with integer coordinates the routine agrees with the overload
    on integer points, whatever the corners. *)
Theorem clipPointInsideRectangle_float_spec
        (bottomLeftCorner topRightCorner : Vector2i.t) :
  (forall point : Vector2f R,
      (Vector2i.x bottomLeftCorner <= Vector2i.x topRightCorner)%Z ->
      (Vector2i.y bottomLeftCorner <= Vector2i.y topRightCorner)%Z ->
      let clipped :=
        fst (clipPointInsideRectangle bottomLeftCorner topRightCorner point) in
      let point' :=
        snd (clipPointInsideRectangle bottomLeftCorner topRightCorner point) in
      isPointInsideRectangle (cast_float bottomLeftCorner)
                             (cast_float topRightCorner) point' = true /\
      (clipped = false <->
       isPointInsideRectangle (cast_float bottomLeftCorner)
                              (cast_float topRightCorner) point = true) /\
      (clipped = false -> point' = point) /\
      clipPointInsideRectangle bottomLeftCorner topRightCorner point'
      = (false, point')) /\
  (forall point : Vector2i.t,
      clipPointInsideRectangle (F := R) bottomLeftCorner topRightCorner
                               (cast_float point) =
      (fst (clipPointInsideRectangle_i bottomLeftCorner topRightCorner point),
       cast_float
         (snd (clipPointInsideRectangle_i bottomLeftCorner topRightCorner
                                          point)))).
Proof.
  destruct bottomLeftCorner as [blx bly], topRightCorner as [trx try_].
  split.
  - intros [px py]. simpl. intros Hx Hy.
    rewrite clip_float_closed_form by assumption. cbn [fst snd].
    rewrite clip_float_closed_form by assumption.
    pose proof (IZR_le _ _ Hx) as Hx'. pose proof (IZR_le _ _ Hy) as Hy'.
    assert (Hin : isPointInsideRectangle
                    (cast_float (Vector2i.mk blx bly))
                    (cast_float (Vector2i.mk trx try_))
                    (mkVector2f (Rmax (IZR blx) (Rmin px (IZR trx)))
                                (Rmax (IZR bly) (Rmin py (IZR try_)))) = true).
    { apply isPointInsideRectangle_iff. simpl.
      minmax_cases; lra. }
    split; [exact Hin|]. split; [|split].
    + now rewrite negb_false_iff.
    + rewrite negb_false_iff, isPointInsideRectangle_iff. simpl.
      intros H. rewrite (Rmin_left px), (Rmin_left py) by lra.
      rewrite !Rmax_right by lra. reflexivity.
    + rewrite Hin. simpl. f_equal.
      apply isPointInsideRectangle_iff in Hin. simpl in Hin.
      set (qx := Rmax (IZR blx) (Rmin px (IZR trx))) in *.
      set (qy := Rmax (IZR bly) (Rmin py (IZR try_))) in *.
      rewrite (Rmin_left qx), (Rmin_left qy) by lra.
      rewrite !Rmax_right by lra. reflexivity.
  - intros [px py].
    unfold clipPointInsideRectangle, clipPointInsideRectangle_i, cast_float.
    cbn [Vector2i.x Vector2i.y x y of_int Rideal fltb].
    repeat (rewrite ?Rltb_IZR, ?Z.gtb_ltb;
            match goal with
            | |- context [if (?a <? ?b)%Z then _ else _] =>
                destruct (a <? b)%Z
            end;
            cbn [fst snd x y Vector2i.x Vector2i.y]);
      reflexivity.
Qed.

Lemma clipPointInsideRectangle_float_spec_witness :
  isPointInsideRectangle
    (cast_float (Vector2i.mk 0 0)) (cast_float (Vector2i.mk 10 10))
    (snd (clipPointInsideRectangle (Vector2i.mk 0 0) (Vector2i.mk 10 10)
                                   (mkVector2f (-5 / 2) 15))) = true.
Proof.
  apply (proj1 (clipPointInsideRectangle_float_spec
                  (Vector2i.mk 0 0) (Vector2i.mk 10 10))
               (mkVector2f (-5 / 2) 15)); simpl; lia.
Defined.

End Rectangles.

(* ================================================================== *)
(** * Point in polygon by counting crossings *)

Section Crossings.
Context {F : Type} {ops : FloatOps F}.

Lemma value_bind {A B : Type} (m : @Div F A) (k : A -> @Div F B) :
  value (bind m k) = value (k (value m)).
Proof.
  unfold value, bind. destruct m as [a ds]. simpl. now destruct (k a).
Qed.

Lemma divisors_bind {A B : Type} (m : @Div F A) (k : A -> @Div F B) :
  divisors (bind m k) = divisors m ++ divisors (k (value m)).
Proof.
  unfold value, divisors, bind. destruct m as [a ds]. simpl.
  now destruct (k a).
Qed.

Lemma at_index_nat (V : list (Vector2f F)) (i : nat) :
  at_index V (Z.of_nat i) = nth_error V i.
Proof.
  unfold at_index. destruct (Z.ltb_spec (Z.of_nat i) 0); [lia|].
  now rewrite Nat2Z.id.
Qed.

Lemma nth_error_last (pre : list (Vector2f F)) (d : Vector2f F) :
  pre <> [] -> nth_error pre (length pre - 1) = Some (last pre d).
Proof.
  intros Hne. destruct (exists_last Hne) as (front & v & ->).
  rewrite last_last, length_app. simpl.
  replace (length front + 1 - 1)%nat with (length front) by lia.
  rewrite nth_error_app2 by lia. now rewrite Nat.sub_diag.
Qed.

(** The loop body flips the flag of the edges that toggle. *)
Lemma crossing_test_value (point Vi Vj : Vector2f F) (oddNodes : bool) :
  value (crossing_test point Vi Vj oddNodes) =
  xorb oddNodes (toggles point Vi Vj).
Proof.
  unfold toggles, crossing_test.
  match goal with |- context [if ?c then _ else _] => destruct c end.
  - rewrite !value_bind.
    match goal with |- context [if ?c then _ else _] => destruct c end;
      simpl; now destruct oddNodes.
  - simpl. now destruct oddNodes.
Qed.

(** From the second vertex on, the loop pairs every vertex with the one
    before it, and no read leaves the vector. *)
Lemma crossing_loop_run (point d : Vector2f F) :
  forall (suf pre : list (Vector2f F)) (oddNodes : bool),
    pre <> [] ->
    value (crossing_loop (pre ++ suf) point
                         (map Z.of_nat (seq (length pre) (length suf)))
                         (Z.of_nat (length pre) - 1) oddNodes) =
    Some (fold_left xorb
                    (map (fun e => toggles point (fst e) (snd e))
                         (adjacent (last pre d :: suf)))
                    oddNodes).
Proof.
  induction suf as [|v suf IH]; intros pre oddNodes Hne; [reflexivity|].
  cbn [length seq map crossing_loop].
  rewrite at_index_nat, nth_error_app2, Nat.sub_diag by lia.
  cbn [nth_error].
  assert (Hlen : (0 < length pre)%nat) by (destruct pre; [easy | simpl; lia]).
  replace (Z.of_nat (length pre) - 1) with (Z.of_nat (length pre - 1)) by lia.
  rewrite at_index_nat, nth_error_app1 by lia.
  rewrite (nth_error_last pre d Hne).
  rewrite value_bind, crossing_test_value.
  specialize (IH (pre ++ [v]) (xorb oddNodes (toggles point v (last pre d)))).
  rewrite <- app_assoc, length_app, last_last in IH. simpl in IH.
  replace (length pre + 1)%nat with (S (length pre)) in IH by lia.
  replace (Z.of_nat (S (length pre)) - 1) with (Z.of_nat (length pre)) in IH
    by lia.
  rewrite IH by (now destruct pre). reflexivity.
Qed.

Lemma size_as_int_small (V : list (Vector2f F)) :
  Z.of_nat (length V) <= Int.max_int ->
  size_as_int V = Z.of_nat (length V).
Proof.
  unfold size_as_int, Int.wrap, Int.max_int. intros H.
  rewrite Z.mod_small by lia. lia.
Qed.

(** The value of [isPointInsidePolygon]: whether an odd number of the edges
    of the closed polygon toggle. *)
Lemma isPointInsidePolygon_value (point : Vector2f F) (V : list (Vector2f F)) :
  Z.of_nat (length V) <= Int.max_int ->
  value (isPointInsidePolygon point V) =
  Some (odd_count (map (fun e => toggles point (fst e) (snd e))
                       (adjacent (closed_path V)))).
Proof.
  intros Hlen. unfold isPointInsidePolygon.
  rewrite (size_as_int_small V Hlen).
  destruct V as [|v0 rest]; [reflexivity|].
  unfold indices_from_0. rewrite Nat2Z.id.
  assert (Hsub : Int.sub (Z.of_nat (length (v0 :: rest))) 1 =
                 Z.of_nat (length (v0 :: rest) - 1)).
  { unfold Int.sub, Int.wrap, Int.max_int in *. simpl length in *.
    rewrite Z.mod_small by lia. lia. }
  rewrite Hsub.
  assert (Hlast : at_index (v0 :: rest)
                           (Z.of_nat (length (v0 :: rest) - 1)) =
                  Some (last (v0 :: rest) v0)).
  { rewrite at_index_nat. now apply nth_error_last. }
  cbn [length seq map crossing_loop] in Hlast |- *.
  rewrite Hlast, (at_index_nat (v0 :: rest) 0). cbn [nth_error].
  rewrite value_bind, crossing_test_value.
  pose proof (crossing_loop_run point v0 rest [v0]
                (xorb false (toggles point v0 (last (v0 :: rest) v0)))) as H.
  cbn [length app] in H. change (Z.of_nat 1 - 1) with (Z.of_nat 0) in H.
  rewrite H by discriminate. reflexivity.
Qed.

Lemma fold_xorb (l : list bool) (acc : bool) :
  fold_left xorb l acc = xorb acc (odd_count l).
Proof.
  unfold odd_count. revert acc.
  induction l as [|b l IH]; intros acc; simpl; [now rewrite xorb_false_r|].
  rewrite IH, (IH b). now rewrite xorb_assoc.
Qed.

Lemma odd_count_cons (b : bool) (l : list bool) :
  odd_count (b :: l) = xorb b (odd_count l).
Proof. unfold odd_count at 1. simpl. apply fold_xorb. Qed.

Lemma odd_count_app (l m : list bool) :
  odd_count (l ++ m) = xorb (odd_count l) (odd_count m).
Proof.
  induction l as [|b l IH].
  - change (odd_count m = xorb false (odd_count m)).
    now rewrite xorb_false_l.
  - simpl. rewrite !odd_count_cons, IH. now rewrite xorb_assoc.
Qed.

Lemma odd_count_rev (l : list bool) : odd_count (rev l) = odd_count l.
Proof.
  induction l as [|b l IH]; [reflexivity|].
  simpl. rewrite odd_count_app, !odd_count_cons, IH.
  change (odd_count []) with false. rewrite xorb_false_r. apply xorb_comm.
Qed.

Lemma adjacent_app (l : list (Vector2f F)) (b : Vector2f F)
      (m : list (Vector2f F)) :
  adjacent (l ++ b :: m) = adjacent (l ++ [b]) ++ adjacent (b :: m).
Proof.
  induction l as [|a l IH]; [reflexivity|].
  destruct l as [|c l]; [reflexivity|].
  change (adjacent ((a :: c :: l) ++ b :: m))
    with ((c, a) :: adjacent ((c :: l) ++ b :: m)).
  rewrite IH. reflexivity.
Qed.

Lemma last_indep (l : list (Vector2f F)) (d d' : Vector2f F) :
  l <> [] -> last l d = last l d'.
Proof.
  intros H. destruct (exists_last H) as (front & v & ->).
  now rewrite !last_last.
Qed.

Lemma last_app_r (l m : list (Vector2f F)) (d : Vector2f F) :
  m <> [] -> last (l ++ m) d = last m d.
Proof.
  intros H. destruct (exists_last H) as (front & v & ->).
  now rewrite app_assoc, !last_last.
Qed.

(** The edges of a closed polygon, split where the vertex list is cut. *)
Lemma closed_path_app (l1 l2 : list (Vector2f F)) (d : Vector2f F) :
  l1 <> [] -> l2 <> [] ->
  adjacent (closed_path (l1 ++ l2)) =
  adjacent (last l2 d :: l1) ++ adjacent (last l1 d :: l2).
Proof.
  intros H1 H2. unfold closed_path.
  destruct (l1 ++ l2) as [|v rest] eqn:E.
  { apply app_eq_nil in E. now destruct E. }
  rewrite <- E. rewrite (last_app_r l1 l2 v H2), (last_indep l2 v d H2).
  destruct (exists_last H1) as (front & z & ->).
  rewrite last_last, <- app_assoc. simpl app.
  change (last l2 d :: front ++ z :: l2)
    with ((last l2 d :: front) ++ z :: l2).
  rewrite adjacent_app. reflexivity.
Qed.

Lemma rotation_invariant (point : Vector2f F) (l1 l2 : list (Vector2f F)) :
  Z.of_nat (length (l1 ++ l2)) <= Int.max_int ->
  value (isPointInsidePolygon point (l1 ++ l2)) =
  value (isPointInsidePolygon point (l2 ++ l1)).
Proof.
  intros Hlen.
  destruct l1 as [|a l1]; [now rewrite app_nil_r|].
  destruct l2 as [|b l2]; [now rewrite app_nil_r|].
  rewrite !isPointInsidePolygon_value
    by (rewrite ?length_app in *; simpl in *; lia).
  rewrite (closed_path_app (a :: l1) (b :: l2) a) by discriminate.
  rewrite (closed_path_app (b :: l2) (a :: l1) a) by discriminate.
  rewrite !map_app, !odd_count_app. f_equal. apply xorb_comm.
Qed.

Lemma adjacent_snoc (l : list (Vector2f F)) (b d : Vector2f F) :
  l <> [] -> adjacent (l ++ [b]) = adjacent l ++ [(b, last l d)].
Proof.
  intros H. destruct (exists_last H) as (front & z & ->).
  rewrite last_last, <- app_assoc. simpl app. now rewrite adjacent_app.
Qed.

Lemma adjacent_rev (path : list (Vector2f F)) :
  adjacent (rev path) = map (fun e => (snd e, fst e)) (rev (adjacent path)).
Proof.
  induction path as [|a path IH]; [reflexivity|].
  destruct path as [|c path]; [reflexivity|].
  change (rev (a :: c :: path)) with (rev (c :: path) ++ [a]).
  rewrite (adjacent_snoc _ a a).
  2:{ simpl. intros E. apply app_eq_nil in E. now destruct E. }
  rewrite IH.
  change (adjacent (a :: c :: path)) with ((c, a) :: adjacent (c :: path)).
  simpl rev at 3. rewrite map_app. simpl map at 2.
  do 3 f_equal. simpl. now rewrite last_last.
Qed.

Lemma closed_path_nonempty (V : list (Vector2f F)) (d : Vector2f F) :
  V <> [] -> closed_path V = last V d :: V.
Proof.
  destruct V as [|v V]; [easy|]. intros _. unfold closed_path.
  f_equal. now apply last_indep.
Qed.

End Crossings.

Section CrossingsInSpace.
Context {F : Type} {ops : FloatOps F}.

Lemma at_index3_xy (V : list (Vector3f F)) (i : Z) :
  at_index (map xy V) i = option_map xy (at_index3 V i).
Proof.
  unfold at_index, at_index3. destruct (i <? 0); [reflexivity|].
  apply nth_error_map.
Qed.

Lemma crossing_loop3_xy (V : list (Vector3f F)) (point : Vector3f F) :
  forall (todo : list Z) (j : Z) (oddNodes : bool),
    crossing_loop3 V point todo j oddNodes =
    crossing_loop (map xy V) (xy point) todo j oddNodes.
Proof.
  induction todo as [|i todo IH]; intros j oddNodes; [reflexivity|].
  simpl. rewrite !at_index3_xy.
  destruct (at_index3 V i) as [Vi|]; [|reflexivity].
  destruct (at_index3 V j) as [Vj|]; [|reflexivity].
  simpl. change (crossing_test3 point Vi Vj oddNodes)
    with (crossing_test (xy point) (xy Vi) (xy Vj) oddNodes).
  destruct (crossing_test (xy point) (xy Vi) (xy Vj) oddNodes) as [o ds].
  unfold bind. now rewrite IH.
Qed.

End CrossingsInSpace.

Section CrossingsReal.
Local Open Scope R_scope.

(** Over the reals an edge toggles when its two ends lie on different sides
    of the horizontal line through the point and the edge meets that line
    left of the point. *)
Lemma toggles_real (point Vi Vj : Vector2f R) :
  toggles point Vi Vj =
  xorb (Rltb (y Vi) (y point)) (Rltb (y Vj) (y point)) &&
  Rltb (x Vi + (y point - y Vi) / (y Vj - y Vi) * (x Vj - x Vi)) (x point).
Proof.
  destruct point as [px py], Vi as [xi yi], Vj as [xj yj].
  unfold toggles, crossing_test. simpl.
  destruct (Rltb_spec yi py), (Rltb_spec yj py), (Rleb_spec py yi),
    (Rleb_spec py yj); simpl; try lra;
    match goal with
    | |- context [Rltb ?a ?b] => destruct (Rltb a b)
    end; reflexivity.
Qed.

Lemma toggles_sym (point Vi Vj : Vector2f R) :
  toggles point Vi Vj = toggles point Vj Vi.
Proof.
  rewrite !toggles_real.
  rewrite (xorb_comm (Rltb (y Vj) (y point))).
  destruct (xorb (Rltb (y Vi) (y point)) (Rltb (y Vj) (y point))) eqn:E;
    [|reflexivity].
  simpl. f_equal.
  assert (Hne : y Vi <> y Vj).
  { intros Heq. rewrite Heq in E. now rewrite xorb_nilpotent in E. }
  field. lra.
Qed.

Lemma crossing_test_divisors (point Vi Vj : Vector2f R) (oddNodes : bool) :
  Forall (fun d => d <> 0) (divisors (crossing_test point Vi Vj oddNodes)).
Proof.
  destruct point as [px py], Vi as [xi yi], Vj as [xj yj].
  unfold crossing_test. simpl.
  destruct (Rltb_spec yi py), (Rltb_spec yj py), (Rleb_spec py yi),
    (Rleb_spec py yj); simpl; try lra; try constructor;
    match goal with
    | |- context [Rltb ?a ?b] => destruct (Rltb a b)
    end; simpl; repeat constructor; lra.
Qed.

Lemma crossing_loop_divisors (V : list (Vector2f R)) (point : Vector2f R) :
  forall (todo : list Z) (j : Z) (oddNodes : bool),
    Forall (fun d => d <> 0)
           (divisors (crossing_loop V point todo j oddNodes)).
Proof.
  induction todo as [|i todo IH]; intros j oddNodes; [constructor|].
  simpl. destruct (at_index V i) as [Vi|]; [|constructor].
  destruct (at_index V j) as [Vj|]; [|constructor].
  rewrite divisors_bind. apply Forall_app. split.
  - apply crossing_test_divisors.
  - apply IH.
Qed.

Lemma reversal_invariant (point v0 : Vector2f R) (V' : list (Vector2f R)) :
  odd_count (map (fun e => toggles point (fst e) (snd e))
                 (adjacent (closed_path (rev (v0 :: V'))))) =
  odd_count (map (fun e => toggles point (fst e) (snd e))
                 (adjacent (closed_path (v0 :: V')))).
Proof.
  set (f := fun e : Vector2f R * Vector2f R => toggles point (fst e) (snd e)).
  rewrite (closed_path_nonempty (rev (v0 :: V')) v0).
  2:{ simpl. intros E. apply app_eq_nil in E. now destruct E. }
  change (rev (v0 :: V')) with (rev V' ++ [v0]) at 1. rewrite last_last.
  change (v0 :: rev (v0 :: V')) with (rev [v0] ++ rev (v0 :: V')).
  rewrite <- rev_app_distr, adjacent_rev.
  rewrite (adjacent_snoc (v0 :: V') v0 v0) by discriminate.
  rewrite map_map.
  rewrite (map_ext (fun e => f (snd e, fst e)) f).
  2:{ intros [u w]. unfold f. simpl. apply toggles_sym. }
  rewrite map_rev, odd_count_rev, map_app, odd_count_app.
  rewrite (closed_path_nonempty (v0 :: V') v0) by discriminate.
  change (adjacent (last (v0 :: V') v0 :: v0 :: V'))
    with ((v0, last (v0 :: V') v0) :: adjacent (v0 :: V')).
  cbn [map]. rewrite !odd_count_cons.
  change (odd_count []) with false. rewrite xorb_false_r. apply xorb_comm.
Qed.

End CrossingsReal.

(** X19.  [isPointInsidePolygon] in every arithmetic, for a vector whose size
    fits into [int]: no read leaves the vector, and the result tells whether
    an odd number of the edges of the closed polygon (every vertex with its
    predecessor, the first with the last) toggle the flag; on the empty
    vector the result is false.  Over exact arithmetic no division has the
    divisor zero. *)
Theorem isPointInsidePolygon_runs :
  (forall (F : Type) (ops : FloatOps F) (point : Vector2f F)
          (V : list (Vector2f F)),
      Z.of_nat (length V) <= Int.max_int ->
      value (isPointInsidePolygon point V) =
      Some (odd_count (map (fun e => toggles point (fst e) (snd e))
                           (adjacent (closed_path V))))) /\
  (forall (F : Type) (ops : FloatOps F) (point : Vector2f F),
      isPointInsidePolygon point [] = ret (Some false)) /\
  (forall (point : Vector2f R) (V : list (Vector2f R)),
      Forall (fun d => d <> 0%R) (divisors (isPointInsidePolygon point V))).
Proof.
  split; [|split].
  - intros F ops point V. apply isPointInsidePolygon_value.
  - reflexivity.
  - intros point V. apply crossing_loop_divisors.
Qed.

Lemma isPointInsidePolygon_runs_witness :
  value (isPointInsidePolygon (mkVector2f half32 half32) unit_square32)
  = Some true.
Proof.
  rewrite (proj1 isPointInsidePolygon_runs); [|vm_compute; discriminate].
  vm_compute. reflexivity.
Defined.

(** X20.  The result of [isPointInsidePolygon] does not depend on the vertex
    the polygon starts with, in every arithmetic, nor, over exact
    arithmetic, on the sense in which the vertices are listed. *)
Theorem isPointInsidePolygon_any_start :
  (forall (F : Type) (ops : FloatOps F) (point : Vector2f F)
          (l1 l2 : list (Vector2f F)),
      Z.of_nat (length (l1 ++ l2)) <= Int.max_int ->
      value (isPointInsidePolygon point (l1 ++ l2)) =
      value (isPointInsidePolygon point (l2 ++ l1))) /\
  (forall (point : Vector2f R) (V : list (Vector2f R)),
      Z.of_nat (length V) <= Int.max_int ->
      value (isPointInsidePolygon point (rev V)) =
      value (isPointInsidePolygon point V)).
Proof.
  split; [intros F ops; apply rotation_invariant|].
  intros point V Hlen.
  rewrite !isPointInsidePolygon_value by (now rewrite ?length_rev).
  f_equal. destruct V as [|v0 V']; [reflexivity|].
  apply reversal_invariant.
Qed.

(** X21.  [isPointInsidePolygon] on [Vector3f] ignores [z] in every
    arithmetic: it is [isPointInsidePolygon] on the [x] and [y] of the point
    and of the vertices, with the same divisions. *)
Theorem isPointInsidePolygon3_ignores_z :
  forall (F : Type) (ops : FloatOps F) (point : Vector3f F)
         (V : list (Vector3f F)),
    isPointInsidePolygon3 point V =
    isPointInsidePolygon (xy point) (map xy V).
Proof.
  intros F ops point V. unfold isPointInsidePolygon3, isPointInsidePolygon.
  unfold size_as_int. rewrite length_map. apply crossing_loop3_xy.
Qed.

Section PolygonFacts.
Local Open Scope R_scope.

(** X22.  [isPointInsidePolygon] over exact arithmetic on the rectangle with
    the vertices (x0,y0), (x1,y0), (x1,y1), (x0,y1), where x0 < x1 and
    y0 < y1: the result is true exactly for the points with x0 < x <= x1 and
    y0 < y <= y1.  The right and the top side belong to the inside, the left
    and the bottom side do not. *)
Theorem isPointInsidePolygon_rectangle (x0 y0 x1 y1 : R) (point : Vector2f R) :
  x0 < x1 -> y0 < y1 ->
  value (isPointInsidePolygon
           point
           [mkVector2f x0 y0; mkVector2f x1 y0;
            mkVector2f x1 y1; mkVector2f x0 y1]) =
  Some (Rltb x0 (x point) && Rleb (x point) x1 &&
        Rltb y0 (y point) && Rleb (y point) y1).
Proof.
  intros Hx Hy. destruct point as [px py].
  rewrite isPointInsidePolygon_value
    by (simpl; unfold Int.max_int; lia).
  f_equal. cbn [closed_path last adjacent map fst snd].
  rewrite !toggles_real. cbn [x y].
  rewrite !xorb_nilpotent. cbn [andb].
  replace (x0 + (py - y0) / (y1 - y0) * (x0 - x0)) with x0 by (field; lra).
  replace (x1 + (py - y1) / (y0 - y1) * (x1 - x1)) with x1 by (field; lra).
  unfold odd_count. cbn [fold_left].
  destruct (Rltb_spec y0 py), (Rltb_spec y1 py), (Rleb_spec py y1),
    (Rltb_spec x0 px), (Rltb_spec x1 px), (Rleb_spec px x1);
    simpl; try reflexivity; lra.
Qed.

Lemma isPointInsidePolygon_rectangle_witness :
  value (isPointInsidePolygon
           (mkVector2f 0 1)
           [mkVector2f 0 0; mkVector2f 2 0; mkVector2f 2 2; mkVector2f 0 2])
  = Some false /\
  value (isPointInsidePolygon
           (mkVector2f 2 1)
           [mkVector2f 0 0; mkVector2f 2 0; mkVector2f 2 2; mkVector2f 0 2])
  = Some true.
Proof.
  split.
  - rewrite (isPointInsidePolygon_rectangle 0 0 2 2 (mkVector2f 0 1))
      by lra.
    simpl. destruct (Rltb_spec 0 0); [lra | reflexivity].
  - rewrite (isPointInsidePolygon_rectangle 0 0 2 2 (mkVector2f 2 1))
      by lra.
    simpl.
    destruct (Rltb_spec 0 2), (Rleb_spec 2 2), (Rltb_spec 0 1),
      (Rleb_spec 1 2); simpl; try reflexivity; lra.
Defined.

Lemma adjacent_In (path : list (Vector2f R)) (a b : Vector2f R) :
  In (a, b) (adjacent path) -> In a path /\ In b path.
Proof.
  induction path as [|c path IH]; [contradiction|].
  destruct path as [|e path]; [contradiction|].
  change (adjacent (c :: e :: path)) with ((e, c) :: adjacent (e :: path)).
  intros [E | H].
  - injection E as -> ->. split; [right; now left | now left].
  - destruct (IH H) as [Ha Hb]. split; now right.
Qed.

Lemma closed_path_In (V : list (Vector2f R)) (v : Vector2f R) :
  In v (closed_path V) -> In v V.
Proof.
  destruct V as [|v0 V]; [contradiction|].
  unfold closed_path. intros [E | H]; [|exact H].
  subst v. destruct (exists_last (l := v0 :: V)) as (front & z & E);
    [discriminate|].
  rewrite E, last_last. apply in_or_app. right. now left.
Qed.

Lemma odd_count_all_false (flags : list bool) :
  (forall flag, In flag flags -> flag = false) -> odd_count flags = false.
Proof.
  induction flags as [|flag flags IH]; intros H; [reflexivity|].
  rewrite odd_count_cons, (H flag) by now left.
  rewrite IH by (intros g Hg; apply H; now right). reflexivity.
Qed.

(** Around a closed path the side of the horizontal line changes an even
    number of times. *)
Lemma side_changes (f : Vector2f R -> bool) (d : Vector2f R) :
  forall path : list (Vector2f R),
    odd_count (map (fun e => xorb (f (fst e)) (f (snd e))) (adjacent path)) =
    xorb (f (hd d path)) (f (last path d)).
Proof.
  induction path as [|a path IH]; [now rewrite xorb_nilpotent|].
  destruct path as [|c path]; [simpl; now rewrite xorb_nilpotent|].
  change (adjacent (a :: c :: path)) with ((c, a) :: adjacent (c :: path)).
  cbn [map fst snd]. rewrite odd_count_cons, IH.
  change (last (a :: c :: path) d) with (last (c :: path) d).
  cbn [hd]. now destruct (f a), (f c), (f (last (c :: path) d)).
Qed.

(** An edge toggles only if the point is right of one of its ends, and it
    toggles whenever its ends lie on different sides of the horizontal line
    and left of the point. *)
Lemma toggles_left_of_point (point Vi Vj : Vector2f R) :
  x point <= x Vi -> x point <= x Vj -> toggles point Vi Vj = false.
Proof.
  destruct point as [px py], Vi as [xi yi], Vj as [xj yj]. simpl.
  intros Hi Hj. rewrite toggles_real. simpl.
  destruct (Rltb_spec yi py) as [Bi | Bi], (Rltb_spec yj py) as [Bj | Bj];
    simpl; try reflexivity; apply Rltb_false.
  - assert (Hd : 0 < yj - yi) by lra.
    assert (Hq : 0 <= (py - yi) / (yj - yi) <= 1).
    { split.
      - apply Rmult_le_pos; [lra | left; now apply Rinv_0_lt_compat].
      - apply quotient_le; lra. }
    revert Hq. generalize ((py - yi) / (yj - yi)). intros q Hq.
    assert (0 <= (1 - q) * (xi - px)) by (apply Rmult_le_pos; lra).
    assert (0 <= q * (xj - px)) by (apply Rmult_le_pos; lra).
    lra.
  - assert (Hd : 0 < yi - yj) by lra.
    assert (Hq : 0 <= (yi - py) / (yi - yj) <= 1).
    { split.
      - apply Rmult_le_pos; [lra | left; now apply Rinv_0_lt_compat].
      - apply quotient_le; lra. }
    replace ((py - yi) / (yj - yi)) with ((yi - py) / (yi - yj))
      by (field; lra).
    revert Hq. generalize ((yi - py) / (yi - yj)). intros q Hq.
    assert (0 <= (1 - q) * (xi - px)) by (apply Rmult_le_pos; lra).
    assert (0 <= q * (xj - px)) by (apply Rmult_le_pos; lra).
    lra.
Qed.

Lemma toggles_right_of_point (point Vi Vj : Vector2f R) :
  x Vi < x point -> x Vj < x point ->
  toggles point Vi Vj =
  xorb (Rltb (y Vi) (y point)) (Rltb (y Vj) (y point)).
Proof.
  destruct point as [px py], Vi as [xi yi], Vj as [xj yj]. simpl.
  intros Hi Hj. rewrite toggles_real. simpl.
  destruct (Rltb_spec yi py) as [Bi | Bi], (Rltb_spec yj py) as [Bj | Bj];
    simpl; try reflexivity; apply Rltb_true.
  - assert (Hd : 0 < yj - yi) by lra.
    assert (Hq : 0 <= (py - yi) / (yj - yi) <= 1).
    { split.
      - apply Rmult_le_pos; [lra | left; now apply Rinv_0_lt_compat].
      - apply quotient_le; lra. }
    revert Hq. generalize ((py - yi) / (yj - yi)). intros q Hq.
    assert (0 <= (1 - q) * (px - xi)) by (apply Rmult_le_pos; lra).
    assert (0 <= q * (px - xj)) by (apply Rmult_le_pos; lra).
    destruct (Rle_lt_dec q (1 / 2)).
    + assert (0 < (1 - q) * (px - xi)) by (apply Rmult_lt_0_compat; lra). lra.
    + assert (0 < q * (px - xj)) by (apply Rmult_lt_0_compat; lra). lra.
  - assert (Hd : 0 < yi - yj) by lra.
    assert (Hq : 0 <= (yi - py) / (yi - yj) <= 1).
    { split.
      - apply Rmult_le_pos; [lra | left; now apply Rinv_0_lt_compat].
      - apply quotient_le; lra. }
    replace ((py - yi) / (yj - yi)) with ((yi - py) / (yi - yj))
      by (field; lra).
    revert Hq. generalize ((yi - py) / (yi - yj)). intros q Hq.
    assert (0 <= (1 - q) * (px - xi)) by (apply Rmult_le_pos; lra).
    assert (0 <= q * (px - xj)) by (apply Rmult_le_pos; lra).
    destruct (Rle_lt_dec q (1 / 2)).
    + assert (0 < (1 - q) * (px - xi)) by (apply Rmult_lt_0_compat; lra). lra.
    + assert (0 < q * (px - xj)) by (apply Rmult_lt_0_compat; lra). lra.
Qed.

(** X23.  [isPointInsidePolygon] over exact arithmetic, for any polygon: a
    point that is not above the lowest vertex, or above all vertices, or not
    right of the leftmost vertex, or right of all vertices, is outside. *)
Theorem isPointInsidePolygon_outside_box
        (point : Vector2f R) (V : list (Vector2f R)) :
  (Z.of_nat (length V) <= Int.max_int)%Z ->
  Forall (fun v => y point <= y v) V \/ Forall (fun v => y v < y point) V \/
  Forall (fun v => x point <= x v) V \/ Forall (fun v => x v < x point) V ->
  value (isPointInsidePolygon point V) = Some false.
Proof.
  intros Hlen Hbox. rewrite (isPointInsidePolygon_value point V Hlen).
  f_equal. rewrite !Forall_forall in Hbox.
  assert (Hin : forall a b, In (a, b) (adjacent (closed_path V)) ->
                            In a V /\ In b V).
  { intros a b H. apply adjacent_In in H. destruct H as [Ha Hb].
    split; now apply closed_path_In. }
  destruct Hbox as [H | [H | [H | H]]].
  - apply odd_count_all_false. intros flag Hf. apply in_map_iff in Hf.
    destruct Hf as ([a b] & <- & Hab). destruct (Hin a b Hab) as [Ha Hb].
    cbn [fst snd]. rewrite toggles_real.
    rewrite (Rltb_false (y a)), (Rltb_false (y b)); [reflexivity | |].
    + apply Rle_not_lt. now apply H.
    + apply Rle_not_lt. now apply H.
  - apply odd_count_all_false. intros flag Hf. apply in_map_iff in Hf.
    destruct Hf as ([a b] & <- & Hab). destruct (Hin a b Hab) as [Ha Hb].
    cbn [fst snd]. rewrite toggles_real.
    rewrite (Rltb_true (y a)), (Rltb_true (y b)); [reflexivity | |];
      now apply H.
  - apply odd_count_all_false. intros flag Hf. apply in_map_iff in Hf.
    destruct Hf as ([a b] & <- & Hab). destruct (Hin a b Hab) as [Ha Hb].
    cbn [fst snd]. apply toggles_left_of_point; now apply H.
  - rewrite (map_ext_in _ (fun e => xorb (Rltb (y (fst e)) (y point))
                                         (Rltb (y (snd e)) (y point)))).
    2:{ intros [a b] Hab. destruct (Hin a b Hab) as [Ha Hb].
        cbn [fst snd]. apply toggles_right_of_point; now apply H. }
    rewrite (side_changes (fun v => Rltb (y v) (y point)) point).
    destruct V as [|v0 V']; [apply xorb_nilpotent|].
    unfold closed_path. cbn [hd].
    change (last (last (v0 :: V') v0 :: v0 :: V') point)
      with (last (v0 :: V') point).
    rewrite (last_indep (v0 :: V') v0 point) by discriminate.
    apply xorb_nilpotent.
Qed.

Lemma isPointInsidePolygon_outside_box_witness :
  value (isPointInsidePolygon
           (mkVector2f 5 1)
           [mkVector2f 0 0; mkVector2f 4 0; mkVector2f 1 1; mkVector2f 4 2;
            mkVector2f 0 2])
  = Some false.
Proof.
  apply isPointInsidePolygon_outside_box.
  - simpl. unfold Int.max_int. lia.
  - right. right. right. repeat constructor; simpl; lra.
Defined.

End PolygonFacts.

(* ================================================================== *)
(** * Sides of a line and crossing segments *)

Section Sides.
Local Open Scope R_scope.

Lemma isPointLeftOfLine_iff (start end_ point : Vector2f R) :
  isPointLeftOfLine start end_ point = true <->
  cross (vsub end_ start) (vsub point start) > 0.
Proof.
  destruct start as [sx sy], end_ as [ex ey], point as [px py].
  unfold isPointLeftOfLine, cross. simpl. rewrite Rltb_iff. lra.
Qed.

(** X24.  [isPointLeftOfLine] over exact arithmetic holds exactly when the
    cross product of [end - start] and [point - start] is positive.  Then
    [ccw] of the three points is +1; for the points of the line it is false
    in both directions of the line; for the other points it holds in exactly
    one of the two directions. *)
Theorem isPointLeftOfLine_spec (start end_ point : Vector2f R) :
  (isPointLeftOfLine start end_ point = true <->
   cross (vsub end_ start) (vsub point start) > 0) /\
  (isPointLeftOfLine start end_ point = true -> ccw start end_ point = 1%Z) /\
  (ccw start end_ point = (-1)%Z \/ ccw start end_ point = 0%Z ->
   isPointLeftOfLine start end_ point = false) /\
  (cross (vsub end_ start) (vsub point start) = 0 ->
   isPointLeftOfLine start end_ point = false /\
   isPointLeftOfLine end_ start point = false) /\
  (cross (vsub end_ start) (vsub point start) <> 0 ->
   isPointLeftOfLine end_ start point =
   negb (isPointLeftOfLine start end_ point)).
Proof.
  split; [apply isPointLeftOfLine_iff|].
  split; [intros H; apply ccw_left; now apply isPointLeftOfLine_iff|].
  split.
  { intros H. destruct (isPointLeftOfLine start end_ point) eqn:E;
      [|reflexivity].
    apply isPointLeftOfLine_iff, ccw_left in E. rewrite E in H.
    destruct H; discriminate. }
  assert (Hflip : cross (vsub start end_) (vsub point end_) =
                  - cross (vsub end_ start) (vsub point start)).
  { destruct start as [sx sy], end_ as [ex ey], point as [px py].
    unfold cross. simpl. ring. }
  split.
  - intros H. split.
    + destruct (isPointLeftOfLine start end_ point) eqn:E; [|reflexivity].
      apply isPointLeftOfLine_iff in E. lra.
    + destruct (isPointLeftOfLine end_ start point) eqn:E; [|reflexivity].
      apply isPointLeftOfLine_iff in E. lra.
  - intros H.
    destruct (isPointLeftOfLine start end_ point) eqn:E1,
             (isPointLeftOfLine end_ start point) eqn:E2;
      try reflexivity; exfalso.
    + apply isPointLeftOfLine_iff in E1, E2. lra.
    + assert (~ cross (vsub end_ start) (vsub point start) > 0).
      { intros G. apply isPointLeftOfLine_iff in G. congruence. }
      assert (~ cross (vsub start end_) (vsub point end_) > 0).
      { intros G. apply isPointLeftOfLine_iff in G. congruence. }
      lra.
Qed.

Lemma ccw_values (p0 p1 p2 : Vector2f R) :
  ccw p0 p1 p2 = (-1)%Z \/ ccw p0 p1 p2 = 0%Z \/ ccw p0 p1 p2 = 1%Z.
Proof.
  unfold ccw.
  repeat match goal with
         | |- context [if ?c then _ else _] => destruct c
         end; auto.
Qed.

(** The sign of the cross product, as far as [ccw] tells it. *)
Lemma ccw_sign (p0 p1 p2 : Vector2f R) :
  (ccw p0 p1 p2 = 1%Z -> 0 <= cross (vsub p1 p0) (vsub p2 p0)) /\
  (ccw p0 p1 p2 = (-1)%Z -> cross (vsub p1 p0) (vsub p2 p0) <= 0) /\
  (ccw p0 p1 p2 = 0%Z -> cross (vsub p1 p0) (vsub p2 p0) = 0).
Proof.
  destruct (Rtotal_order (cross (vsub p1 p0) (vsub p2 p0)) 0)
    as [H | [H | H]].
  - rewrite (ccw_right _ _ _ H). repeat split; intros; try discriminate; lra.
  - rewrite H. repeat split; intros; lra.
  - rewrite (ccw_left _ _ _ H). repeat split; intros; try discriminate; lra.
Qed.

(** A point of the line through two distinct points, by its parameter. *)
Lemma ccw_on_line (p0 p1 : Vector2f R) (t : R) :
  p0 <> p1 ->
  ccw p0 p1 (point_at (mkLine p0 (vsub p1 p0)) t) =
  if Rltb t 0 then (-1)%Z else if Rleb t 1 then 0%Z else 1%Z.
Proof.
  intros Hne.
  assert (Hz : 0 < squaredNorm (vsub p1 p0)).
  { apply nonzero_vector. intros E. apply Hne.
    destruct p0 as [x0 y0], p1 as [x1 y1]. injection E as E1 E2. simpl in *.
    f_equal; lra. }
  rewrite ccw_collinear.
  2:{ destruct p0 as [x0 y0], p1 as [x1 y1]. unfold cross, point_at. simpl.
      ring. }
  destruct p0 as [x0 y0], p1 as [x1 y1].
  unfold point_at, squaredNorm in *. simpl in *.
  replace (x0 + t * (x1 - x0) - x0) with (t * (x1 - x0)) by ring.
  replace (y0 + t * (y1 - y0) - y0) with (t * (y1 - y0)) by ring.
  revert Hz. generalize (x1 - x0) (y1 - y0). intros a b Hz.
  assert (Ha : 0 <= a * a) by apply Rle_0_sqr.
  assert (Hb : 0 <= b * b) by apply Rle_0_sqr.
  replace (a * (t * a)) with (t * (a * a)) by ring.
  replace (b * (t * b)) with (t * (b * b)) by ring.
  replace (t * a * (t * a) + t * b * (t * b)) with (t * t * (a * a + b * b))
    by ring.
  destruct (Rltb_spec t 0) as [Ht | Ht].
  - assert (Hneg : t * (a * a) < 0 \/ t * (b * b) < 0).
    { destruct (Req_dec_T (a * a) 0) as [Za | Za].
      - right. assert (0 < b * b) by lra. nra.
      - left. assert (0 < a * a) by lra. nra. }
    destruct Hneg as [Hn | Hn].
    + rewrite (Rltb_true _ _ Hn). reflexivity.
    + rewrite (Rltb_true _ _ Hn). now rewrite orb_true_r.
  - rewrite (Rltb_false (t * (a * a))), (Rltb_false (t * (b * b))).
    2:{ assert (0 <= t * (b * b)) by (apply Rmult_le_pos; lra). lra. }
    2:{ assert (0 <= t * (a * a)) by (apply Rmult_le_pos; lra). lra. }
    simpl.
    destruct (Rleb_spec t 1) as [H1 | H1].
    + destruct (Rleb_spec (t * t * (a * a + b * b)) (a * a + b * b));
        [reflexivity|].
      assert (0 <= (1 - t * t) * (a * a + b * b))
        by (apply Rmult_le_pos; nra).
      lra.
    + destruct (Rleb_spec (t * t * (a * a + b * b)) (a * a + b * b));
        [|reflexivity].
      assert (0 < (t * t - 1) * (a * a + b * b))
        by (apply Rmult_lt_0_compat; nra).
      lra.
Qed.

(** With a start that equals the end, [ccw] never answers -1. *)
Lemma ccw_degenerate (p0 p2 : Vector2f R) : ccw p0 p0 p2 <> (-1)%Z.
Proof.
  destruct p0 as [x0 y0], p2 as [x2 y2]. unfold ccw. simpl.
  replace (x0 - x0) with 0 by ring. replace (y0 - y0) with 0 by ring.
  rewrite !Rmult_0_l.
  destruct (Rltb_spec 0 0); [lra|]. simpl.
  destruct (Rleb _ _); discriminate.
Qed.

(** A point on the carrier of a line with a direction has a parameter. *)
Lemma collinear_on_line (line : Line R) (P : Vector2f R) :
  direction line <> mkVector2f 0 0 ->
  cross (direction line) (vsub P (base line)) = 0 -> on_line line P.
Proof.
  intros Hn Hc. apply nonzero_vector in Hn.
  destruct line as [[x0 y0] [dx dy]], P as [px py].
  unfold cross, on_line, point_at, squaredNorm in *. simpl in *.
  exists (((px - x0) * dx + (py - y0) * dy) / (dx * dx + dy * dy)).
  f_equal.
  - transitivity (px + dy * (dx * (py - y0) - dy * (px - x0)) /
                       (dx * dx + dy * dy));
      [rewrite Hc; field; lra | field; lra].
  - transitivity (py - dx * (dx * (py - y0) - dy * (px - x0)) /
                       (dx * dx + dy * dy));
      [rewrite Hc; field; lra | field; lra].
Qed.

(** [ccw] answers 0 only for the points of the segment. *)
Lemma ccw_zero_on_edge (p0 p1 p2 : Vector2f R) :
  ccw p0 p1 p2 = 0%Z -> on_edge (mkLine p0 (vsub p1 p0)) p2.
Proof.
  intros H0.
  destruct (Req_dec_T (squaredNorm (vsub p1 p0)) 0) as [Hz | Hz].
  - exists 0. split; [lra|].
    apply zero_direction_iff in Hz.
    destruct p0 as [x0 y0], p1 as [x1 y1], p2 as [x2 y2].
    injection Hz as Ea Eb. unfold point_at. simpl.
    unfold ccw in H0. simpl in H0. rewrite Ea, Eb, !Rmult_0_l in H0.
    destruct (Rltb_spec 0 0); [lra|]. simpl in H0.
    destruct (Rleb_spec ((x2 - x0) * (x2 - x0) + (y2 - y0) * (y2 - y0))
                        (0 + 0)) as [Hle | Hle]; [|discriminate].
    assert (Hv : mkVector2f (x2 - x0) (y2 - y0) = mkVector2f 0 0).
    { apply zero_direction_iff. unfold squaredNorm. simpl.
      pose proof (Rle_0_sqr (x2 - x0)). pose proof (Rle_0_sqr (y2 - y0)).
      unfold Rsqr in *. lra. }
    injection Hv as E1 E2. f_equal; lra.
  - assert (Hne : p0 <> p1).
    { intros E. apply Hz. subst p1. destruct p0 as [x0 y0].
      unfold squaredNorm. simpl. ring. }
    destruct (ccw_sign p0 p1 p2) as (_ & _ & Hc). specialize (Hc H0).
    destruct (collinear_on_line (mkLine p0 (vsub p1 p0)) p2) as [t Ht].
    + intros E. apply Hz. simpl in E. now apply zero_direction_iff.
    + exact Hc.
    + subst p2. exists t. split; [|reflexivity].
      rewrite (ccw_on_line p0 p1 t Hne) in H0.
      destruct (Rltb_spec t 0); [discriminate|].
      destruct (Rleb_spec t 1); [lra | discriminate].
Qed.

Lemma orientations_differ (o1 o2 : Z) :
  (o1 = -1 \/ o1 = 0 \/ o1 = 1)%Z -> (o2 = -1 \/ o2 = 0 \/ o2 = 1)%Z ->
  (Int.mul o1 o2 <=? 0)%Z = true <->
  (o1 = 0 \/ o2 = 0 \/ (o1 = 1 /\ o2 = -1) \/ (o1 = -1 /\ o2 = 1))%Z.
Proof.
  intros [-> | [-> | ->]] [-> | [-> | ->]]; vm_compute; split; intros H;
    try reflexivity; try discriminate; try lia; auto.
Qed.

Lemma ratio_in_unit (a b : R) : a <> b -> a * b <= 0 -> 0 <= a / (a - b) <= 1.
Proof.
  intros Hne Hab. destruct (Rtotal_order a b) as [H | [H | H]]; [|lra|].
  - assert (Ha : a <= 0) by nra. assert (Hb : 0 <= b) by nra.
    replace (a / (a - b)) with (- a / (b - a)) by (field; lra). split.
    + apply Rmult_le_pos; [lra | left; apply Rinv_0_lt_compat; lra].
    + apply quotient_le; lra.
  - assert (Ha : 0 <= a) by nra. assert (Hb : b <= 0) by nra. split.
    + apply Rmult_le_pos; [lra | left; apply Rinv_0_lt_compat; lra].
    + apply quotient_le; lra.
Qed.

(** Two segments whose carriers are not parallel and each of which has its
    ends on different sides of the other meet. *)
Lemma crossing_point (A B C D : Vector2f R) :
  let c1 := cross (vsub B A) (vsub C A) in
  let c2 := cross (vsub B A) (vsub D A) in
  let c3 := cross (vsub D C) (vsub A C) in
  let c4 := cross (vsub D C) (vsub B C) in
  c1 <> c2 -> c1 * c2 <= 0 -> c3 * c4 <= 0 ->
  exists P, on_edge (mkLine A (vsub B A)) P /\ on_edge (mkLine C (vsub D C)) P.
Proof.
  intros c1 c2 c3 c4 Hne H12 H34.
  assert (Hk : c3 - c4 = - (c1 - c2)).
  { subst c1 c2 c3 c4.
    destruct A as [ax ay], B as [bx b_y], C as [cx cy], D as [dx dy].
    unfold cross. simpl. ring. }
  assert (Hne' : c3 <> c4) by lra.
  exists (point_at (mkLine A (vsub B A)) (c3 / (c3 - c4))). split.
  - eexists. split; [|reflexivity]. now apply ratio_in_unit.
  - exists (c1 / (c1 - c2)). split; [now apply ratio_in_unit|].
    replace (c3 - c4) with (- (c1 - c2)) by lra.
    assert (Hd : c1 - c2 <> 0) by lra. revert Hd.
    subst c1 c2 c3 c4.
    destruct A as [ax ay], B as [bx b_y], C as [cx cy], D as [dx dy].
    unfold cross, point_at. simpl. intros Hd. f_equal; field; lra.
Qed.

(** The soundness of the test: two segments for which it holds meet. *)
Lemma check_sound (A B C D : Vector2f R) :
  checkIntersectionOfLines A B C D = true ->
  exists P, on_edge (mkLine A (vsub B A)) P /\ on_edge (mkLine C (vsub D C)) P.
Proof.
  unfold checkIntersectionOfLines. rewrite andb_true_iff.
  rewrite !orientations_differ by apply ccw_values.
  intros [H12 H34].
  assert (start_of : forall X Y : Vector2f R, on_edge (mkLine X (vsub Y X)) X).
  { intros X Y. exists 0. split; [lra|].
    apply (base_is_point_at (mkLine X (vsub Y X))). }
  assert (end_of : forall X Y : Vector2f R, on_edge (mkLine X (vsub Y X)) Y).
  { intros [xx xy] [yx yy]. exists 1. split; [lra|].
    unfold point_at. simpl. f_equal; ring. }
  destruct H12 as [H | [H | H12]].
  { exists C. split; [now apply ccw_zero_on_edge | apply start_of]. }
  { exists D. split; [now apply ccw_zero_on_edge | apply end_of]. }
  destruct H34 as [H | [H | H34]].
  { exists A. split; [apply start_of | now apply ccw_zero_on_edge]. }
  { exists B. split; [apply end_of | now apply ccw_zero_on_edge]. }
  set (c1 := cross (vsub B A) (vsub C A)).
  set (c2 := cross (vsub B A) (vsub D A)).
  set (c3 := cross (vsub D C) (vsub A C)).
  set (c4 := cross (vsub D C) (vsub B C)).
  assert (S12 : c1 * c2 <= 0).
  { destruct (ccw_sign A B C) as (P1 & N1 & _).
    destruct (ccw_sign A B D) as (P2 & N2 & _).
    fold c1 in P1, N1. fold c2 in P2, N2.
    destruct H12 as [[E1 E2] | [E1 E2]].
    - specialize (P1 E1). specialize (N2 E2). nra.
    - specialize (N1 E1). specialize (P2 E2). nra. }
  assert (S34 : c3 * c4 <= 0).
  { destruct (ccw_sign C D A) as (P1 & N1 & _).
    destruct (ccw_sign C D B) as (P2 & N2 & _).
    fold c3 in P1, N1. fold c4 in P2, N2.
    destruct H34 as [[E1 E2] | [E1 E2]].
    - specialize (P1 E1). specialize (N2 E2). nra.
    - specialize (N1 E1). specialize (P2 E2). nra. }
  destruct (Req_dec_T c1 c2) as [Heq | Hne];
    [|now apply (crossing_point A B C D)].
  exfalso.
  assert (Z1 : c1 = 0) by nra. assert (Z2 : c2 = 0) by nra.
  destruct (Req_dec_T (squaredNorm (vsub B A)) 0) as [Hz | Hz].
  { assert (A = B).
    { apply zero_direction_iff in Hz.
      destruct A as [ax ay], B as [bx b_y]. injection Hz as E1 E2.
      f_equal; lra. }
    subst B. destruct H12 as [[_ E] | [E _]]; now apply ccw_degenerate in E. }
  assert (Hne : A <> B).
  { intros E. apply Hz. subst B. destruct A as [ax ay].
    unfold squaredNorm. simpl. ring. }
  assert (Hdir : direction (mkLine A (vsub B A)) <> mkVector2f 0 0).
  { intros E. apply Hz. simpl in E. now apply zero_direction_iff. }
  destruct (collinear_on_line (mkLine A (vsub B A)) C Hdir Z1) as [t Ht].
  destruct (collinear_on_line (mkLine A (vsub B A)) D Hdir Z2) as [u Hu].
  assert (Hmid : exists r, 0 <= r <= 1 /\
                           A = point_at (mkLine C (vsub D C)) r).
  { rewrite Ht, Hu, !(ccw_on_line A B _ Hne) in H12.
    assert (Htu : (t < 0 /\ 1 < u) \/ (1 < t /\ u < 0)).
    { destruct (Rltb_spec t 0), (Rltb_spec u 0), (Rleb_spec t 1),
        (Rleb_spec u 1); destruct H12 as [[E1 E2] | [E1 E2]];
        try discriminate; lra. }
    exists (t / (t - u)). split.
    - apply ratio_in_unit; [lra|]. destruct Htu; nra.
    - rewrite Ht, Hu. destruct A as [ax ay], B as [bx b_y].
      unfold point_at. simpl. f_equal; field; lra. }
  destruct Hmid as (r & Hr & EA).
  pose proof (ccw_between C D A r Hr EA) as H0.
  destruct H34 as [[E _] | [E _]]; rewrite H0 in E; discriminate.
Qed.

(** Where two segments meet, the ends of the second are not strictly on the
    same side of the first. *)
Lemma straddle (A B C D : Vector2f R) (s t : R) :
  A <> B -> 0 <= s <= 1 -> 0 <= t <= 1 ->
  point_at (mkLine A (vsub B A)) s = point_at (mkLine C (vsub D C)) t ->
  (Int.mul (ccw A B C) (ccw A B D) <=? 0)%Z = true.
Proof.
  intros Hne Hs Ht E. rewrite orientations_differ by apply ccw_values.
  set (c1 := cross (vsub B A) (vsub C A)).
  set (c2 := cross (vsub B A) (vsub D A)).
  assert (Hid : (1 - t) * c1 + t * c2 = 0).
  { subst c1 c2.
    destruct A as [ax ay], B as [bx b_y], C as [cx cy], D as [dx dy].
    unfold cross, point_at in *. simpl in *. injection E as Ex Ey.
    replace ((1 - t) * ((bx - ax) * (cy - ay) - (b_y - ay) * (cx - ax)) +
             t * ((bx - ax) * (dy - ay) - (b_y - ay) * (dx - ax)))
      with ((bx - ax) * (cy + t * (dy - cy) - ay) -
            (b_y - ay) * (cx + t * (dx - cx) - ax)) by ring.
    rewrite <- Ex, <- Ey. ring. }
  assert (Hdir : direction (mkLine A (vsub B A)) <> mkVector2f 0 0).
  { simpl. intros E0. apply Hne.
    destruct A as [ax ay], B as [bx b_y]. injection E0 as E1 E2.
    f_equal; lra. }
  assert (HD : t = 1 -> ccw A B D = 0%Z).
  { intros ->. apply (ccw_between A B D s Hs). rewrite E.
    destruct C as [cx cy], D as [dx dy]. unfold point_at. simpl.
    f_equal; ring. }
  assert (HC : t = 0 -> ccw A B C = 0%Z).
  { intros ->. apply (ccw_between A B C s Hs). rewrite E.
    destruct C as [cx cy], D as [dx dy]. unfold point_at. simpl.
    f_equal; ring. }
  assert (H1t : 0 <= 1 - t) by lra.
  destruct (Rtotal_order c1 0) as [N1 | [Z1 | P1]].
  - destruct (Rtotal_order c2 0) as [N2 | [Z2 | P2]].
    + exfalso. assert ((1 - t) * c1 <= 0) by nra. assert (t * c2 <= 0) by nra.
      destruct (Req_dec_T t 0) as [T0 | T0].
      * subst t. lra.
      * assert (t * c2 < 0) by nra. lra.
    + right. left. apply HD. rewrite Z2 in Hid.
      assert ((1 - t) * c1 = 0) by lra.
      destruct (Rmult_integral _ _ H); lra.
    + right. right. right. split; [now apply ccw_right | now apply ccw_left].
  - destruct (Req_dec_T c2 0) as [Z2 | NZ2].
    + destruct (collinear_on_line (mkLine A (vsub B A)) C Hdir Z1) as [tc Hc].
      destruct (collinear_on_line (mkLine A (vsub B A)) D Hdir Z2) as [td Hd].
      assert (Hs' : s = (1 - t) * tc + t * td).
      { apply (point_at_injective (mkLine A (vsub B A))).
        - intros E0. apply Hdir. now apply zero_direction_iff.
        - rewrite E, Hc, Hd. destruct A as [ax ay], B as [bx b_y].
          unfold point_at. simpl. f_equal; ring. }
      rewrite Hc, Hd, !(ccw_on_line A B _ Hne).
      destruct (Rltb_spec tc 0) as [C0 | C0];
        [|destruct (Rleb_spec tc 1) as [C1 | C1]; [now left|]];
        (destruct (Rltb_spec td 0) as [D0 | D0];
         [|destruct (Rleb_spec td 1) as [D1 | D1]; [right; now left|]]);
        try (right; right; right; split; reflexivity);
        try (right; right; left; split; reflexivity);
        exfalso.
      * assert ((1 - t) * tc <= 0) by nra. assert (t * td <= 0) by nra.
        destruct (Req_dec_T t 0) as [T0 | T0]; [subst t; lra|].
        assert (t * td < 0) by nra. lra.
      * assert (1 - t <= (1 - t) * tc) by nra. assert (t <= t * td) by nra.
        destruct (Req_dec_T t 0) as [T0 | T0]; [subst t; lra|].
        assert (t < t * td) by nra. lra.
    + left. apply HC. rewrite Z1 in Hid.
      assert (t * c2 = 0) by lra.
      destruct (Rmult_integral _ _ H); [assumption | contradiction].
  - destruct (Rtotal_order c2 0) as [N2 | [Z2 | P2]].
    + right. right. left. split; [now apply ccw_left | now apply ccw_right].
    + right. left. apply HD. rewrite Z2 in Hid.
      assert ((1 - t) * c1 = 0) by lra.
      destruct (Rmult_integral _ _ H); lra.
    + exfalso. assert (0 <= (1 - t) * c1) by nra. assert (0 <= t * c2) by nra.
      destruct (Req_dec_T t 0) as [T0 | T0].
      * subst t. lra.
      * assert (0 < t * c2) by nra. lra.
Qed.

Lemma check_degenerate_example :
  checkIntersectionOfLines (v32 1 0) (v32 1 0) (v32 0 0) (v32 2 0) = false.
Proof. vm_compute. reflexivity. Qed.

(** X25.  [checkIntersectionOfLines] over exact arithmetic decides whether
    two segments meet: when it answers true the segments have a common
    point, and two segments with a common point, each with two distinct
    ends, are answered with true.  For a segment whose ends coincide the
    answer can be false although the point lies on the other segment, as for
    the point (1,0) and the segment from (0,0) to (2,0), over the reals and
    in binary32.  Exchanging the two segments does not change the answer. *)
Theorem checkIntersectionOfLines_spec (l1p1 l1p2 l2p1 l2p2 : Vector2f R) :
  let edge1 := mkLine l1p1 (vsub l1p2 l1p1) in
  let edge2 := mkLine l2p1 (vsub l2p2 l2p1) in
  (checkIntersectionOfLines l1p1 l1p2 l2p1 l2p2 = true ->
   exists P, on_edge edge1 P /\ on_edge edge2 P) /\
  (l1p1 <> l1p2 -> l2p1 <> l2p2 ->
   (exists P, on_edge edge1 P /\ on_edge edge2 P) ->
   checkIntersectionOfLines l1p1 l1p2 l2p1 l2p2 = true) /\
  checkIntersectionOfLines l2p1 l2p2 l1p1 l1p2 =
  checkIntersectionOfLines l1p1 l1p2 l2p1 l2p2 /\
  checkIntersectionOfLines (mkVector2f 1 0) (mkVector2f 1 0)
                           (mkVector2f 0 0) (mkVector2f 2 0) = false /\
  checkIntersectionOfLines (v32 1 0) (v32 1 0) (v32 0 0) (v32 2 0) = false.
Proof.
  intros edge1 edge2. split; [apply check_sound|]. split; [|split; [|split]].
  - intros H1 H2 (P & (s & Hs & E1) & (t & Ht & E2)).
    unfold checkIntersectionOfLines. apply andb_true_iff. split.
    + apply (straddle l1p1 l1p2 l2p1 l2p2 s t H1 Hs Ht).
      subst edge1 edge2. now rewrite <- E1, <- E2.
    + apply (straddle l2p1 l2p2 l1p1 l1p2 t s H2 Ht Hs).
      subst edge1 edge2. now rewrite <- E1, <- E2.
  - unfold checkIntersectionOfLines. apply andb_comm.
  - unfold checkIntersectionOfLines, ccw. simpl.
    repeat match goal with
           | |- context [Rltb ?a ?b] => destruct (Rltb_spec a b); try lra
           | |- context [Rleb ?a ?b] => destruct (Rleb_spec a b); try lra
           end; reflexivity.
  - exact check_degenerate_example.
Qed.

Lemma checkIntersectionOfLines_spec_witness :
  exists P,
    on_edge (mkLine (mkVector2f 0 0) (vsub (mkVector2f 2 2) (mkVector2f 0 0)))
            P /\
    on_edge (mkLine (mkVector2f 0 2) (vsub (mkVector2f 2 0) (mkVector2f 0 2)))
            P.
Proof.
  apply (proj1 (checkIntersectionOfLines_spec
                  (mkVector2f 0 0) (mkVector2f 2 2)
                  (mkVector2f 0 2) (mkVector2f 2 0))).
  unfold checkIntersectionOfLines, ccw. simpl.
  repeat match goal with
         | |- context [Rltb ?a ?b] => destruct (Rltb_spec a b); try lra
         | |- context [Rleb ?a ?b] => destruct (Rleb_spec a b); try lra
         end; reflexivity.
Defined.

End Sides.

(* ================================================================== *)
(** * Where a line enters and leaves a rectangle *)

Section LineRectangleAnyArithmetic.
Context {F : Type} {ops : FloatOps F}.

Lemma line_rectangle_uninitialised
      (bottomLeft topRight : Vector2f F) (line : Line F)
      (point1 point2 : Vector2f F) (u u' : Vector2f F * Vector2f F) :
  getIntersectionPointsOfLineAndRectangle bottomLeft topRight line
                                          point1 point2 u =
  getIntersectionPointsOfLineAndRectangle bottomLeft topRight line
                                          point1 point2 u'.
Proof.
  unfold getIntersectionPointsOfLineAndRectangle, vertical_sides,
    horizontal_sides, found_result,
    candidate_on_vertical_side, candidate_on_horizontal_side,
    bind, divide, ret, array_set, array_get.
  repeat (cbn [fst snd Z.eqb Z.ltb Z.add Z.compare Pos.add Pos.compare
               Pos.compare_cont Pos.eqb Pos.succ orb andb negb app];
          match goal with
          | |- context [if ?c then _ else _] =>
              lazymatch c with
              | context [if _ then _ else _] => fail
              | _ => destruct c eqn:?
              end
          end);
    reflexivity.
Qed.

(** Decide the conditions of the routine one after the other. *)
Ltac rectangle_cases :=
  unfold getIntersectionPointsOfLineAndRectangle, vertical_sides,
    horizontal_sides, found_result,
    candidate_on_vertical_side, candidate_on_horizontal_side,
    bind, divide, ret, array_set, array_get, value, divisors;
  repeat (cbn [fst snd Z.eqb Z.ltb Z.add Z.compare Pos.add Pos.compare
               Pos.compare_cont Pos.eqb Pos.succ orb andb negb app];
          match goal with
          | |- context [if ?c then _ else _] =>
              lazymatch c with
              | context [if _ then _ else _] => fail
              | _ => destruct c eqn:?
              end
          end).

Lemma line_rectangle_divisors
      (bottomLeft topRight : Vector2f F) (line : Line F)
      (point1 point2 : Vector2f F) (u : Vector2f F * Vector2f F) :
  Forall (fun d => feqb d (of_int 0) = false)
         (divisors (getIntersectionPointsOfLineAndRectangle
                      bottomLeft topRight line point1 point2 u)).
Proof.
  rectangle_cases;
    repeat match goal with
           | H : negb _ = true |- _ => apply negb_true_iff in H
           end;
    repeat constructor; assumption.
Qed.

Lemma line_rectangle_failure
      (bottomLeft topRight : Vector2f F) (line : Line F)
      (point1 point2 : Vector2f F) (u : Vector2f F * Vector2f F) :
  fst (fst (value (getIntersectionPointsOfLineAndRectangle
                     bottomLeft topRight line point1 point2 u))) = false ->
  value (getIntersectionPointsOfLineAndRectangle
           bottomLeft topRight line point1 point2 u) =
  (false, point1, point2).
Proof.
  rectangle_cases; intros H; try discriminate H; reflexivity.
Qed.

Lemma line_rectangle_no_direction
      (bottomLeft topRight : Vector2f F) (line : Line F)
      (point1 point2 : Vector2f F) (u : Vector2f F * Vector2f F) :
  feqb (x (direction line)) (of_int 0) = true ->
  feqb (y (direction line)) (of_int 0) = true ->
  getIntersectionPointsOfLineAndRectangle
    bottomLeft topRight line point1 point2 u = ret (false, point1, point2).
Proof.
  intros Hx Hy.
  unfold getIntersectionPointsOfLineAndRectangle, vertical_sides,
    horizontal_sides.
  rewrite Hx, Hy. reflexivity.
Qed.

End LineRectangleAnyArithmetic.

Section CandidateSteps.
Local Open Scope R_scope.

Variables (bottomLeft topRight : Vector2f R) (good : Vector2f R -> Prop).

Lemma vertical_candidate (xSide yv : R)
      (found : Z * (Vector2f R * Vector2f R)) :
  found_points_ok good found -> (fst found <= 1)%Z ->
  (y bottomLeft <= yv <= y topRight -> good (mkVector2f xSide yv)) ->
  let found' :=
    candidate_on_vertical_side bottomLeft topRight xSide yv found in
  found_points_ok good found' /\
  (fst found <= fst found' <= fst found + 1)%Z /\
  (y bottomLeft <= yv <= y topRight -> (1 <= fst found')%Z).
Proof.
  destruct found as [foundPoints [p0 p1]].
  unfold found_points_ok, candidate_on_vertical_side, array_set. simpl.
  intros (Hr & H0 & H1) Hle Hgood.
  destruct (Rleb_spec (y bottomLeft) yv), (Rleb_spec yv (y topRight)); simpl;
    try (repeat split; try assumption; try lia; lra).
  destruct (Z.eqb_spec foundPoints 0) as [-> | Hne]; simpl.
  - repeat split; try lia; intros; try lia; now apply Hgood.
  - repeat split; try lia; intros; [apply H0; lia | now apply Hgood].
Qed.

Lemma horizontal_candidate (xv ySide : R)
      (found : Z * (Vector2f R * Vector2f R)) :
  found_points_ok good found ->
  (x bottomLeft <= xv <= x topRight -> good (mkVector2f xv ySide)) ->
  let found' :=
    candidate_on_horizontal_side bottomLeft topRight xv ySide found in
  found_points_ok good found' /\
  (fst found <= fst found')%Z /\
  (x bottomLeft <= xv <= x topRight -> (1 <= fst found')%Z).
Proof.
  destruct found as [foundPoints [p0 p1]].
  unfold found_points_ok, candidate_on_horizontal_side, array_set, array_get.
  simpl. intros (Hr & H0 & H1) Hgood.
  destruct (Rleb_spec (x bottomLeft) xv), (Rleb_spec xv (x topRight)); simpl;
    try (repeat split; try assumption; try lia; lra).
  destruct (Z.ltb_spec foundPoints 2); simpl;
    [|repeat split; try assumption; lia].
  destruct (Z.eqb_spec foundPoints 0) as [-> | Hne]; simpl.
  - repeat split; try lia; intros; try lia; now apply Hgood.
  - assert (foundPoints = 1%Z) by lia. subst foundPoints.
    match goal with |- context [if ?c then _ else _] => destruct c end;
      simpl; repeat split; try lia; intros; try lia;
      try (apply H0; lia); now apply Hgood.
Qed.

End CandidateSteps.

Section LineRectangle.
Local Open Scope R_scope.

Lemma side_candidate (bottomLeft topRight : Vector2f R) (line : Line R)
      (xSide : R) :
  x (direction line) <> 0 ->
  x bottomLeft <= x topRight ->
  xSide = x bottomLeft \/ xSide = x topRight ->
  let yv := y (base line) +
            (xSide - x (base line)) * y (direction line) /
            x (direction line) in
  y bottomLeft <= yv <= y topRight ->
  meets_border bottomLeft topRight line (mkVector2f xSide yv).
Proof.
  intros Hd Hx Hs yv Hin. split; [|split].
  - exists ((xSide - x (base line)) / x (direction line)).
    subst yv. destruct line as [[bx b_y] [dx dy]]. unfold point_at.
    simpl in *. f_equal; field; exact Hd.
  - apply isPointInsideRectangle_iff. simpl. destruct Hs; subst xSide; lra.
  - simpl. destruct Hs; auto.
Qed.

Lemma level_candidate (bottomLeft topRight : Vector2f R) (line : Line R)
      (ySide : R) :
  y (direction line) <> 0 ->
  y bottomLeft <= y topRight ->
  ySide = y bottomLeft \/ ySide = y topRight ->
  let xv := x (base line) +
            (ySide - y (base line)) * x (direction line) /
            y (direction line) in
  x bottomLeft <= xv <= x topRight ->
  meets_border bottomLeft topRight line (mkVector2f xv ySide).
Proof.
  intros Hd Hy Hs xv Hin. split; [|split].
  - exists ((ySide - y (base line)) / y (direction line)).
    subst xv. destruct line as [[bx b_y] [dx dy]]. unfold point_at.
    simpl in *. f_equal; field; exact Hd.
  - apply isPointInsideRectangle_iff. simpl. destruct Hs; subst ySide; lra.
  - simpl. destruct Hs; auto.
Qed.

(** The heights at which the line meets the left and the right side, and the
    abscissas at which it meets the bottom and the top side, as the routine
    computes them. *)
Lemma vertical_phase (bottomLeft topRight : Vector2f R) (line : Line R)
      (u : Vector2f R * Vector2f R) :
  x bottomLeft <= x topRight ->
  let y1 := y (base line) +
            (x bottomLeft - x (base line)) * y (direction line) /
            x (direction line) in
  let y2 := y (base line) +
            (x topRight - x (base line)) * y (direction line) /
            x (direction line) in
  let found := value (vertical_sides bottomLeft topRight line (0%Z, u)) in
  found_points_ok (meets_border bottomLeft topRight line) found /\
  (x (direction line) <> 0 ->
   y bottomLeft <= y1 <= y topRight \/ y bottomLeft <= y2 <= y topRight ->
   (1 <= fst found)%Z).
Proof.
  intros Hx y1 y2 found. subst found. unfold vertical_sides.
  change (x (direction line) == of_int 0)%fl
    with (Reqb (x (direction line)) 0).
  assert (Hstart : found_points_ok (meets_border bottomLeft topRight line)
                                   (0%Z, u)).
  { unfold found_points_ok. simpl. repeat split; intros; lia. }
  destruct (Reqb_spec (x (direction line)) 0) as [Hz | Hn]; cbn [negb].
  { split; [exact Hstart | intros H; contradiction]. }
  rewrite !value_bind. cbn [divide value fst ret].
  change (fdiv ?a ?b) with (a / b).
  change (y (base line) +
          (x bottomLeft - x (base line)) * y (direction line) /
          x (direction line))%fl with y1.
  change (y (base line) +
          (x topRight - x (base line)) * y (direction line) /
          x (direction line))%fl with y2.
  destruct (vertical_candidate bottomLeft topRight
              (meets_border bottomLeft topRight line)
              (x bottomLeft) y1 (0%Z, u) Hstart) as (Ok1 & Hb1 & Hc1).
  { simpl. lia. }
  { apply side_candidate; auto. }
  cbv zeta in Ok1, Hb1, Hc1. cbn [fst] in Hb1.
  destruct (vertical_candidate bottomLeft topRight
              (meets_border bottomLeft topRight line)
              (x topRight) y2 _ Ok1) as (Ok2 & Hb2 & Hc2).
  { lia. }
  { apply side_candidate; auto. }
  cbv zeta in Ok2, Hb2, Hc2.
  split; [exact Ok2|]. intros _ [H | H].
  - eapply Z.le_trans; [exact (Hc1 H) | exact (proj1 Hb2)].
  - exact (Hc2 H).
Qed.

Lemma horizontal_phase (bottomLeft topRight : Vector2f R) (line : Line R)
      (found : Z * (Vector2f R * Vector2f R)) :
  y bottomLeft <= y topRight ->
  found_points_ok (meets_border bottomLeft topRight line) found ->
  let x1 := x (base line) +
            (y bottomLeft - y (base line)) * x (direction line) /
            y (direction line) in
  let x2 := x (base line) +
            (y topRight - y (base line)) * x (direction line) /
            y (direction line) in
  let found' := value (horizontal_sides bottomLeft topRight line found) in
  found_points_ok (meets_border bottomLeft topRight line) found' /\
  (fst found <= fst found')%Z /\
  (y (direction line) <> 0 ->
   x bottomLeft <= x1 <= x topRight \/ x bottomLeft <= x2 <= x topRight ->
   (1 <= fst found')%Z).
Proof.
  intros Hy Hstart x1 x2 found'. subst found'. unfold horizontal_sides.
  change (y (direction line) == of_int 0)%fl
    with (Reqb (y (direction line)) 0).
  destruct (Reqb_spec (y (direction line)) 0) as [Hz | Hn]; cbn [negb].
  { split; [exact Hstart|]. split; [simpl; lia | intros H; contradiction]. }
  rewrite !value_bind. cbn [divide value fst ret].
  change (fdiv ?a ?b) with (a / b).
  change (x (base line) +
          (y bottomLeft - y (base line)) * x (direction line) /
          y (direction line))%fl with x1.
  change (x (base line) +
          (y topRight - y (base line)) * x (direction line) /
          y (direction line))%fl with x2.
  destruct (horizontal_candidate bottomLeft topRight
              (meets_border bottomLeft topRight line)
              x1 (y bottomLeft) found Hstart) as (Ok1 & Hb1 & Hc1).
  { apply level_candidate; auto. }
  cbv zeta in Ok1, Hb1, Hc1.
  destruct (horizontal_candidate bottomLeft topRight
              (meets_border bottomLeft topRight line)
              x2 (y topRight) _ Ok1) as (Ok2 & Hb2 & Hc2).
  { apply level_candidate; auto. }
  cbv zeta in Ok2, Hb2, Hc2.
  split; [exact Ok2|].
  split; [eapply Z.le_trans; [exact Hb1 | exact Hb2]|]. intros _ [H | H].
  - eapply Z.le_trans; [exact (Hc1 H) | exact Hb2].
  - exact (Hc2 H).
Qed.

Lemma found_result_ok (good : Vector2f R -> Prop) (line : Line R)
      (point1 point2 : Vector2f R) (found : Z * (Vector2f R * Vector2f R)) :
  found_points_ok good found ->
  let result := found_result line point1 point2 found in
  (fst (fst result) = true <-> (1 <= fst found)%Z) /\
  (fst (fst result) = true ->
   good (snd (fst result)) /\ good (snd result) /\
   0 <= dot (vsub (snd result) (snd (fst result))) (direction line)) /\
  (fst (fst result) = false -> result = (false, point1, point2)).
Proof.
  destruct found as [foundPoints [q0 q1]]. unfold found_points_ok.
  cbn [fst snd]. intros (Hr & H0 & H1).
  unfold found_result, array_get. cbn [fst snd Z.eqb].
  destruct (Z.eqb_spec foundPoints 1) as [E1 | N1].
  { cbn [fst snd]. split; [split; [lia | reflexivity]|].
    split; [|discriminate]. intros _.
    split; [apply H0; lia|]. split; [apply H0; lia|].
    destruct q0 as [qx qy], line as [[bx b_y] [dx dy]]. unfold dot. simpl.
    replace ((qx - qx) * dx + (qy - qy) * dy) with 0 by ring. lra. }
  destruct (Z.eqb_spec foundPoints 2) as [E2 | N2].
  { change (dot (vsub q1 q0) (direction line) > of_int 0)%fl
      with (Rltb 0 (dot (vsub q1 q0) (direction line))).
    destruct (Rltb_spec 0 (dot (vsub q1 q0) (direction line))) as [Hd | Hd];
      cbn [fst snd]; (split; [split; [lia | reflexivity]|]);
      (split; [|discriminate]); intros _.
    - split; [apply H0; lia|]. split; [apply H1; lia|]. lra.
    - split; [apply H1; lia|]. split; [apply H0; lia|].
      destruct q0 as [qx qy], q1 as [rx ry], line as [[bx b_y] [dx dy]].
      unfold dot in *. simpl in *. lra. }
  cbn [fst snd]. split; [split; [discriminate | lia]|].
  split; [discriminate | reflexivity].
Qed.

(** A line with a direction that passes through the rectangle meets one of
    its sides where the routine looks for it. *)
Lemma some_candidate_in_range (bottomLeft topRight : Vector2f R)
      (line : Line R) (t0 : R) :
  x bottomLeft <= x topRight -> y bottomLeft <= y topRight ->
  direction line <> mkVector2f 0 0 ->
  isPointInsideRectangle bottomLeft topRight (point_at line t0) = true ->
  let y1 := y (base line) +
            (x bottomLeft - x (base line)) * y (direction line) /
            x (direction line) in
  let y2 := y (base line) +
            (x topRight - x (base line)) * y (direction line) /
            x (direction line) in
  let x1 := x (base line) +
            (y bottomLeft - y (base line)) * x (direction line) /
            y (direction line) in
  let x2 := x (base line) +
            (y topRight - y (base line)) * x (direction line) /
            y (direction line) in
  (x (direction line) <> 0 /\
   (y bottomLeft <= y1 <= y topRight \/ y bottomLeft <= y2 <= y topRight)) \/
  (y (direction line) <> 0 /\
   (x bottomLeft <= x1 <= x topRight \/ x bottomLeft <= x2 <= x topRight)).
Proof.
  destruct bottomLeft as [lx ly], topRight as [hx hy],
           line as [[bx b_y] [dx dy]].
  intros Hx Hy Hn Hin y1 y2 x1 x2.
  apply isPointInsideRectangle_iff in Hin. unfold point_at in Hin.
  simpl in *. destruct Hin as [Hinx Hiny].
  destruct (Req_dec_T dx 0) as [Zx | Nx].
  { assert (Ny : dy <> 0) by (intros ->; apply Hn; now subst dx).
    right. split; [exact Ny|]. left. subst x1 dx.
    replace (bx + (ly - b_y) * 0 / dy) with bx by (field; exact Ny). lra. }
  destruct (Req_dec_T dy 0) as [Zy | Ny].
  { left. split; [exact Nx|]. left. subst y1 dy.
    replace (b_y + (lx - bx) * 0 / dx) with b_y by (field; exact Nx). lra. }
  assert (EL : exists tL, tL * dx = lx - bx /\ y1 = b_y + tL * dy).
  { exists ((lx - bx) / dx). subst y1. split; field; exact Nx. }
  assert (EH : exists tH, tH * dx = hx - bx /\ y2 = b_y + tH * dy).
  { exists ((hx - bx) / dx). subst y2. split; field; exact Nx. }
  assert (EB : exists tB, tB * dy = ly - b_y /\ x1 = bx + tB * dx).
  { exists ((ly - b_y) / dy). subst x1. split; field; exact Ny. }
  assert (ET : exists tT, tT * dy = hy - b_y /\ x2 = bx + tT * dx).
  { exists ((hy - b_y) / dy). subst x2. split; field; exact Ny. }
  destruct EL as (tL & HL & ->), EH as (tH & HH & ->),
           EB as (tB & HB & ->), ET as (tT & HT & ->).
  clear Hn.
  destruct (Rtotal_order dx 0) as [Sx | [Sx | Sx]]; [|contradiction|];
    (destruct (Rtotal_order dy 0) as [Sy | [Sy | Sy]]; [|contradiction|]).
  - (* dx < 0, dy < 0: the line enters at tH or tT *)
    assert (tH <= t0) by nra. assert (tT <= t0) by nra.
    destruct (Rle_lt_dec tT tH).
    + left. split; [exact Nx|]. right. nra.
    + right. split; [exact Ny|]. right. nra.
  - (* dx < 0, dy > 0: the line enters at tH or tB *)
    assert (tH <= t0) by nra. assert (tB <= t0) by nra.
    destruct (Rle_lt_dec tB tH).
    + left. split; [exact Nx|]. right. nra.
    + right. split; [exact Ny|]. left. nra.
  - (* dx > 0, dy < 0: the line enters at tL or tT *)
    assert (tL <= t0) by nra. assert (tT <= t0) by nra.
    destruct (Rle_lt_dec tT tL).
    + left. split; [exact Nx|]. left. nra.
    + right. split; [exact Ny|]. right. nra.
  - (* dx > 0, dy > 0: the line enters at tL or tB *)
    assert (tL <= t0) by nra. assert (tB <= t0) by nra.
    destruct (Rle_lt_dec tB tL).
    + left. split; [exact Nx|]. left. nra.
    + right. split; [exact Ny|]. left. nra.
Qed.

End LineRectangle.

(** X26.  [getIntersectionPointsOfLineAndRectangle] on [float] corners, in
    every arithmetic: the result does not depend on what the local array
    [point], which is not initialised, holds at the start; every division
    has a divisor that compared unequal to zero; when the result is false
    the two output points are as they were; and a direction whose two
    components compare equal to zero gives false without any division. *)
Theorem getIntersectionPointsOfLineAndRectangle_any_arithmetic :
  forall (F : Type) (ops : FloatOps F) (bottomLeft topRight : Vector2f F)
         (line : Line F) (point1 point2 : Vector2f F)
         (u : Vector2f F * Vector2f F),
    (forall u' : Vector2f F * Vector2f F,
        getIntersectionPointsOfLineAndRectangle bottomLeft topRight line
                                                point1 point2 u =
        getIntersectionPointsOfLineAndRectangle bottomLeft topRight line
                                                point1 point2 u') /\
    Forall (fun d => feqb d (of_int 0) = false)
           (divisors (getIntersectionPointsOfLineAndRectangle
                        bottomLeft topRight line point1 point2 u)) /\
    (fst (fst (value (getIntersectionPointsOfLineAndRectangle
                        bottomLeft topRight line point1 point2 u))) = false ->
     value (getIntersectionPointsOfLineAndRectangle
              bottomLeft topRight line point1 point2 u) =
     (false, point1, point2)) /\
    (feqb (x (direction line)) (of_int 0) = true ->
     feqb (y (direction line)) (of_int 0) = true ->
     getIntersectionPointsOfLineAndRectangle
       bottomLeft topRight line point1 point2 u =
     ret (false, point1, point2)).
Proof.
  intros F ops bottomLeft topRight line point1 point2 u.
  split; [intros u'; apply line_rectangle_uninitialised|].
  split; [apply line_rectangle_divisors|].
  split; [apply line_rectangle_failure|].
  apply line_rectangle_no_direction.
Qed.

(** X27.  [getIntersectionPointsOfLineAndRectangle] on [float] corners over
    exact arithmetic, for corners in order.  When the result is true, both
    output points are points of the line on a side of the rectangle, and the
    second is not behind the first along the direction of the line.  For a
    line with a direction the result is true exactly when the line has a
    point inside the rectangle; for a line without direction it is false. *)
Theorem getIntersectionPointsOfLineAndRectangle_spec
        (bottomLeft topRight : Vector2f R) (line : Line R)
        (point1 point2 : Vector2f R) (u : Vector2f R * Vector2f R) :
  (x bottomLeft <= x topRight)%R -> (y bottomLeft <= y topRight)%R ->
  let result :=
    value (getIntersectionPointsOfLineAndRectangle
             bottomLeft topRight line point1 point2 u) in
  (fst (fst result) = true ->
   meets_border bottomLeft topRight line (snd (fst result)) /\
   meets_border bottomLeft topRight line (snd result) /\
   (0 <= dot (vsub (snd result) (snd (fst result))) (direction line))%R) /\
  (direction line <> mkVector2f 0%R 0%R ->
   (fst (fst result) = true <->
    exists P, on_line line P /\
              isPointInsideRectangle bottomLeft topRight P = true)) /\
  (direction line = mkVector2f 0%R 0%R -> result = (false, point1, point2)).
Proof.
  intros Hx Hy result.
  assert (Eres : result =
                 found_result
                   line point1 point2
                   (value (horizontal_sides
                             bottomLeft topRight line
                             (value (vertical_sides bottomLeft topRight line
                                                    (0, u)))))).
  { subst result. unfold getIntersectionPointsOfLineAndRectangle.
    now rewrite !value_bind. }
  destruct (vertical_phase bottomLeft topRight line u Hx) as [Ok1 Hv].
  destruct (horizontal_phase bottomLeft topRight line _ Hy Ok1)
    as (Ok2 & Hmono & Hh).
  destruct (found_result_ok _ line point1 point2 _ Ok2)
    as (Hcount & Hgood & Hfail).
  rewrite <- Eres in Hcount, Hgood, Hfail.
  split; [exact Hgood|]. split.
  - intros Hn. split.
    + intros Ht. destruct (Hgood Ht) as ((Hl & Hin & _) & _).
      eexists. split; [exact Hl | exact Hin].
    + intros (P & [t0 ->] & Hin). apply Hcount.
      destruct (some_candidate_in_range bottomLeft topRight line t0
                  Hx Hy Hn Hin) as [[Nx Hc] | [Ny Hc]].
      * eapply Z.le_trans; [exact (Hv Nx Hc) | exact Hmono].
      * exact (Hh Ny Hc).
  - intros Hz. apply Hfail.
    destruct (fst (fst result)) eqn:E; [|reflexivity].
    destruct (Hgood eq_refl) as ((_ & _ & _) & _).
    exfalso. clear Hgood Hfail.
    assert (Hc : (1 <= fst (value (horizontal_sides
                                     bottomLeft topRight line
                                     (value (vertical_sides
                                               bottomLeft topRight line
                                               (0, u))))))%Z)
      by now apply Hcount.
    revert Hc. unfold horizontal_sides, vertical_sides.
    destruct line as [base0 direction0]. simpl in Hz. subst direction0.
    simpl. destruct (Reqb_spec 0 0); [simpl; lia | lra].
Qed.

Lemma getIntersectionPointsOfLineAndRectangle_spec_witness :
  fst (fst (value (getIntersectionPointsOfLineAndRectangle
                     (mkVector2f 0%R 0%R) (mkVector2f 4%R 4%R)
                     (mkLine (mkVector2f (-1)%R 2%R) (mkVector2f 1%R 0%R))
                     (mkVector2f 9%R 9%R) (mkVector2f 9%R 9%R)
                     (mkVector2f 7%R 7%R, mkVector2f 7%R 7%R)))) = true.
Proof.
  assert (Hx : (x (mkVector2f 0%R 0%R) <= x (mkVector2f 4%R 4%R))%R)
    by (simpl; lra).
  assert (Hy : (y (mkVector2f 0%R 0%R) <= y (mkVector2f 4%R 4%R))%R)
    by (simpl; lra).
  apply (proj1 (proj2 (getIntersectionPointsOfLineAndRectangle_spec
                         (mkVector2f 0%R 0%R) (mkVector2f 4%R 4%R)
                         (mkLine (mkVector2f (-1)%R 2%R)
                                 (mkVector2f 1%R 0%R))
                         (mkVector2f 9%R 9%R) (mkVector2f 9%R 9%R)
                         (mkVector2f 7%R 7%R, mkVector2f 7%R 7%R) Hx Hy))).
  - simpl. intros E. injection E as E. lra.
  - exists (mkVector2f 0%R 2%R). split.
    + exists 1%R. unfold point_at. simpl. f_equal; lra.
    + apply isPointInsideRectangle_iff. simpl. lra.
Defined.

(* ================================================================== *)
(** * Clipping a point to the border of a polygon *)

Section BorderAnyArithmetic.
Context {F : Type} {ops : FloatOps F}.

Variables (polygon : list (Vector2f F)) (point d : Vector2f F).

Lemma at_index_nth (j : nat) :
  (j < length polygon)%nat ->
  at_index polygon (Z.of_nat j) = Some (nth j polygon d).
Proof. intros H. rewrite at_index_nat. now apply nth_error_nth'. Qed.

(** One turn of the loop: the distance to the edge from vertex [j] to vertex
    [j + 1] replaces the minimum if it is smaller. *)
Lemma border_loop_step (j : nat) (rest : list Z) (min : F) (n : Z) :
  (S j < length polygon)%nat ->
  let dist :=
    value (getDistanceToEdge
             (mkLine (nth j polygon d)
                     (vsub (nth (S j) polygon d) (nth j polygon d)))
             point) in
  value (border_loop polygon point (Z.of_nat j :: rest) min n) =
  value (border_loop polygon point rest
                     (if fltb dist min then dist else min)
                     (if fltb dist min then Z.of_nat j else n)).
Proof.
  intros Hj dist. cbn [border_loop].
  replace (Z.of_nat j + 1) with (Z.of_nat (S j)) by lia.
  rewrite !at_index_nth by lia. rewrite value_bind. fold dist.
  destruct (fltb dist min); [rewrite value_bind|]; reflexivity.
Qed.

Lemma border_loop_runs (len : nat) :
  forall (start : nat) (min : F) (n : Z),
    (start + len < length polygon)%nat ->
    exists (min' : F) (n' : Z),
      value (border_loop polygon point (map Z.of_nat (seq start len)) min n)
      = Some (min', n') /\
      (n' = n \/ exists j, (start <= j < start + len)%nat /\ n' = Z.of_nat j).
Proof.
  induction len as [|len IH]; intros start min n Hlen.
  - exists min, n. split; [reflexivity | now left].
  - cbn [seq map]. rewrite border_loop_step by lia.
    cbv zeta.
    match goal with
    | |- context [border_loop _ _ _ ?m ?k] =>
        destruct (IH (S start) m k) as (min' & n' & E & Hn); [lia|]
    end.
    rewrite E. exists min', n'. split; [reflexivity|].
    destruct Hn as [Hn | (j & Hj & Hn)].
    + match type of Hn with
      | _ = if ?c then _ else _ => destruct c
      end; [right; exists start; split; [lia | exact Hn] | now left].
    + right. exists j. split; [lia | exact Hn].
Qed.

Lemma indices_from_0_seq (m : nat) :
  indices_from_0 (Z.of_nat m) = map Z.of_nat (seq 0 m).
Proof. unfold indices_from_0. now rewrite Nat2Z.id. Qed.

(** On a vector that is not empty every read stays inside, and a result of
    false leaves the point as it was. *)
Lemma clip_border_runs :
  polygon <> [] ->
  exists (clipped : bool) (point' : Vector2f F),
    value (clipPointToPolygonBorder polygon point) = Some (clipped, point') /\
    (clipped = false -> point' = point).
Proof.
  intros Hne.
  assert (Hlen : exists m, length polygon = S m).
  { destruct polygon as [|v rest]; [contradiction|]. now exists (length rest). }
  destruct Hlen as [m Hm].
  unfold clipPointToPolygonBorder. rewrite Hm.
  replace (Z.of_nat (S m) - 1) with (Z.of_nat m) by lia.
  change 0 with (Z.of_nat 0) at 1.
  rewrite !at_index_nth by lia.
  rewrite !value_bind, indices_from_0_seq.
  match goal with
  | |- context [border_loop _ _ _ ?min ?n] =>
      destruct (border_loop_runs m 0 min n) as (min' & n' & E & Hn); [lia|]
  end.
  rewrite E. destruct (feqb min' (of_int 0)).
  { exists false, point. split; [reflexivity | easy]. }
  assert (Hn' : exists j, (j < S m)%nat /\ n' = Z.of_nat j).
  { destruct Hn as [-> | (j & Hj & ->)]; [exists m | exists j]; split;
      try reflexivity; lia. }
  destruct Hn' as (j & Hj & ->).
  rewrite at_index_nth by lia.
  destruct (Z.eqb_spec (Z.of_nat j) (Z.of_nat m)) as [Ej | Nj]; cbn [negb].
  - change 0 with (Z.of_nat 0). rewrite at_index_nth by lia.
    rewrite value_bind. eexists true, _. split; [reflexivity | discriminate].
  - replace (Z.of_nat j + 1) with (Z.of_nat (S j)) by lia.
    rewrite at_index_nth by lia.
    rewrite value_bind. eexists true, _. split; [reflexivity | discriminate].
Qed.

End BorderAnyArithmetic.

Section BorderReal.
Local Open Scope R_scope.

Lemma distance_same (P : Vector2f R) : distance P P = 0.
Proof.
  rewrite distance_value. destruct P as [px py]. unfold dist2. simpl.
  replace ((px - px) * (px - px) + (py - py) * (py - py)) with 0 by ring.
  apply sqrt_0.
Qed.

Lemma distance_zero (P Q : Vector2f R) : distance P Q = 0 -> Q = P.
Proof.
  rewrite distance_value. intros H.
  apply sqrt_eq_0 in H; [|apply dist2_nonneg].
  destruct P as [px py], Q as [qx qy]. unfold dist2 in H. simpl in H.
  assert (Hv : mkVector2f (qx - px) (qy - py) = mkVector2f 0 0)
    by now apply zero_direction_iff.
  injection Hv as E1 E2. f_equal; lra.
Qed.

Lemma edge_distance_nonneg (line : Line R) (point : Vector2f R) :
  0 <= value (getDistanceToEdge line point).
Proof.
  destruct (edge_distance_attained line point) as (Q & _ & ->).
  apply distance_nonneg.
Qed.

(** An edge and the edge between the same ends in the other sense have the
    same points. *)
Lemma reversed_edge (A B Q : Vector2f R) :
  on_edge (mkLine A (vsub B A)) Q -> on_edge (mkLine B (vsub A B)) Q.
Proof.
  intros (t & Ht & ->). exists (1 - t). split; [lra|].
  destruct A as [ax ay], B as [bx b_y]. unfold point_at. simpl.
  f_equal; ring.
Qed.

Lemma reversed_edge_distance (A B point : Vector2f R) :
  value (getDistanceToEdge (mkLine A (vsub B A)) point) =
  value (getDistanceToEdge (mkLine B (vsub A B)) point).
Proof.
  apply Rle_antisym.
  - destruct (edge_distance_attained (mkLine B (vsub A B)) point)
      as (Q & HQ & ->).
    apply edge_distance_lower. now apply reversed_edge.
  - destruct (edge_distance_attained (mkLine A (vsub B A)) point)
      as (Q & HQ & ->).
    apply edge_distance_lower. now apply reversed_edge.
Qed.

Variables (polygon : list (Vector2f R)) (point : Vector2f R).

Local Notation "'origin'" := (mkVector2f 0 0).

Lemma polygon_edge_inner (j : nat) :
  (S j < length polygon)%nat ->
  polygon_edge polygon j =
  mkLine (nth j polygon origin)
         (vsub (nth (S j) polygon origin) (nth j polygon origin)).
Proof.
  intros H. unfold polygon_edge. cbv zeta.
  destruct (Nat.ltb_spec (j + 1) (length polygon)); [|lia].
  now rewrite Nat.add_1_r.
Qed.

Lemma polygon_edge_last (m : nat) :
  length polygon = S m ->
  polygon_edge polygon m =
  mkLine (nth m polygon origin)
         (vsub (nth 0 polygon origin) (nth m polygon origin)).
Proof.
  intros H. unfold polygon_edge. cbv zeta.
  destruct (Nat.ltb_spec (m + 1) (length polygon)); [lia | reflexivity].
Qed.

(** The loop leaves the least distance among the edges it visits, if that is
    less than the distance it started with, and the first edge at that
    distance. *)
Lemma border_loop_min (len : nat) :
  forall (start : nat) (min : R) (n : Z),
    (start + len < length polygon)%nat ->
    exists (min' : R) (n' : Z),
      value (border_loop polygon point (map Z.of_nat (seq start len)) min n)
      = Some (min', n') /\
      min' <= min /\
      (forall j, (start <= j < start + len)%nat ->
                 min' <= value (getDistanceToEdge (polygon_edge polygon j)
                                                  point)) /\
      ((n' = n /\ min' = min) \/
       exists j, (start <= j < start + len)%nat /\ n' = Z.of_nat j /\
                 min' = value (getDistanceToEdge (polygon_edge polygon j)
                                                 point)).
Proof.
  induction len as [|len IH]; intros start min n Hlen.
  - exists min, n. split; [reflexivity|]. split; [lra|].
    split; [intros j Hj; lia | now left].
  - cbn [seq map]. rewrite (border_loop_step polygon point origin) by lia.
    cbv zeta. rewrite <- (polygon_edge_inner start) by lia.
    set (dist := value (getDistanceToEdge (polygon_edge polygon start)
                                          point)).
    change (fltb dist min) with (Rltb dist min).
    destruct (Rltb_spec dist min) as [Hlt | Hge].
    + destruct (IH (S start) dist (Z.of_nat start)) as
        (min' & n' & E & Hle & Hall & Hn); [lia|].
      exists min', n'. split; [exact E|]. split; [lra|]. split.
      * intros j Hj. destruct (Nat.eq_dec j start) as [-> | Hne].
        -- exact Hle.
        -- apply Hall. lia.
      * right. destruct Hn as [[-> ->] | (j & Hj & Hn)].
        -- exists start. split; [lia|]. split; reflexivity.
        -- exists j. split; [lia | exact Hn].
    + destruct (IH (S start) min n) as
        (min' & n' & E & Hle & Hall & Hn); [lia|].
      exists min', n'. split; [exact E|]. split; [exact Hle|]. split.
      * intros j Hj. destruct (Nat.eq_dec j start) as [-> | Hne].
        -- fold dist. lra.
        -- apply Hall. lia.
      * destruct Hn as [Hn | (j & Hj & Hn)]; [now left|].
        right. exists j. split; [lia | exact Hn].
Qed.

(** The routine over the reals: the least distance to an edge, an edge at
    that distance, and the result. *)
Lemma clip_border_value (m : nat) :
  length polygon = S m ->
  exists (min' : R) (j : nat),
    (j <= m)%nat /\
    min' = value (getDistanceToEdge (polygon_edge polygon j) point) /\
    (forall k, (k <= m)%nat ->
               min' <= value (getDistanceToEdge (polygon_edge polygon k)
                                                point)) /\
    value (clipPointToPolygonBorder polygon point) =
    Some (if Reqb min' 0 then (false, point)
          else (true,
                value (getOrthogonalProjectionOfPointOnEdge_Line
                         (polygon_edge polygon j) point))).
Proof.
  intros Hm. unfold clipPointToPolygonBorder. rewrite Hm.
  replace (Z.of_nat (S m) - 1)%Z with (Z.of_nat m) by lia.
  change 0%Z with (Z.of_nat 0) at 1.
  rewrite !(at_index_nth polygon origin) by lia.
  rewrite !value_bind, indices_from_0_seq.
  rewrite reversed_edge_distance, <- (polygon_edge_last m Hm).
  set (D := fun k => value (getDistanceToEdge (polygon_edge polygon k) point)).
  fold (D m).
  destruct (border_loop_min m 0 (D m) (Z.of_nat m))
    as (min' & n' & E & Hle & Hall & Hn); [lia|].
  rewrite E.
  assert (Hn' : exists j, (j <= m)%nat /\ n' = Z.of_nat j /\ min' = D j).
  { destruct Hn as [[-> ->] | (j & Hj & -> & ->)]; [exists m | exists j];
      repeat split; lia. }
  destruct Hn' as (j & Hj & -> & Emin).
  exists min', j. split; [exact Hj|]. split; [exact Emin|]. split.
  { intros k Hk. destruct (Nat.eq_dec k m) as [-> | Hne]; [exact Hle|].
    apply Hall. lia. }
  change (feqb min' (of_int 0)) with (Reqb min' 0).
  destruct (Reqb min' 0); [reflexivity|].
  rewrite (at_index_nth polygon origin) by lia.
  destruct (Z.eqb_spec (Z.of_nat j) (Z.of_nat m)) as [Ej | Nj]; cbn [negb].
  - apply Nat2Z.inj in Ej. subst j.
    change 0%Z with (Z.of_nat 0).
    rewrite (at_index_nth polygon origin) by lia.
    rewrite value_bind, (polygon_edge_last m Hm). reflexivity.
  - replace (Z.of_nat j + 1)%Z with (Z.of_nat (S j)) by lia.
    rewrite (at_index_nth polygon origin) by lia.
    rewrite value_bind, (polygon_edge_inner j) by lia. reflexivity.
Qed.

End BorderReal.

(** The routine over the reals, for a polygon all of whose edges have a
    direction. *)
Lemma clip_border_real (polygon : list (Vector2f R)) (point : Vector2f R) :
  polygon <> [] ->
  (forall j, (j < length polygon)%nat ->
             direction (polygon_edge polygon j) <> mkVector2f 0%R 0%R) ->
  exists (clipped : bool) (point' : Vector2f R),
    value (clipPointToPolygonBorder polygon point) =
    Some (clipped, point') /\
    on_polygon_border polygon point' /\
    (forall Q, on_polygon_border polygon Q ->
               (distance point point' <= distance point Q)%R) /\
    (clipped = false <-> on_polygon_border polygon point) /\
    (clipped = false -> point' = point).
Proof.
  intros Hne Hdir.
  assert (Hlen : exists m, length polygon = S m).
  { destruct polygon as [|v rest]; [contradiction|]. now exists (length rest). }
  destruct Hlen as [m Hm].
  destruct (clip_border_value polygon point m Hm)
    as (min' & j & Hj & Emin & Hall & Eval).
  assert (Hjl : (j < length polygon)%nat) by lia.
  assert (Hmin0 : (0 <= min')%R) by (rewrite Emin; apply edge_distance_nonneg).
  assert (Hborder : on_polygon_border polygon point <-> min' = 0%R).
  { split.
    - intros (k & Hk & HQ).
      pose proof (edge_distance_lower _ point point HQ) as Hle.
      rewrite distance_same in Hle.
      specialize (Hall k ltac:(lia)). lra.
    - intros Hz.
      destruct (edge_distance_attained (polygon_edge polygon j) point)
        as (Q & HQ & EQ).
      rewrite <- Emin, Hz in EQ. symmetry in EQ. apply distance_zero in EQ.
      subst Q. now exists j. }
  rewrite Eval. destruct (Reqb_spec min' 0) as [Hz | Hnz].
  - exists false, point. split; [reflexivity|].
    split; [now apply Hborder|]. split.
    + intros Q _. rewrite distance_same. apply distance_nonneg.
    + split; [|reflexivity].
      split; [intros _; now apply Hborder | reflexivity].
  - pose proof (Hdir j Hjl) as Hd.
    pose proof (projection_on_edge_value (polygon_edge polygon j) point Hd)
      as Eproj.
    destruct (nearest_on_edge (polygon_edge polygon j) point Hd)
      as (Hc & Hv & _).
    cbv zeta in Eproj, Hc, Hv. rewrite Eproj. unfold value at 1. cbn [fst].
    eexists true, _. split; [reflexivity|]. split.
    + exists j. split; [exact Hjl|]. eexists. split; [exact Hc | reflexivity].
    + split.
      * intros Q (k & Hk & HQ). rewrite <- Hv, <- Emin.
        eapply Rle_trans; [apply (Hall k); lia|].
        now apply edge_distance_lower.
      * split; [|discriminate].
        split; [discriminate|]. intros H. apply Hborder in H. contradiction.
Qed.

(** X28.  [clipPointToPolygonBorder].  In every arithmetic the routine reads
    [polygon[0]] of an empty vector, and on a vector that is not empty every
    read stays inside and a result of false leaves the point as it was.
    Over exact arithmetic, for a polygon all of whose edges have a
    direction: the point returned lies on an edge of the polygon, no point
    of any edge is nearer to the given point, and the result is false
    exactly when the given point lies on an edge itself. *)
Theorem clipPointToPolygonBorder_spec :
  (forall (F : Type) (ops : FloatOps F) (point : Vector2f F),
      value (clipPointToPolygonBorder [] point) = None) /\
  (forall (F : Type) (ops : FloatOps F) (polygon : list (Vector2f F))
          (point : Vector2f F),
      polygon <> [] ->
      exists (clipped : bool) (point' : Vector2f F),
        value (clipPointToPolygonBorder polygon point) =
        Some (clipped, point') /\
        (clipped = false -> point' = point)) /\
  (forall (polygon : list (Vector2f R)) (point : Vector2f R),
      polygon <> [] ->
      (forall j, (j < length polygon)%nat ->
                 direction (polygon_edge polygon j) <> mkVector2f 0%R 0%R) ->
      exists (clipped : bool) (point' : Vector2f R),
        value (clipPointToPolygonBorder polygon point) =
        Some (clipped, point') /\
        on_polygon_border polygon point' /\
        (forall Q, on_polygon_border polygon Q ->
                   (distance point point' <= distance point Q)%R) /\
        (clipped = false <-> on_polygon_border polygon point)).
Proof.
  split; [reflexivity|].
  split; [intros F ops polygon point;
          apply (clip_border_runs polygon point point)|].
  intros polygon point Hne Hdir.
  destruct (clip_border_real polygon point Hne Hdir)
    as (clipped & point' & E & Hb & Hn & Hc & _).
  exists clipped, point'. repeat split; try assumption; apply Hc.
Qed.

Lemma clipPointToPolygonBorder_spec_witness :
  exists (clipped : bool) (point' : Vector2f R),
    value (clipPointToPolygonBorder
             [mkVector2f 0%R 0%R; mkVector2f 4%R 0%R; mkVector2f 0%R 4%R]
             (mkVector2f 1%R (-2)%R)) = Some (clipped, point') /\
    on_polygon_border
      [mkVector2f 0%R 0%R; mkVector2f 4%R 0%R; mkVector2f 0%R 4%R] point'.
Proof.
  destruct (proj2 (proj2 clipPointToPolygonBorder_spec)
              [mkVector2f 0%R 0%R; mkVector2f 4%R 0%R; mkVector2f 0%R 4%R]
              (mkVector2f 1%R (-2)%R)) as (clipped & point' & E & Hb & _).
  - discriminate.
  - intros j Hj. simpl in Hj.
    destruct j as [|[|[|j]]]; [| | |lia]; unfold polygon_edge; simpl;
      intros E; injection E as E1 E2; lra.
  - exists clipped, point'. split; [exact E | exact Hb].
Defined.

(* ================================================================== *)
(** * Clipping a point into a polygon *)

Section ClipAnyArithmetic.
Context {F : Type} {ops : FloatOps F}.

Variables (polygon : list (Vector2f F)) (point : Vector2f F).

Lemma clip_inside_runs :
  polygon <> [] -> Z.of_nat (length polygon) <= Int.max_int ->
  exists (inside : bool) (point' : Vector2f F),
    value (isPointInsidePolygon point polygon) = Some inside /\
    value (clipPointInsidePolygon polygon point) = Some (negb inside, point') /\
    (inside = true -> point' = point).
Proof.
  intros Hne Hlen. unfold clipPointInsidePolygon. rewrite value_bind.
  rewrite (isPointInsidePolygon_value point polygon Hlen).
  destruct (odd_count _) eqn:E.
  - exists true, point. repeat split.
  - destruct (clip_border_runs polygon point point Hne)
      as (clipped & point' & Eclip & _).
    rewrite value_bind, Eclip. exists false, point'.
    split; [reflexivity|]. split; [reflexivity | discriminate].
Qed.

Lemma convex_defined :
  (2 <= length polygon)%nat ->
  exists b : bool,
    isPointInsideConvexPolygon polygon (Z.of_nat (length polygon)) point
    = Some b.
Proof.
  intros Hlen.
  destruct (edge_ccw_defined polygon point 0 ltac:(lia)) as [o Ho].
  rewrite (first_edge polygon point Hlen o Ho).
  destruct (o =? 0); [now exists true|].
  apply convex_loop_defined. lia.
Qed.

Lemma clip_convex_runs :
  (2 <= length polygon)%nat -> Z.of_nat (length polygon) <= Int.max_int ->
  exists (inside : bool) (point' : Vector2f F),
    isPointInsideConvexPolygon polygon (Z.of_nat (length polygon)) point
    = Some inside /\
    value (clipPointInsideConvexPolygon polygon point)
    = Some (negb inside, point') /\
    (inside = true -> point' = point).
Proof.
  intros H2 Hlen. unfold clipPointInsideConvexPolygon.
  rewrite (size_as_int_small polygon Hlen).
  destruct (convex_defined H2) as [inside E]. rewrite E.
  destruct inside.
  - exists true, point. repeat split.
  - assert (Hne : polygon <> []) by (destruct polygon; [simpl in H2; lia|easy]).
    destruct (clip_border_runs polygon point point Hne)
      as (clipped & point' & Eclip & _).
    rewrite value_bind, Eclip. exists false, point'.
    split; [reflexivity|]. split; [reflexivity | discriminate].
Qed.

End ClipAnyArithmetic.

Section ClipReal.
Local Open Scope R_scope.

Lemma clip_inside_real (polygon : list (Vector2f R)) (point : Vector2f R) :
  polygon <> [] -> (Z.of_nat (length polygon) <= Int.max_int)%Z ->
  (forall j, (j < length polygon)%nat ->
             direction (polygon_edge polygon j) <> mkVector2f 0 0) ->
  exists (clipped : bool) (point' : Vector2f R),
    value (clipPointInsidePolygon polygon point) = Some (clipped, point') /\
    (clipped = false <->
     value (isPointInsidePolygon point polygon) = Some true) /\
    (clipped = false -> point' = point) /\
    (clipped = true ->
     on_polygon_border polygon point' /\
     (forall Q, on_polygon_border polygon Q ->
                distance point point' <= distance point Q) /\
     (point' = point <-> on_polygon_border polygon point)).
Proof.
  intros Hne Hlen Hdir. unfold clipPointInsidePolygon. rewrite value_bind.
  rewrite (isPointInsidePolygon_value point polygon Hlen).
  destruct (odd_count _) eqn:E.
  - exists false, point. split; [reflexivity|].
    split; [split; reflexivity|]. split; [reflexivity | discriminate].
  - destruct (clip_border_real polygon point Hne Hdir)
      as (clipped & point' & Eclip & Hb & Hn & Hc & Hsame).
    rewrite value_bind, Eclip. exists true, point'.
    split; [reflexivity|]. split; [split; discriminate|].
    split; [discriminate|]. intros _.
    split; [exact Hb|]. split; [exact Hn|]. split.
    + intros ->. exact Hb.
    + intros H. apply Hsame. now apply Hc.
Qed.

Lemma rectangle_edges (x0 y0 x1 y1 : R) :
  x0 < x1 -> y0 < y1 ->
  forall j, (j < 4)%nat ->
            direction (polygon_edge [mkVector2f x0 y0; mkVector2f x1 y0;
                                     mkVector2f x1 y1; mkVector2f x0 y1] j)
            <> mkVector2f 0 0.
Proof.
  intros Hx Hy j Hj.
  destruct j as [|[|[|[|j]]]]; [| | | |lia]; unfold polygon_edge; simpl;
    intros E; injection E as E1 E2; lra.
Qed.

End ClipReal.

(** X29.  [clipPointInsidePolygon] and [clipPointInsideConvexPolygon].  In
    every arithmetic both read [polygon[0]] of an empty vector; on a vector
    that is not empty (with at least two points for the convex test) the
    flag returned is the negation of the containment test, and a point found
    inside is left as it was.  Over exact arithmetic, for a polygon all of
    whose edges have a direction, a point that is not found inside is
    replaced by a point of the border that no point of the border is nearer
    than; it is left as it was exactly when it lies on the border.  So the
    flag can be true for a point that is not moved: on the rectangle with
    the vertices (x0,y0), (x1,y0), (x1,y1), (x0,y1) every point of the left
    side is answered with true and returned as it was. *)
Theorem clipPointInsidePolygon_spec :
  (forall (F : Type) (ops : FloatOps F) (point : Vector2f F),
      value (clipPointInsidePolygon [] point) = None /\
      value (clipPointInsideConvexPolygon [] point) = None) /\
  (forall (F : Type) (ops : FloatOps F) (polygon : list (Vector2f F))
          (point : Vector2f F),
      polygon <> [] -> Z.of_nat (length polygon) <= Int.max_int ->
      exists (inside : bool) (point' : Vector2f F),
        value (isPointInsidePolygon point polygon) = Some inside /\
        value (clipPointInsidePolygon polygon point)
        = Some (negb inside, point') /\
        (inside = true -> point' = point)) /\
  (forall (F : Type) (ops : FloatOps F) (polygon : list (Vector2f F))
          (point : Vector2f F),
      (2 <= length polygon)%nat -> Z.of_nat (length polygon) <= Int.max_int ->
      exists (inside : bool) (point' : Vector2f F),
        isPointInsideConvexPolygon polygon (Z.of_nat (length polygon)) point
        = Some inside /\
        value (clipPointInsideConvexPolygon polygon point)
        = Some (negb inside, point') /\
        (inside = true -> point' = point)) /\
  (forall (polygon : list (Vector2f R)) (point : Vector2f R),
      polygon <> [] -> Z.of_nat (length polygon) <= Int.max_int ->
      (forall j, (j < length polygon)%nat ->
                 direction (polygon_edge polygon j) <> mkVector2f 0%R 0%R) ->
      exists (clipped : bool) (point' : Vector2f R),
        value (clipPointInsidePolygon polygon point)
        = Some (clipped, point') /\
        (clipped = false <->
         value (isPointInsidePolygon point polygon) = Some true) /\
        (clipped = false -> point' = point) /\
        (clipped = true ->
         on_polygon_border polygon point' /\
         (forall Q, on_polygon_border polygon Q ->
                    (distance point point' <= distance point Q)%R) /\
         (point' = point <-> on_polygon_border polygon point))) /\
  (forall x0 y0 x1 y1 py : R,
      (x0 < x1)%R -> (y0 < y1)%R -> (y0 <= py <= y1)%R ->
      value (clipPointInsidePolygon
               [mkVector2f x0 y0; mkVector2f x1 y0;
                mkVector2f x1 y1; mkVector2f x0 y1]
               (mkVector2f x0 py))
      = Some (true, mkVector2f x0 py)).
Proof.
  split; [intros F ops point; split; reflexivity|].
  split; [intros F ops; apply clip_inside_runs|].
  split; [intros F ops; apply clip_convex_runs|].
  split; [apply clip_inside_real|].
  intros x0 y0 x1 y1 py Hx Hy Hpy.
  set (rectangle := [mkVector2f x0 y0; mkVector2f x1 y0;
                     mkVector2f x1 y1; mkVector2f x0 y1]).
  destruct (clip_inside_real rectangle (mkVector2f x0 py))
    as (clipped & point' & E & Hin & _ & Hclip).
  - discriminate.
  - simpl. unfold Int.max_int. lia.
  - apply rectangle_edges; assumption.
  - rewrite E.
    assert (Hout : value (isPointInsidePolygon (mkVector2f x0 py) rectangle)
                   = Some false).
    { rewrite isPointInsidePolygon_value by (simpl; unfold Int.max_int; lia).
      f_equal. apply odd_count_all_false. intros flag Hf.
      apply in_map_iff in Hf. destruct Hf as ([v w] & <- & Hvw).
      apply adjacent_In in Hvw. destruct Hvw as [Hv Hw].
      apply closed_path_In in Hv, Hw. cbn [fst snd].
      apply toggles_left_of_point.
      - destruct Hv as [<- | [<- | [<- | [<- | []]]]]; simpl; lra.
      - destruct Hw as [<- | [<- | [<- | [<- | []]]]]; simpl; lra. }
    destruct clipped.
    + destruct (Hclip eq_refl) as (_ & _ & Hsame).
      f_equal. f_equal. apply Hsame. exists 3%nat. split; [simpl; lia|].
      exists ((y1 - py) / (y1 - y0))%R. split.
      * split.
        -- apply Rmult_le_pos; [lra | left; apply Rinv_0_lt_compat; lra].
        -- apply quotient_le; lra.
      * unfold polygon_edge, point_at. simpl. f_equal; field; lra.
    + rewrite (proj1 Hin eq_refl) in Hout. discriminate.
Qed.

Lemma clipPointInsidePolygon_spec_witness :
  value (clipPointInsidePolygon
           [mkVector2f 0%R 0%R; mkVector2f 2%R 0%R;
            mkVector2f 2%R 2%R; mkVector2f 0%R 2%R]
           (mkVector2f 0%R 1%R))
  = Some (true, mkVector2f 0%R 1%R).
Proof.
  apply (proj2 (proj2 (proj2 (proj2 clipPointInsidePolygon_spec)))); lra.
Defined.

(* ================================================================== *)
(** * Where a line crosses the border of a convex polygon *)

Section LinePolygonAnyArithmetic.
Context {F : Type} {ops : FloatOps F}.

Variables (polygon : list (Vector2f F)) (direction : Line F)
          (intersection : Vector2f F) (isCCW : bool)
          (intersectedLine : option (Line F)) (d : Vector2f F).

(** The vertex after vertex [j]. *)
Lemma next_index (j : nat) :
  (j < length polygon)%nat ->
  Z.rem (Z.of_nat j + 1) (Z.of_nat (length polygon)) =
  Z.of_nat (if (j + 1 <? length polygon)%nat then (j + 1)%nat else 0%nat).
Proof.
  intros Hj. destruct (Nat.ltb_spec (j + 1) (length polygon)) as [H | H].
  - rewrite Z.rem_small by lia. lia.
  - replace (Z.of_nat j + 1) with (Z.of_nat (length polygon)) by lia.
    rewrite Z.rem_same by lia. reflexivity.
Qed.

(** One turn of the loop. *)
Lemma polygon_edges_step (intersection2D : Vector2f F) (j : nat)
      (rest : list Z) :
  (j < length polygon)%nat ->
  let p1 := nth j polygon d in
  let p2 := nth (if (j + 1 <? length polygon)%nat then (j + 1)%nat
                 else 0%nat) polygon d in
  let polygonLine := mkLine p1 (normalized (vsub p2 p1)) in
  let isLeftP1 :=
    isPointLeftOfLine (base direction) (far_end direction) p1 in
  let isLeftP2 :=
    isPointLeftOfLine (base direction) (far_end direction) p2 in
  let met := value (getIntersectionOfLines direction polygonLine
                                           intersection2D) in
  value (polygon_edges_loop polygon direction intersection isCCW
                            intersectedLine intersection2D
                            (Z.of_nat j :: rest)) =
  if negb (eqb isLeftP1 isLeftP2) && (if isCCW then negb isLeftP1 else isLeftP1)
     && fst met
  then Some (true, snd met,
             match intersectedLine with
             | Some _ => Some polygonLine
             | None => None
             end)
  else value (polygon_edges_loop polygon direction intersection isCCW
                                 intersectedLine intersection2D rest).
Proof.
  intros Hj p1 p2 polygonLine isLeftP1 isLeftP2 met.
  cbn [polygon_edges_loop]. rewrite (next_index j Hj).
  rewrite !(at_index_nth polygon d).
  2:{ destruct (Nat.ltb_spec (j + 1) (length polygon)); lia. }
  2:{ exact Hj. }
  fold p1 p2. fold polygonLine. fold isLeftP1 isLeftP2.
  destruct (negb (eqb isLeftP1 isLeftP2) &&
            (if isCCW then negb isLeftP1 else isLeftP1)); [|reflexivity].
  rewrite value_bind. fold met. cbn [andb].
  destruct (fst met); reflexivity.
Qed.

(** What [getIntersectionOfLines] returns on success does not depend on the
    previous content of its output parameter. *)
Lemma lines_output (l1 l2 : Line F) (out out' : Vector2f F) :
  fst (value (getIntersectionOfLines l1 l2 out)) =
  fst (value (getIntersectionOfLines l1 l2 out')) /\
  (fst (value (getIntersectionOfLines l1 l2 out)) = true ->
   snd (value (getIntersectionOfLines l1 l2 out)) =
   snd (value (getIntersectionOfLines l1 l2 out'))).
Proof.
  unfold getIntersectionOfLines.
  destruct (feqb _ _); simpl; split; try reflexivity; discriminate.
Qed.

Lemma polygon_edges_runs (intersection2D intersection2D' : Vector2f F)
      (len : nat) :
  forall start : nat,
    (start + len <= length polygon)%nat ->
    exists r : bool * Vector2f F * option (Line F),
      value (polygon_edges_loop polygon direction intersection isCCW
                                intersectedLine intersection2D
                                (map Z.of_nat (seq start len))) = Some r /\
      value (polygon_edges_loop polygon direction intersection isCCW
                                intersectedLine intersection2D'
                                (map Z.of_nat (seq start len))) = Some r /\
      (fst (fst r) = false -> r = (false, intersection, intersectedLine)) /\
      (intersectedLine = None -> snd r = None).
Proof.
  induction len as [|len IH]; intros start Hlen.
  - eexists. split; [reflexivity|]. split; [reflexivity|]. split; auto.
  - cbn [seq map]. rewrite !polygon_edges_step by lia. cbv zeta.
    match goal with
    | |- context [getIntersectionOfLines ?l1 ?l2 intersection2D] =>
        destruct (lines_output l1 l2 intersection2D intersection2D')
          as [Efst Esnd]
    end.
    rewrite <- Efst.
    match goal with
    | |- context [if ?c then _ else _] => destruct c eqn:Ec
    end.
    + apply andb_true_iff in Ec. destruct Ec as [_ Ec].
      rewrite <- (Esnd Ec). eexists. split; [reflexivity|].
      split; [reflexivity|]. split; [discriminate|].
      intros ->. reflexivity.
    + apply IH. lia.
Qed.

End LinePolygonAnyArithmetic.

Section LinePolygonReal.
Local Open Scope R_scope.

Lemma far_end_edge (A B : Vector2f R) : far_end (mkLine A (vsub B A)) = B.
Proof.
  destruct A as [ax ay], B as [bx b_y]. unfold far_end, vadd. simpl.
  f_equal; ring.
Qed.

(** The side of the line [cut] on which a point lies. *)
Lemma left_of_direction (cut : Line R) (Q : Vector2f R) :
  isPointLeftOfLine (base cut) (far_end cut) Q =
  Rltb 0 (cross (direction cut) (vsub Q (base cut))).
Proof.
  destruct cut as [[bx b_y] [dx dy]], Q as [qx qy].
  unfold isPointLeftOfLine, far_end, vadd, cross. simpl.
  replace (bx + dx - bx) with dx by ring.
  replace (b_y + dy - b_y) with dy by ring. reflexivity.
Qed.

(** A line meets an edge whose ends it separates, and the routine for two
    lines finds the point. *)
Lemma crossed_edge_meets (cut : Line R) (p1 p2 out : Vector2f R) :
  isPointLeftOfLine (base cut) (far_end cut) p1 <>
  isPointLeftOfLine (base cut) (far_end cut) p2 ->
  exists P,
    value (getIntersectionOfLines
             cut (mkLine p1 (normalized (vsub p2 p1))) out) = (true, P) /\
    on_line cut P /\ on_edge (mkLine p1 (vsub p2 p1)) P.
Proof.
  rewrite !left_of_direction.
  set (f1 := cross (direction cut) (vsub p1 (base cut))).
  set (f2 := cross (direction cut) (vsub p2 (base cut))).
  intros Hsides.
  assert (Hf : f1 <> f2 /\ f1 * f2 <= 0).
  { destruct (Rltb_spec 0 f1), (Rltb_spec 0 f2);
      try (exfalso; apply Hsides; reflexivity); split; nra. }
  destruct Hf as [Hne Hprod].
  assert (Hk : cross (direction cut) (vsub p2 p1) = f2 - f1).
  { subst f1 f2. destruct cut as [[bx b_y] [dx dy]],
      p1 as [x1 y1], p2 as [x2 y2]. unfold cross. simpl. ring. }
  assert (Hedge : vsub p2 p1 <> mkVector2f 0 0).
  { intros E. rewrite E in Hk. unfold cross in Hk. simpl in Hk. lra. }
  assert (Hdir : direction cut <> mkVector2f 0 0).
  { intros E. subst f1 f2. rewrite E in Hne. unfold cross in Hne.
    simpl in Hne. lra. }
  pose proof (nonzero_vector _ Hedge) as Hz.
  assert (Hs : 0 < sqrt (squaredNorm (vsub p2 p1))) by now apply sqrt_lt_R0.
  set (s := sqrt (squaredNorm (vsub p2 p1))) in *.
  set (polygonLine := mkLine p1 (normalized (vsub p2 p1))).
  assert (Hcross : cross (direction cut)
                         (direction polygonLine) = (f2 - f1) / s).
  { unfold polygonLine. simpl. rewrite (normalized_nonzero _ Hedge).
    fold s. rewrite <- Hk. unfold cross. simpl. field. lra. }
  assert (Hnp : cross (direction cut)
                      (direction polygonLine) <> 0).
  { rewrite Hcross. intros E.
    assert (f2 - f1 = 0); [|lra].
    replace (f2 - f1) with ((f2 - f1) / s * s) by (field; lra).
    rewrite E. ring. }
  eexists. split; [apply (lines_crossing cut polygonLine out Hnp)|].
  split; [eexists; reflexivity|].
  set (r := f1 / (f1 - f2)).
  assert (Hr : 0 <= r <= 1) by now apply ratio_in_unit.
  set (Q := point_at (mkLine p1 (vsub p2 p1)) r).
  assert (HQ1 : on_line cut Q).
  { apply collinear_on_line; [exact Hdir|].
    transitivity (f1 + r * (f2 - f1)).
    - subst Q f1 f2. destruct cut as [[bx b_y] [dx dy]],
        p1 as [x1 y1], p2 as [x2 y2]. unfold cross, point_at. simpl. ring.
    - subst r. field. lra. }
  assert (HQ2 : on_line polygonLine Q).
  { exists (r * s). subst Q polygonLine.
    rewrite (normalized_nonzero _ Hedge). fold s.
    destruct p1 as [x1 y1], p2 as [x2 y2]. unfold point_at. simpl.
    f_equal; field; lra. }
  rewrite <- (lines_unique cut polygonLine Q Hnp HQ1 HQ2).
  exists r. split; [exact Hr | reflexivity].
Qed.

Variables (polygon : list (Vector2f R)) (cut : Line R)
          (intersection : Vector2f R) (isCCW : bool)
          (intersectedLine : option (Line R)) (intersection2D : Vector2f R).

Local Notation "'origin'" := (mkVector2f 0 0).

(** The test of the loop, on the edge that starts at vertex [j]. *)
Lemma crossed_unfold (j : nat) :
  let p1 := nth j polygon origin in
  let p2 := nth (if (j + 1 <? length polygon)%nat then (j + 1)%nat
                 else 0%nat) polygon origin in
  let isLeftP1 := isPointLeftOfLine (base cut) (far_end cut) p1 in
  let isLeftP2 := isPointLeftOfLine (base cut) (far_end cut) p2 in
  edge_is_crossed cut isCCW (polygon_edge polygon j) =
  negb (eqb isLeftP1 isLeftP2) && (if isCCW then negb isLeftP1 else isLeftP1).
Proof.
  cbv zeta. unfold edge_is_crossed, polygon_edge. cbv zeta.
  now rewrite far_end_edge.
Qed.

(** The loop stops at the first edge that passes the test, with the point in
    which the line meets that edge. *)
Lemma polygon_edges_first (len : nat) :
  forall start : nat,
    (start + len <= length polygon)%nat ->
    let result :=
      value (polygon_edges_loop polygon cut intersection isCCW
                                intersectedLine intersection2D
                                (map Z.of_nat (seq start len))) in
    ((forall j, (start <= j < start + len)%nat ->
                edge_is_crossed cut isCCW (polygon_edge polygon j) = false) ->
     result = Some (false, intersection, intersectedLine)) /\
    (forall j, (start <= j < start + len)%nat ->
               edge_is_crossed cut isCCW (polygon_edge polygon j) = true ->
               (forall k, (start <= k < j)%nat ->
                          edge_is_crossed cut isCCW (polygon_edge polygon k)
                          = false) ->
               exists P,
                 result =
                 Some (true, P,
                       match intersectedLine with
                       | Some _ =>
                           Some (normalizeDirection (polygon_edge polygon j))
                       | None => None
                       end) /\
                 on_line cut P /\ on_edge (polygon_edge polygon j) P).
Proof.
  induction len as [|len IH]; intros start Hlen result; subst result.
  - split; [reflexivity | intros j Hj; lia].
  - cbn [seq map].
    rewrite (polygon_edges_step polygon cut intersection isCCW
                                intersectedLine origin) by lia.
    cbv zeta. rewrite <- (crossed_unfold start).
    destruct (IH (S start) ltac:(lia)) as [IHnone IHsome].
    cbv zeta in IHnone, IHsome.
    destruct (edge_is_crossed cut isCCW (polygon_edge polygon start)) eqn:Ec.
    + pose proof Ec as Ec'. rewrite crossed_unfold in Ec'. cbv zeta in Ec'.
      apply andb_true_iff in Ec'. destruct Ec' as [Hdiff _].
      apply negb_true_iff, eqb_false_iff in Hdiff.
      destruct (crossed_edge_meets cut _ _ intersection2D Hdiff)
        as (P & EP & HP1 & HP2).
      rewrite EP. cbn [andb fst snd]. split.
      * intros Hall. rewrite (Hall start) in Ec by lia. discriminate.
      * intros j Hj Hcj Hbefore.
        assert (j = start).
        { destruct (Nat.eq_dec j start) as [E | N]; [exact E|].
          rewrite (Hbefore start) in Ec by lia. discriminate. }
        subst j. exists P. split; [reflexivity|]. split; [exact HP1|].
        exact HP2.
    + cbn [andb]. split.
      * intros Hall. apply IHnone. intros j Hj. apply Hall. lia.
      * intros j Hj Hcj Hbefore.
        assert (j <> start) by (intros ->; rewrite Ec in Hcj; discriminate).
        apply IHsome; [lia | exact Hcj|].
        intros k Hk. apply Hbefore. lia.
Qed.

End LinePolygonReal.

(** X30.  [getIntersectionOfLineAndConvexPolygon], for a vector of at least
    3 vertices, as the assertion at the head of the function demands.  In
    every arithmetic: the call has a result, so the assertion holds and no
    read leaves the vector; the result does not depend on what the local
    variable [intersection2D] holds before it is written; a result of false
    leaves both outputs as they were; and a null pointer [intersectedLine] is
    not written through.  Over exact arithmetic the result is false when no
    edge passes the test of the loop (ends on different sides of the line,
    the first one on the left for a clockwise polygon and not on the left
    for a counter-clockwise one);
    otherwise the result is true, the point written is the point in which the
    line meets the first edge that passes the test, and [intersectedLine]
    receives that edge with its direction normalised. *)
Theorem getIntersectionOfLineAndConvexPolygon_spec :
  (forall (F : Type) (ops : FloatOps F) (polygon : list (Vector2f F))
          (direction : Line F) (intersection : Vector2f F) (isCCW : bool)
          (intersectedLine : option (Line F))
          (intersection2D intersection2D' : Vector2f F),
      (3 <= length polygon)%nat ->
      exists r : bool * Vector2f F * option (Line F),
        value (getIntersectionOfLineAndConvexPolygon
                 polygon direction intersection isCCW intersectedLine
                 intersection2D) = Some r /\
        value (getIntersectionOfLineAndConvexPolygon
                 polygon direction intersection isCCW intersectedLine
                 intersection2D') = Some r /\
        (fst (fst r) = false -> r = (false, intersection, intersectedLine)) /\
        (intersectedLine = None -> snd r = None)) /\
  (forall (polygon : list (Vector2f R)) (direction : Line R)
          (intersection : Vector2f R) (isCCW : bool)
          (intersectedLine : option (Line R)) (intersection2D : Vector2f R),
      let result :=
        value (getIntersectionOfLineAndConvexPolygon
                 polygon direction intersection isCCW intersectedLine
                 intersection2D) in
      (3 <= length polygon)%nat ->
      ((forall j, (j < length polygon)%nat ->
                  edge_is_crossed direction isCCW (polygon_edge polygon j)
                  = false) ->
       result = Some (false, intersection, intersectedLine)) /\
      (forall j, (j < length polygon)%nat ->
                 edge_is_crossed direction isCCW (polygon_edge polygon j)
                 = true ->
                 (forall k, (k < j)%nat ->
                            edge_is_crossed direction isCCW
                                            (polygon_edge polygon k) = false) ->
                 exists P,
                   result =
                   Some (true, P,
                         match intersectedLine with
                         | Some _ =>
                             Some (normalizeDirection (polygon_edge polygon j))
                         | None => None
                         end) /\
                   on_line direction P /\
                   on_edge (polygon_edge polygon j) P)).
Proof.
  split.
  - intros F ops polygon direction intersection isCCW intersectedLine
           intersection2D intersection2D' Hsize.
    unfold getIntersectionOfLineAndConvexPolygon.
    destruct (Z.leb_spec 3 (Z.of_nat (length polygon))); [|lia].
    rewrite indices_from_0_seq.
    apply (polygon_edges_runs polygon direction intersection isCCW
                              intersectedLine intersection
                              intersection2D intersection2D'
                              (length polygon) 0).
    lia.
  - intros polygon direction intersection isCCW intersectedLine
           intersection2D result Hsize.
    subst result. unfold getIntersectionOfLineAndConvexPolygon.
    destruct (Z.leb_spec 3 (Z.of_nat (length polygon))); [|lia].
    rewrite indices_from_0_seq.
    destruct (polygon_edges_first polygon direction intersection isCCW
                                  intersectedLine intersection2D
                                  (length polygon) 0 ltac:(lia))
      as [Hnone Hsome].
    cbv zeta in Hnone, Hsome. split.
    + intros Hall. apply Hnone. intros j Hj. apply Hall. lia.
    + intros j Hj Hc Hbefore. apply Hsome; [lia | exact Hc|].
      intros k Hk. apply Hbefore. lia.
Qed.

Lemma getIntersectionOfLineAndConvexPolygon_spec_witness :
  exists P,
    value (getIntersectionOfLineAndConvexPolygon
             [mkVector2f 0%R 0%R; mkVector2f 4%R 0%R; mkVector2f 0%R 4%R]
             (mkLine (mkVector2f 1%R (-1)%R) (mkVector2f 0%R 1%R))
             (mkVector2f 9%R 9%R) true None (mkVector2f 7%R 7%R))
    = Some (true, P, None) /\
    on_line (mkLine (mkVector2f 1%R (-1)%R) (mkVector2f 0%R 1%R)) P /\
    on_edge (polygon_edge
               [mkVector2f 0%R 0%R; mkVector2f 4%R 0%R; mkVector2f 0%R 4%R]
               1) P.
Proof.
  apply (proj2 getIntersectionOfLineAndConvexPolygon_spec
               [mkVector2f 0%R 0%R; mkVector2f 4%R 0%R; mkVector2f 0%R 4%R]
               (mkLine (mkVector2f 1%R (-1)%R) (mkVector2f 0%R 1%R))
               (mkVector2f 9%R 9%R) true None (mkVector2f 7%R 7%R)).
  - simpl. lia.
  - simpl. lia.
  - unfold edge_is_crossed, polygon_edge, isPointLeftOfLine, far_end, vadd.
    simpl.
    repeat match goal with
           | |- context [Rltb ?a ?b] => destruct (Rltb_spec a b); try lra
           end; reflexivity.
  - intros k Hk. assert (k = 0%nat) by lia. subst k.
    unfold edge_is_crossed, polygon_edge, isPointLeftOfLine, far_end, vadd.
    simpl.
    repeat match goal with
           | |- context [Rltb ?a ?b] => destruct (Rltb_spec a b); try lra
           end; reflexivity.
Defined.
